(** * Windowed gap analysis and field counting over a time-series store

    A shallow embedding of the analysis scripts of the repository:

    - [ramana.py]: [get_frequency], the windowed engine.  It walks the
      requested range in 30-minute windows, fetches the rows of each
      window, measures recording gaps inside each batch and finally counts
      the non-null cells of every field of the channel map.
    - [1.0.7.py]: [load_measurements_fields], [fetch_measurements_and_fields],
      [get_count_for_field] and the result loop of [run_queries], the
      store-side aggregate mode; and of the data processor
      [validate_files], [check_valid_file], [map_values] and the steps of
      [process_file] that compare the input data with the check list.

    Conventions.  Instants and durations are integers in nanoseconds (the
    resolution of a pandas [Timestamp]/[Timedelta]); the [epoch] column and
    the gap threshold are in whole seconds, as in the source.  Parsing of
    the date/time strings and their localisation are outside the model: the
    functions take the already converted instants.  What [ramana.py]
    prints to the standard output is not modelled; the diagnostics the
    aggregate mode hands to [output_func] are.  Python dictionaries
    whose iteration order is observable are association lists; the others
    are [gmap]s. *)

From Stdlib Require Import ZArith Lia Ascii String.
From stdpp Require Import base option list gmap strings sorting.

Local Open Scope string_scope.
Local Open Scope Z_scope.
Local Open Scope list_scope.

(** ** Values, points, queries *)

(** A cell of a returned row. *)
Inductive value :=
| VInt (n : Z)
| VStr (s : string)
| VBool (b : bool)
| VTime (ns : Z).

(** One point yielded by [results.get_points()]: the ['time'] entry and the
    remaining [key: value] entries in order ([None] is Python's [None]). *)
Record Point := {
  p_time : Z;
  p_cols : list (string * option value)
}.

(** The two query texts the scripts send.
    [SelectAll]: [SELECT * FROM m WHERE vehicle_id=v AND time >= a AND
    time < b ORDER BY time ASC LIMIT n].
    [SelectCount]: [SELECT COUNT(f) FROM m WHERE vehicle_id=v AND
    time >= a AND time < b]. *)
Inductive Query :=
| SelectAll (measurement vehicle_id : string) (t_from t_to : Z) (limit : Z)
| SelectCount (field measurement vehicle_id : string) (t_from t_to : Z).

(** What [client.query(...)] followed by [get_points()] gives: an exception
    or the points. *)
Inductive Response :=
| QueryError
| Points (pts : list Point).

(** The store client.  Its answer may depend on how many queries were sent
    before, so that an unreliable store can be described. *)
Definition Client := nat -> Query -> Response.

(** ** Effects: issued queries, diagnostics, exceptions *)

Inductive LogMsg :=
| MsgExecuting (q : Query)
| MsgQueryError (measurement field : string)
| MsgCount (measurement field : string) (count_val : option value)
| MsgLoaded
| MsgLoadError
| MsgProcessing (measurement : string)
| MsgNoFields.

Record World := {
  issued : list Query;
  log : list LogMsg
}.

Definition world0 : World := {| issued := []; log := [] |}.

Inductive exn :=
| InfluxError
| KeyError (key : string)
| IndexError
| FileError
| ReadError (cause : exn).

Inductive outcome (A : Type) :=
| Returns (a : A)
| Raises (e : exn)
| Diverges.
Arguments Returns {A} a.
Arguments Raises {A} e.
Arguments Diverges {A}.

Definition M (A : Type) : Type := World -> outcome A * World.

Definition ret {A} (a : A) : M A := fun w => (Returns a, w).

Definition raise {A} (e : exn) : M A := fun w => (Raises e, w).

Definition bind {A B} (m : M A) (k : A -> M B) : M B :=
  fun w =>
    match m w with
    | (Returns a, w') => k a w'
    | (Raises e, w') => (Raises e, w')
    | (Diverges, w') => (Diverges, w')
    end.

Notation "'let*' x ':=' m 'in' k" := (bind m (fun x => k))
  (at level 10, x name, m at level 100, k at level 200).

(** [try: m  except Exception: h] *)
Definition try_except {A} (m : M A) (h : exn -> M A) : M A :=
  fun w =>
    match m w with
    | (Raises e, w') => h e w'
    | r => r
    end.

(** [output_func(msg)] *)
Definition output_func (msg : LogMsg) : M unit :=
  fun w => (Returns tt, {| issued := issued w; log := log w ++ [msg] |}).

(** [list(client.query(q).get_points())] *)
Definition client_query (client : Client) (q : Query) : M (list Point) :=
  fun w =>
    let w' := {| issued := issued w ++ [q]; log := log w |} in
    match client (length (issued w)) q with
    | QueryError => (Raises InfluxError, w')
    | Points pts => (Returns pts, w')
    end.

(** ** The store behind the client

    The time-series store is an external collaborator.  This is the
    meaning of the two query texts above over the stored series of a
    measurement and vehicle. *)

Definition Store := string -> string -> list Point.

Definition in_window (a b : Z) (p : Point) : bool :=
  (a <=? p_time p) && (p_time p <? b).

Fixpoint insert_by_time (p : Point) (l : list Point) : list Point :=
  match l with
  | [] => [p]
  | q :: l' => if p_time p <? p_time q then p :: l else q :: insert_by_time p l'
  end.

(** [ORDER BY time ASC] (stable). *)
Definition order_by_time (l : list Point) : list Point :=
  foldr insert_by_time [] l.

(** [LIMIT n] *)
Fixpoint limit_rows (n : Z) (l : list Point) : list Point :=
  match l with
  | [] => []
  | p :: l' => if 0 <? n then p :: limit_rows (n - 1) l' else []
  end.

(** The cell of field [f] in a point ([None] when missing or null). *)
Definition point_get (f : string) (p : Point) : option value :=
  (list_to_map (p_cols p) : gmap string (option value)) !! f ≫= id.

Definition count_non_null (f : string) (l : list Point) : nat :=
  length (filter (fun p => is_Some (point_get f p)) l).

Definition store_answer (db : Store) (q : Query) : list Point :=
  match q with
  | SelectAll m v a b limit =>
      limit_rows limit (order_by_time (filter (fun p => in_window a b p) (db m v)))
  | SelectCount f m v a b =>
      let n := count_non_null f (filter (fun p => in_window a b p) (db m v)) in
      match n with
      | O => []
      | _ => [ {| p_time := a; p_cols := [("count", Some (VInt (Z.of_nat n)))] |} ]
      end
  end.

Definition store_client (db : Store) : Client :=
  fun _ q => Points (store_answer db q).

(** ** Data frames

    The part of pandas the engine uses.  A frame has a set of column
    labels and a list of rows; a cell that is missing from a row or holds
    [None] is NA. *)

Record DataFrame := {
  df_columns : gset string;
  df_rows : list (gmap string (option value))
}.

Definition point_row (p : Point) : gmap string (option value) :=
  <["time" := Some (VTime (p_time p))]> (list_to_map (p_cols p)).

Definition point_keys (p : Point) : gset string :=
  {["time"]} ∪ list_to_set (p_cols p).*1.

(** [pd.DataFrame(list(results.get_points()))] *)
Definition DataFrame_of (pts : list Point) : DataFrame :=
  {| df_columns := ⋃ (point_keys <$> pts); df_rows := point_row <$> pts |}.

(** [data.empty] *)
Definition df_empty (df : DataFrame) : bool :=
  match df_rows df with
  | [] => true
  | _ => false
  end.

(** [data[name] = cells] *)
Definition set_column (name : string) (cells : list (option value))
    (df : DataFrame) : DataFrame :=
  {| df_columns := {[name]} ∪ df_columns df;
     df_rows := zip_with (fun row c => <[name := c]> row) (df_rows df) cells |}.

(** [pd.concat(all_data)] *)
Definition concat_frames (dfs : list DataFrame) : DataFrame :=
  {| df_columns := ⋃ (df_columns <$> dfs); df_rows := concat (df_rows <$> dfs) |}.

Definition cell (field : string) (row : gmap string (option value)) : option value :=
  row !! field ≫= id.

(** [df[field]]: the column, or [KeyError] when there is no such label. *)
Definition df_getitem (df : DataFrame) (field : string) : M (list (option value)) :=
  if decide (field ∈ df_columns df)
  then ret (cell field <$> df_rows df)
  else raise (KeyError field).

(** [series.count()]: the number of cells that are not NA. *)
Definition series_count (col : list (option value)) : Z :=
  Z.of_nat (length (filter is_Some col)).

(** ** The gap detector ([ramana.py], lines 39-46) *)

Definition ns_per_s : Z := 1000000000.

(** [pd.to_datetime(data['time'], utc=True).astype(int) // 10**9] *)
Definition epoch_of (p : Point) : Z := p_time p / ns_per_s.

Fixpoint diff_from (prev : Z) (xs : list Z) : list (option Z) :=
  match xs with
  | [] => []
  | x :: xs' => Some (x - prev) :: diff_from x xs'
  end.

(** [series.diff()]: NaN in the first row, then the successive differences. *)
Definition diff (xs : list Z) : list (option Z) :=
  match xs with
  | [] => []
  | x :: xs' => None :: diff_from x xs'
  end.

(** [d > threshold] on a cell of [time_diff]; a NaN compares false. *)
Definition exceeds (threshold : Z) (d : option Z) : bool :=
  match d with
  | Some x => threshold <? x
  | None => false
  end.

(** [series.sum()], NaN skipped. *)
Definition series_sum (col : list (option Z)) : Z :=
  foldr (fun d acc => default 0 d + acc) 0 col.

(** The rows kept by [data[data['time_diff'] > threshold]], as their
    [time_diff] cells. *)
Definition gaps_of (threshold : Z) (epoch : list Z) : list (option Z) :=
  filter (fun d => exceeds threshold d) (diff epoch).

(** The seconds added to [total_gap_duration] for one batch. *)
Definition gap_seconds (threshold : Z) (epoch : list Z) : Z :=
  let gaps := gaps_of threshold epoch in
  match gaps with
  | [] => 0
  | _ => series_sum gaps - threshold * Z.of_nat (length gaps)
  end.

(** [pd.Timedelta(seconds=s)] *)
Definition Timedelta_seconds (s : Z) : Z := s * ns_per_s.

(** ** The windowed engine ([ramana.py], [get_frequency]) *)

(** The two constants written in the loop: the window length and the gap
    threshold in seconds. *)
Record Config := {
  window_size : Z;
  gap_threshold : Z
}.

(** [pd.Timedelta(minutes=30)] and [4]. *)
Definition source_config : Config :=
  {| window_size := 30 * 60 * ns_per_s; gap_threshold := 4 |}.

Record LoopState := {
  current_time : Z;
  total_gap_duration : Z;
  all_data : list DataFrame
}.

Definition FrequencyTable := gmap string (gmap string Z).

(** [{field: 0 for field in fields}] *)
Definition zero_counts (fields : list string) : gmap string Z :=
  foldl (fun acc field => <[field := 0]> acc) ∅ fields.

(** [{can_id: {field: 0 ...} for can_id, fields in can_id_fields.items()}] *)
Definition init_frequency (can_id_fields : list (string * list string))
    : gmap string (gmap string Z) :=
  foldl (fun acc item => <[item.1 := zero_counts item.2]> acc) ∅ can_id_fields.

(** [frequency_dict[can_id][field] = n] *)
Definition set_count (can_id field : string) (n : Z)
    (frequency_dict : gmap string (gmap string Z)) : M (gmap string (gmap string Z)) :=
  match frequency_dict !! can_id with
  | Some counts => ret (<[can_id := <[field := n]> counts]> frequency_dict)
  | None => raise (KeyError can_id)
  end.

(** [for field in fields: frequency_dict[can_id][field] = df[field].count()] *)
Fixpoint count_fields (df : DataFrame) (can_id : string) (fields : list string)
    (frequency_dict : gmap string (gmap string Z)) : M (gmap string (gmap string Z)) :=
  match fields with
  | [] => ret frequency_dict
  | field :: rest =>
      let* col := df_getitem df field in
      let* frequency_dict' := set_count can_id field (series_count col) frequency_dict in
      count_fields df can_id rest frequency_dict'
  end.

(** [for can_id, fields in can_id_fields.items(): ...] *)
Fixpoint count_channels (df : DataFrame) (items : list (string * list string))
    (frequency_dict : gmap string (gmap string Z)) : M (gmap string (gmap string Z)) :=
  match items with
  | [] => ret frequency_dict
  | (can_id, fields) :: rest =>
      let* frequency_dict' := count_fields df can_id fields frequency_dict in
      count_channels df rest frequency_dict'
  end.

(** The number of iterations of the [while] loop over a range, for a
    positive window length. *)
Definition window_count (t_start t_end w : Z) : nat :=
  Z.to_nat ((t_end - t_start + w - 1) / w).

Section Engine.

Variable cfg : Config.
Variable client : Client.
Variables vehicle_id measurement : string.
Variable final_end_time : Z.
Variable batch_size : Z.

(** The body of the [while] loop. *)
Definition loop_body (st : LoopState) : M LoopState :=
  let next_time := current_time st + window_size cfg in
  let query :=
    SelectAll measurement vehicle_id (current_time st) next_time batch_size in
  let* pts := client_query client query in
  let data := DataFrame_of pts in
  if df_empty data then
    ret {| current_time := next_time;
           total_gap_duration := total_gap_duration st;
           all_data := all_data st |}
  else
    let epoch := epoch_of <$> pts in
    let data := set_column "epoch" ((fun e => Some (VInt e)) <$> epoch) data in
    let data := set_column "time_diff" ((fun d : option Z => VInt <$> d) <$> diff epoch) data in
    ret {| current_time := next_time;
           total_gap_duration :=
             total_gap_duration st
             + Timedelta_seconds (gap_seconds (gap_threshold cfg) epoch);
           all_data := all_data st ++ [data] |}.

(** [while current_time < final_end_time: ...] *)
Fixpoint while_windows (fuel : nat) (st : LoopState) : M LoopState :=
  if current_time st <? final_end_time then
    match fuel with
    | O => fun w => (Diverges, w)
    | S fuel' =>
        let* st' := loop_body st in
        while_windows fuel' st'
    end
  else ret st.

(** [n] iterations of the body, whatever the loop test says. *)
Fixpoint iterate_body (n : nat) (st : LoopState) : M LoopState :=
  match n with
  | O => ret st
  | S n' =>
      let* st' := loop_body st in
      iterate_body n' st'
  end.

End Engine.

Definition loop_start (t_start : Z) : LoopState :=
  {| current_time := t_start; total_gap_duration := 0; all_data := [] |}.

(** [get_frequency], with the two constants of the loop as a parameter.
    [t_start] and [final_end_time] are the localised bounds of the range. *)
Definition get_frequency_with (cfg : Config) (client : Client)
    (vehicle_id : string) (t_start final_end_time : Z) (measurement : string)
    (can_id_fields : list (string * list string)) (batch_size : Z)
    : M (gmap string (gmap string Z) * Z) :=
  let frequency_dict := init_frequency can_id_fields in
  let* st :=
    while_windows cfg client vehicle_id measurement final_end_time batch_size
      (window_count t_start final_end_time (window_size cfg))
      (loop_start t_start) in
  let effective_time := (final_end_time - t_start) - total_gap_duration st in
  match all_data st with
  | [] => ret (frequency_dict, effective_time)
  | _ =>
      let concatenated_data := concat_frames (all_data st) in
      let* frequency_dict' :=
        count_channels concatenated_data can_id_fields frequency_dict in
      ret (frequency_dict', effective_time)
  end.

Definition get_frequency := get_frequency_with source_config.

(** ** The aggregate mode ([1.0.7.py]) *)

(** *** Python strings

    A character is a code point below 256. *)

(** [c.isspace()] *)
Definition is_space (c : ascii) : bool :=
  let n := N_of_ascii c in
  ((9 <=? n) && (n <=? 13) || (28 <=? n) && (n <=? 32) || (n =? 133) || (n =? 160))%N.

Fixpoint lstrip (s : string) : string :=
  match s with
  | EmptyString => EmptyString
  | String c s' => if is_space c then lstrip s' else s
  end.

Fixpoint rstrip (s : string) : string :=
  match s with
  | EmptyString => EmptyString
  | String c s' =>
      match rstrip s' with
      | EmptyString => if is_space c then EmptyString else String c EmptyString
      | r => String c r
      end
  end.

(** [s.strip()] *)
Definition strip (s : string) : string := rstrip (lstrip s).

Definition tab : ascii := ascii_of_nat 9.

(** [s.split('\t')] *)
Fixpoint split_tab (s : string) : list string :=
  match s with
  | EmptyString => [EmptyString]
  | String c s' =>
      if Ascii.eqb c tab then EmptyString :: split_tab s'
      else match split_tab s' with
           | [] => [String c EmptyString]
           | part :: parts => String c part :: parts
           end
  end.

(** *** Dictionaries that keep their insertion order *)

Fixpoint dict_get {V} (k : string) (d : list (string * V)) : option V :=
  match d with
  | [] => None
  | (k', v) :: d' => if String.eqb k' k then Some v else dict_get k d'
  end.

(** [d[k] = v]: an existing key keeps its place. *)
Fixpoint dict_set {V} (k : string) (v : V) (d : list (string * V)) : list (string * V) :=
  match d with
  | [] => [(k, v)]
  | (k', v') :: d' =>
      if String.eqb k' k then (k, v) :: d' else (k', v') :: dict_set k v d'
  end.

(** Truth value of [current_measurement] ([None] and [''] are false). *)
Definition truthy (s : option string) : bool :=
  match s with
  | None | Some EmptyString => false
  | Some _ => true
  end.

(** *** [load_measurements_fields] *)

(** The body of [for line in f], on the pair
    [(measurements_fields, current_measurement)]. *)
Definition load_line (st : list (string * list string) * option string)
    (line : string) : outcome (list (string * list string) * option string) :=
  let '(measurements_fields, current_measurement) := st in
  let stripped_line := strip line in
  match stripped_line with
  | EmptyString => Returns (measurements_fields, None)
  | _ =>
      match line with
      | EmptyString => Raises IndexError
      | String c0 _ =>
          if is_space c0 && truthy current_measurement then
            match current_measurement with
            | Some m =>
                match dict_get m measurements_fields with
                | Some fields =>
                    Returns (dict_set m (fields ++ [stripped_line])%list measurements_fields,
                             current_measurement)
                | None => Raises (KeyError m)
                end
            | None => Raises IndexError (* not reached: [None] is not truthy *)
            end
          else
            match split_tab stripped_line with
            | part0 :: part1 :: _ =>
                Returns (dict_set part0 [part1] measurements_fields, Some part0)
            | [part0] =>
                Returns (dict_set part0 [] measurements_fields, Some part0)
            | [] => Raises IndexError
            end
      end
  end.

Fixpoint load_lines (st : list (string * list string) * option string)
    (lines : list string) : outcome (list (string * list string) * option string) :=
  match lines with
  | [] => Returns st
  | line :: rest =>
      match load_line st line with
      | Returns st' => load_lines st' rest
      | r => r
      end
  end.

(** What [open(filename, 'r')] and the reading give: the decoded text of
    the file, or [FileError] when the file can not be opened or its bytes
    can not be decoded.  The loader has no effect but its result, so it
    does not matter how far the reading went before it failed. *)
Inductive TextFile :=
| Unreadable
| Content (text : string).

Definition line_feed : ascii := ascii_of_nat 10.
Definition carriage_return : ascii := ascii_of_nat 13.
Definition newline : string := String (ascii_of_nat 10) EmptyString.

(** [for line in f], for a file opened in text mode: a line ends after a
    line feed, a carriage return or the two in a row, each of them read as
    one line feed; the last line has no line end when the text does not
    end with one. *)
Fixpoint file_lines (text : string) : list string :=
  match text with
  | EmptyString => []
  | String c rest =>
      if Ascii.eqb c line_feed then newline :: file_lines rest
      else if Ascii.eqb c carriage_return then
        match rest with
        | String c' rest' =>
            if Ascii.eqb c' line_feed then newline :: file_lines rest'
            else newline :: file_lines rest
        | EmptyString => [newline]
        end
      else
        match file_lines rest with
        | [] => [String c EmptyString]
        | line :: lines => String c line :: lines
        end
  end.

(** [load_measurements_fields(filename)]: whatever goes wrong inside the
    [try] is raised again as the error of reading the file. *)
Definition load_measurements_fields (file : TextFile)
    : outcome (list (string * list string)) :=
  match file with
  | Unreadable => Raises (ReadError FileError)
  | Content text =>
      match load_lines ([], None) (file_lines text) with
      | Returns (measurements_fields, _) => Returns measurements_fields
      | Raises e => Raises (ReadError e)
      | Diverges => Diverges
      end
  end.

(** *** [get_count_for_field] *)

(** The keys and values of a point, ['time'] first. *)
Definition point_items (p : Point) : list (string * option value) :=
  ("time", Some (VTime (p_time p))) :: p_cols p.

Definition get_count_for_field (client : Client) (measurement field vehicle_id : string)
    (start_dt end_dt : Z) : M (option value) :=
  let query := SelectCount field measurement vehicle_id start_dt end_dt in
  let* _ := output_func (MsgExecuting query) in
  let* answer :=
    try_except
      (let* points := client_query client query in ret (Some points))
      (fun e => let* _ := output_func (MsgQueryError measurement field) in ret None) in
  match answer with
  | None => ret (Some (VInt 0))
  | Some [] => ret (Some (VInt 0))
  | Some (point0 :: _) =>
      match List.find (fun kv => String.prefix "count" kv.1) (point_items point0) with
      | Some (key, count_val) =>
          let* _ := output_func (MsgCount measurement field count_val) in
          ret count_val
      | None => ret (Some (VInt 0))
      end
  end.

(** *** The result loop of [run_queries] (lines 147-159) *)

Record ResultRow := {
  Measurement_Field : string;
  Count : option value
}.

Section RunQueries.

Variable client : Client.
Variable vehicle_id : string.
Variables start_dt end_dt : Z.

(** [for field in fields: ...] *)
Fixpoint query_fields (measurement : string) (fields : list string)
    (results_list : list ResultRow) : M (list ResultRow) :=
  match fields with
  | [] => ret results_list
  | field :: rest =>
      let* count_value :=
        get_count_for_field client measurement field vehicle_id start_dt end_dt in
      let combined_key := (measurement ++ ".count_" ++ field)%string in
      query_fields measurement rest
        (results_list
         ++ [ {| Measurement_Field := combined_key; Count := count_value |} ])%list
  end.

(** [for measurement, fields in measurements_fields.items(): ...] *)
Fixpoint query_measurements (items : list (string * list string))
    (results_list : list ResultRow) : M (list ResultRow) :=
  match items with
  | [] => ret results_list
  | (measurement, fields) :: rest =>
      let* _ := output_func (MsgProcessing measurement) in
      match fields with
      | [] =>
          let* _ := output_func MsgNoFields in
          query_measurements rest results_list
      | _ =>
          let* results_list' := query_fields measurement fields results_list in
          query_measurements rest results_list'
      end
  end.

(** [run_queries] with [use_csv] set and a file that exists, from the
    loading of the channel map to the filled [results_list]; an unreadable
    map ends the run with no table. *)
Definition run_queries (file : TextFile) : M (option (list ResultRow)) :=
  match load_measurements_fields file with
  | Returns measurements_fields =>
      let* _ := output_func MsgLoaded in
      let* results_list := query_measurements measurements_fields [] in
      ret (Some results_list)
  | _ =>
      let* _ := output_func MsgLoadError in
      ret None
  end.

End RunQueries.


(** ** Notions used in the statements *)

(** *** Windows *)

(** The windows [(current_time, next_time)] the [while] loop of
    [get_frequency] walks through, the data left aside. *)
Fixpoint schedule_loop (fuel : nat) (current_time final_end_time w : Z)
    : option (list (Z * Z)) :=
  if current_time <? final_end_time then
    match fuel with
    | O => None
    | S fuel' =>
        let next_time := current_time + w in
        cons (current_time, next_time)
          <$> schedule_loop fuel' next_time final_end_time w
    end
  else Some [].

Definition schedule (t_start final_end_time w : Z) : option (list (Z * Z)) :=
  schedule_loop (window_count t_start final_end_time w) t_start final_end_time w.

Fixpoint windows_from (n : nat) (t w : Z) : list (Z * Z) :=
  match n with
  | O => []
  | S n' => (t, t + w) :: windows_from n' (t + w) w
  end.

Definition duration (win : Z * Z) : Z := win.2 - win.1.

Definition total_duration (ws : list (Z * Z)) : Z :=
  foldr (fun win acc => duration win + acc) 0 ws.

(** Each window starts where the one before it ends. *)
Definition contiguous (ws : list (Z * Z)) : Prop :=
  forall (i : nat) a b, ws !! i = Some a -> ws !! S i = Some b -> a.2 = b.1.

(** Windows are non-empty half-open intervals, and an earlier one ends
    before a later one starts. *)
Definition non_overlapping (ws : list (Z * Z)) : Prop :=
  (forall a, a ∈ ws -> a.1 < a.2) /\
  (forall (i j : nat) a b, (i < j)%nat -> ws !! i = Some a -> ws !! j = Some b -> a.2 <= b.1).

(** The windows cover [[t_start, t_end)] exactly once. *)
Definition exact_cover (t_start t_end : Z) (ws : list (Z * Z)) : Prop :=
  contiguous ws /\ non_overlapping ws /\
  fst <$> head ws = Some t_start /\
  snd <$> last ws = Some t_end /\
  total_duration ws = t_end - t_start.

(** *** What the client answered *)

Definition rows_of (r : Response) : list Point :=
  match r with
  | Points pts => pts
  | QueryError => []
  end.

(** The frame kept in [all_data] for a non-empty batch. *)
Definition frame_of (pts : list Point) : DataFrame :=
  let epoch := epoch_of <$> pts in
  set_column "time_diff" ((fun d : option Z => VInt <$> d) <$> diff epoch)
    (set_column "epoch" ((fun e => Some (VInt e)) <$> epoch) (DataFrame_of pts)).

Definition frames_of (bs : list (list Point)) : list DataFrame :=
  frame_of <$> filter (fun b => b <> []) bs.

Section Trace.

Variable cfg : Config.
Variable client : Client.
Variables vehicle_id measurement : string.
Variable batch_size : Z.

(** The query sent for the window that starts at [t]. *)
Definition window_query (t : Z) : Query :=
  SelectAll measurement vehicle_id t (t + window_size cfg) batch_size.

Fixpoint window_queries (n : nat) (t : Z) : list Query :=
  match n with
  | O => []
  | S n' => window_query t :: window_queries n' (t + window_size cfg)
  end.

(** The batches answered to [n] successive windows from [t], the first of
    them being the client's query number [k]. *)
Fixpoint batches (n k : nat) (t : Z) : list (list Point) :=
  match n with
  | O => []
  | S n' => rows_of (client k (window_query t)) :: batches n' (S k) (t + window_size cfg)
  end.

(** The state after one iteration whose query was answered with [pts]. *)
Definition next_state (st : LoopState) (pts : list Point) : LoopState :=
  {| current_time := current_time st + window_size cfg;
     total_gap_duration :=
       total_gap_duration st
       + Timedelta_seconds (gap_seconds (gap_threshold cfg) (epoch_of <$> pts));
     all_data := all_data st ++ frames_of [pts] |}.

End Trace.

(** The world after the queries [qs] were sent. *)
Definition sent (w0 : World) (qs : list Query) : World :=
  {| issued := issued w0 ++ qs; log := log w0 |}.

(** *** Gaps *)

(** The lost seconds of one difference of successive [epoch] values. *)
Definition excess (threshold d : Z) : Z :=
  if threshold <? d then d - threshold else 0.

(** The successive differences of a list of numbers. *)
Fixpoint deltas (xs : list Z) : list Z :=
  match xs with
  | x :: (y :: _) as xs' => (y - x) :: deltas xs'
  | _ => []
  end.

Definition sum_list (xs : list Z) : Z := foldr Z.add 0 xs.

(** The accumulated gap duration over a list of batches, each batch on
    its own. *)
Definition gap_total (threshold : Z) (bs : list (list Point)) : Z :=
  sum_list ((fun b => Timedelta_seconds (gap_seconds threshold (epoch_of <$> b))) <$> bs).

(** The lost seconds of the interval between the last sample of a batch
    and the first sample of the next one, had it been looked at. *)
Definition boundary_excess (threshold : Z) (b1 b2 : list Point) : Z :=
  match last b1, head b2 with
  | Some p, Some q => excess threshold (epoch_of q - epoch_of p)
  | _, _ => 0
  end.

(** The gap detector in the words of its contract: the differences of
    successive timestamps, those strictly above the threshold being gaps
    that each lose [delta - threshold].  In nanoseconds. *)
Definition contract_gap_duration (threshold : Z) (pts : list Point) : Z :=
  sum_list (excess (Timedelta_seconds threshold) <$> deltas (p_time <$> pts)).

(** *** Channel maps *)

(** [df[field].count()] *)
Definition column_count (df : DataFrame) (field : string) : Z :=
  series_count (cell field <$> df_rows df).

(** The labels a frame of the engine has of its own. *)
Definition own_label (f : string) : Prop :=
  f = "time" \/ f = "epoch" \/ f = "time_diff".

(** The count the table holds for a field of a channel. *)
Definition table_count (tbl : gmap string (gmap string Z)) (can_id field : string)
    : option Z :=
  tbl !! can_id ≫= fun counts => counts !! field.

(** The [(measurement, field)] pairs of a channel map, in iteration order. *)
Definition field_pairs (items : list (string * list string)) : list (string * string) :=
  items ≫= fun item => (fun f => (item.1, f)) <$> item.2.


(** *** The aggregate queries of a run *)

(** The query [get_count_for_field] sends for a measurement and field. *)
Definition pair_query (vehicle_id : string) (start_dt end_dt : Z)
    (pair : string * string) : Query :=
  SelectCount pair.2 pair.1 vehicle_id start_dt end_dt.

(** The key of the result row of a measurement and field. *)
Definition pair_key (pair : string * string) : string :=
  (pair.1 ++ ".count_" ++ pair.2)%string.

(** *** Lines of a channel map file *)

(** The line has a tab character. *)
Fixpoint has_tab (s : string) : bool :=
  match s with
  | EmptyString => false
  | String c s' => Ascii.eqb c tab || has_tab s'
  end.

(** ** Notions used in the further properties *)

(** The samples of a batch are in time order. *)
Definition time_ordered (pts : list Point) : Prop :=
  Sorted (fun p q => p_time p <= p_time q) pts.

(** The whole seconds between the first and the last sample of a batch. *)
Definition epoch_span (pts : list Point) : Z :=
  match head pts, last pts with
  | Some p, Some q => epoch_of q - epoch_of p
  | _, _ => 0
  end.

(** *** A channel map written out as a file

    The layout the docstring of [load_measurements_fields] describes: a
    block starts with [measurement<TAB>first_field], the further fields
    follow on indented lines, and a blank line ends the block.  A
    measurement without fields is written as its name alone. *)

Definition render_block (block : string * list string) : list string :=
  match block.2 with
  | [] => [ (block.1 ++ newline)%string ]
  | first :: more =>
      (block.1 ++ String tab (first ++ newline))%string
      :: ((fun f => String " " (String " " (f ++ newline))%string) <$> more)
  end ++ [newline].

Definition render_measurements_fields (blocks : list (string * list string))
    : list string :=
  concat (render_block <$> blocks).

(** The text of the file: its lines one after the other. *)
Definition file_text (lines : list string) : string :=
  foldr String.append EmptyString lines.

(** No character of the string ends a line. *)
Fixpoint single_line (s : string) : bool :=
  match s with
  | EmptyString => true
  | String c s' =>
      negb (Ascii.eqb c line_feed) && negb (Ascii.eqb c carriage_return)
      && single_line s'
  end.

(** The string begins with a character that is not white space. *)
Definition starts_with_text (s : string) : bool :=
  match s with
  | EmptyString => false
  | String c _ => negb (is_space c)
  end.

(** A name that survives the file: it begins and ends with a character
    that is not white space, has no tab and has no line end. *)
Definition clean_name (s : string) : Prop :=
  starts_with_text s = true /\ rstrip s = s /\ has_tab s = false
  /\ single_line s = true.

(** A line as the file iterator yields it before the end of the file:
    one line feed, at its end. *)
Definition whole_line (line : string) : Prop :=
  exists body, line = (body ++ newline)%string /\ single_line body = true.

(** The key that the loader is tracking has an entry. *)
Definition tracked (st : list (string * list string) * option string) : Prop :=
  forall m, st.2 = Some m -> is_Some (dict_get m st.1).

(** ** The data processor ([1.0.7.py], [process_file])

    What [process_file] does to one cell of the [Metric] column (lines
    429-432): the cell is split at its first dot into the [Measurement] and
    the [InfluxDB Field Name], and every [count_] is taken out of the
    latter. *)

(** [s.split('.', 1)]: the part before the first dot and, when there is a
    dot, the part after it. *)
Fixpoint split_first_dot (s : string) : string * option string :=
  match s with
  | EmptyString => (EmptyString, None)
  | String c s' =>
      if Ascii.eqb c "." then (EmptyString, Some s')
      else let '(before, after) := split_first_dot s' in (String c before, after)
  end.

(** [s.replace(old, '')] for a non-empty [old]: the occurrences are found
    from left to right and do not overlap; [skip] characters of an
    occurrence are still to be dropped. *)
Fixpoint remove_from (old : string) (skip : nat) (s : string) : string :=
  match s with
  | EmptyString => EmptyString
  | String c s' =>
      match skip with
      | S k => remove_from old k s'
      | O =>
          if String.prefix old s
          then remove_from old (String.length old - 1) s'
          else String c (remove_from old O s')
      end
  end.

(** [s.replace('count_', '')] *)
Definition remove_count_ (s : string) : string := remove_from "count_" 0 s.

(** The two cells derived from a [Metric] cell; [None] when the cell has
    no dot, in which case [process_file] raises [ValueError]. *)
Definition metric_columns (metric : string) : option (string * string) :=
  match split_first_dot metric with
  | (measurement, Some field) => Some (measurement, remove_count_ field)
  | (_, None) => None
  end.

(** The string has a dot. *)
Fixpoint has_dot (s : string) : bool :=
  match s with
  | EmptyString => false
  | String c s' => Ascii.eqb c "." || has_dot s'
  end.

(** [old in s] *)
Fixpoint occurs (old s : string) : bool :=
  String.prefix old s
  || match s with
     | EmptyString => false
     | String _ s' => occurs old s'
     end.

(** *** The check list ([validate_files], [check_valid_file], [map_values])

    The input data and the check list are frames as above.  The steps of
    [process_file] that compare them (lines 433-439) come after the
    functions they call. *)

Global Instance value_eq_dec : EqDecision value.
Proof. solve_decision. Defined.

Inductive ProcessError :=
| MissingColumns (missing : gset string)
| NoColumn (label : string).

Inductive checked (A : Type) :=
| Ok (a : A)
| Failed (e : ProcessError).
Arguments Ok {A} a.
Arguments Failed {A} e.

Definition name_column : string := "InfluxDB Field Name".
Definition can_column : string := "CAN Dictionary MAP".
Definition time_column : string := "Time ".
Definition value_column : string := "Value".

(** [df.drop_duplicates(subset=label)]: of the rows with the same cell
    under [label] the first is kept; NA cells count as the same. *)
Fixpoint drop_duplicates_from (seen : list (option value)) (label : string)
    (rows : list (gmap string (option value))) : list (gmap string (option value)) :=
  match rows with
  | [] => []
  | row :: rest =>
      if decide (cell label row ∈ seen)
      then drop_duplicates_from seen label rest
      else row :: drop_duplicates_from (cell label row :: seen) label rest
  end.

Definition drop_duplicates (label : string) (df : DataFrame) : DataFrame :=
  {| df_columns := df_columns df;
     df_rows := drop_duplicates_from [] label (df_rows df) |}.

Definition required_columns : list string := [name_column; can_column; time_column].

(** [validate_files(input_data, valid_data)] *)
Definition validate_files (input_data valid_data : DataFrame) : checked DataFrame :=
  if decide (Forall (fun column => column ∈ df_columns valid_data) required_columns)
  then Ok (drop_duplicates name_column valid_data)
  else Failed (MissingColumns (list_to_set required_columns ∖ df_columns valid_data)).

(** [x in series.values]: an NA is equal to nothing. *)
Definition in_values (x : option value) (values : list (option value)) : Prop :=
  match x with
  | Some v => Some v ∈ values
  | None => False
  end.

Global Instance in_values_dec x values : Decision (in_values x values).
Proof. destruct x; simpl; apply _. Defined.

(** [check_valid_file(row, valid_data)], the row being one of a frame with
    the labels [columns]. *)
Definition check_valid_file (columns : gset string) (row : gmap string (option value))
    (valid_data : DataFrame) : checked string :=
  if decide (name_column ∈ columns) then
    if decide (in_values (cell name_column row) (cell name_column <$> df_rows valid_data))
    then
      if decide (value_column ∈ columns) then
        match cell value_column row with
        | None => Ok "No"
        | Some _ => Ok "Yes"
        end
      else Failed (NoColumn value_column)
    else Ok "No"
  else Failed (NoColumn name_column).

(** [input_data.apply(lambda row: check_valid_file(row, valid_data), axis=1)] *)
Fixpoint apply_check (columns : gset string) (rows : list (gmap string (option value)))
    (valid_data : DataFrame) : checked (list string) :=
  match rows with
  | [] => Ok []
  | row :: rest =>
      match check_valid_file columns row valid_data with
      | Failed e => Failed e
      | Ok answer =>
          match apply_check columns rest valid_data with
          | Failed e => Failed e
          | Ok answers => Ok (answer :: answers)
          end
      end
  end.

(** [series.unique()]: the values in the order of their first appearance. *)
Fixpoint unique_from (seen : list (option value)) (l : list (option value))
    : list (option value) :=
  match l with
  | [] => []
  | x :: rest =>
      if decide (x ∈ seen) then unique_from seen rest
      else x :: unique_from (x :: seen) rest
  end.

Definition unique (l : list (option value)) : list (option value) := unique_from [] l.

(** [input_data[input_data['Available in Valid File?'] == 'No']
      ['InfluxDB Field Name'].unique().tolist()] *)
Definition missing_in_valid_file (input_data : DataFrame) (available : list string)
    : list (option value) :=
  unique ((fun ra => cell name_column ra.1)
            <$> filter (fun ra => ra.2 = "No") (zip (df_rows input_data) available)).

(** [valid_data[~valid_data[name].isin(input_data[name])][name].unique().tolist()] *)
Definition missing_in_input_data (input_data valid_data : DataFrame)
    : list (option value) :=
  unique (cell name_column
            <$> filter (fun row => cell name_column row
                                   ∉ (cell name_column <$> df_rows input_data))
                  (df_rows valid_data)).

(** [valid_data.set_index(index)[column].to_dict()], as the pairs in row
    order; of two pairs with the same key the dictionary holds the later
    one. *)
Definition to_dict (index column : string) (df : DataFrame)
    : list (option value * option value) :=
  (fun row => (cell index row, cell column row)) <$> df_rows df.

Definition dict_lookup (d : list (option value * option value)) (k : option value)
    : option (option value) :=
  snd <$> List.find (fun kv => bool_decide (kv.1 = k)) (reverse d).

(** [series.map(d)]: NA where the dictionary has no such key. *)
Definition map_dict (d : list (option value * option value)) (x : option value)
    : option value :=
  default None (dict_lookup d x).

(** [map_values(input_data, valid_data)]; selecting a column that a frame
    does not have is an error. *)
Definition map_values (input_data valid_data : DataFrame) : checked DataFrame :=
  if decide (name_column ∈ df_columns valid_data) then
    if decide (can_column ∈ df_columns valid_data) then
      let can_dict_map := to_dict name_column can_column valid_data in
      if decide (time_column ∈ df_columns valid_data) then
        let time_map := to_dict name_column time_column valid_data in
        if decide (name_column ∈ df_columns input_data) then
          let input_data :=
            set_column can_column
              (map_dict can_dict_map <$> (cell name_column <$> df_rows input_data))
              input_data in
          Ok (set_column time_column
                (map_dict time_map <$> (cell name_column <$> df_rows input_data))
                input_data)
        else Failed (NoColumn name_column)
      else Failed (NoColumn time_column)
    else Failed (NoColumn can_column)
  else Failed (NoColumn name_column).

(** The first row of a frame with the cell [k] under [label]. *)
Definition first_row (label : string) (k : option value)
    (rows : list (gmap string (option value))) : option (gmap string (option value)) :=
  List.find (fun row => bool_decide (cell label row = k)) rows.

(** The cell under [column] of the first row of the check list for the
    field [k]; NA when there is no such row. *)
Definition first_value (column : string) (k : option value)
    (rows : list (gmap string (option value))) : option value :=
  first_row name_column k rows ≫= cell column.

(** *** The schema of the database ([fetch_measurements_and_fields])

    The points of a schema answer are dictionaries of strings.  The
    queries sent so far are threaded through; a client may answer by the
    number of queries it has seen. *)

Inductive SchemaQuery :=
| ShowMeasurements
| ShowFieldKeys (measurement_name : string).

Inductive SchemaResponse :=
| SchemaPoints (pts : list (list (string * string)))
| SchemaFailure.

Definition SchemaClient := nat -> SchemaQuery -> SchemaResponse.

(** [list(client.query(q).get_points())] *)
Definition schema_query (client : SchemaClient) (q : SchemaQuery)
    (sent : list SchemaQuery)
    : outcome (list (list (string * string))) * list SchemaQuery :=
  match client (length sent) q with
  | SchemaPoints pts => (Returns pts, sent ++ [q])
  | SchemaFailure => (Raises InfluxError, sent ++ [q])
  end.

(** [[field['fieldKey'] for field in fields]] *)
Fixpoint field_keys (fields : list (list (string * string))) : outcome (list string) :=
  match fields with
  | [] => Returns []
  | field :: rest =>
      match dict_get "fieldKey" field with
      | None => Raises (KeyError "fieldKey")
      | Some key =>
          match field_keys rest with
          | Returns keys => Returns (key :: keys)
          | other => other
          end
      end
  end.

(** [for measurement in measurements: ...] *)
Fixpoint fetch_loop (client : SchemaClient) (measurements : list (list (string * string)))
    (measurements_fields : list (string * list string)) (sent : list SchemaQuery)
    : outcome (list (string * list string)) * list SchemaQuery :=
  match measurements with
  | [] => (Returns measurements_fields, sent)
  | measurement :: rest =>
      match dict_get "name" measurement with
      | None => (Raises (KeyError "name"), sent)
      | Some measurement_name =>
          match schema_query client (ShowFieldKeys measurement_name) sent with
          | (Returns fields, sent') =>
              match field_keys fields with
              | Returns field_names =>
                  fetch_loop client rest
                    (dict_set measurement_name field_names measurements_fields) sent'
              | Raises e => (Raises e, sent')
              | Diverges => (Diverges, sent')
              end
          | (Raises e, sent') => (Raises e, sent')
          | (Diverges, sent') => (Diverges, sent')
          end
      end
  end.

Definition fetch_measurements_and_fields (client : SchemaClient) (sent : list SchemaQuery)
    : outcome (list (string * list string)) * list SchemaQuery :=
  match schema_query client ShowMeasurements sent with
  | (Returns measurements, sent') => fetch_loop client measurements [] sent'
  | (Raises e, sent') => (Raises e, sent')
  | (Diverges, sent') => (Diverges, sent')
  end.

(** A database with the measurements and field keys of [schema]: it lists
    the measurements by name and the field keys of a measurement with
    their types, and has no field key for a measurement it does not
    know. *)
Definition schema_client (schema : list (string * list string)) : SchemaClient :=
  fun _ q =>
    match q with
    | ShowMeasurements => SchemaPoints ((fun mf => [("name", mf.1)]) <$> schema)
    | ShowFieldKeys measurement_name =>
        SchemaPoints ((fun key => [("fieldKey", key); ("fieldType", "float")])
                        <$> default [] (dict_get measurement_name schema))
    end.

(** * Properties *)

(** ** The window schedule *)

Lemma window_count_done t e w :
  0 < w -> e <= t -> window_count t e w = O.
Proof.
  intros Hw Hle. unfold window_count.
  assert ((e - t + w - 1) / w <= 0) as Hq.
  { assert ((e - t + w - 1) / w < 1); [|lia].
    apply Z.div_lt_upper_bound; lia. }
  lia.
Qed.

Lemma window_count_step t e w :
  0 < w -> t < e -> window_count t e w = S (window_count (t + w) e w).
Proof.
  intros Hw Hlt. unfold window_count.
  replace (e - t + w - 1) with ((e - (t + w) + w - 1) + 1 * w) by lia.
  rewrite Z.div_add by lia.
  assert (0 <= (e - (t + w) + w - 1) / w) by (apply Z.div_pos; lia).
  lia.
Qed.

Lemma window_count_bounds s e w :
  0 < w -> s < e ->
  (Z.of_nat (window_count s e w) - 1) * w < e - s <= Z.of_nat (window_count s e w) * w.
Proof.
  intros Hw Hlt. unfold window_count.
  assert (0 <= (e - s + w - 1) / w) as Hq by (apply Z.div_pos; lia).
  rewrite Z2Nat.id by exact Hq.
  pose proof (Z.div_mod (e - s + w - 1) w ltac:(lia)) as Hdm.
  pose proof (Z.mod_pos_bound (e - s + w - 1) w Hw) as Hmod.
  nia.
Qed.

Lemma window_count_exact s e w :
  0 < w -> s < e ->
  (Z.of_nat (window_count s e w) * w = e - s <-> (e - s) mod w = 0).
Proof.
  intros Hw Hlt. pose proof (window_count_bounds s e w Hw Hlt) as Hb. split.
  - intros Heq. rewrite <- Heq. apply Z.mod_mul. lia.
  - intros Hmod. apply Z.mod_divide in Hmod; [|lia]. destruct Hmod as [q Hq].
    rewrite Hq in *. assert (q = Z.of_nat (window_count s e w)) by nia. lia.
Qed.

Lemma length_windows_from n t w : length (windows_from n t w) = n.
Proof. revert t. induction n as [|n IH]; intros t; simpl; [done|]. by rewrite IH. Qed.

Lemma windows_from_lookup n t w (i : nat) :
  (i < n)%nat ->
  windows_from n t w !! i = Some (t + Z.of_nat i * w, t + (Z.of_nat i + 1) * w).
Proof.
  revert t i. induction n as [|n IH]; intros t i Hi; [lia|].
  destruct i as [|i]; simpl.
  - do 2 f_equal; lia.
  - rewrite IH by lia. do 2 f_equal; lia.
Qed.

Lemma windows_from_lookup_inv n t w (i : nat) a :
  windows_from n t w !! i = Some a ->
  (i < n)%nat /\ a = (t + Z.of_nat i * w, t + (Z.of_nat i + 1) * w).
Proof.
  intros Hl. assert (i < n)%nat as Hi.
  { apply lookup_lt_Some in Hl. by rewrite length_windows_from in Hl. }
  split; [done|]. rewrite windows_from_lookup in Hl by done. congruence.
Qed.

Lemma total_duration_windows_from n t w :
  total_duration (windows_from n t w) = Z.of_nat n * w.
Proof.
  revert t. induction n as [|n IH]; intros t; [done|].
  change (total_duration (windows_from (S n) t w))
    with (duration (t, t + w) + total_duration (windows_from n (t + w) w)).
  rewrite IH. unfold duration. simpl. lia.
Qed.

Lemma schedule_loop_windows e w :
  0 < w ->
  forall fuel t, (window_count t e w <= fuel)%nat ->
  schedule_loop fuel t e w = Some (windows_from (window_count t e w) t w).
Proof.
  intros Hw. induction fuel as [|fuel IH]; intros t Hfuel.
  - simpl. destruct (Z.ltb_spec t e) as [Hlt|Hge].
    + rewrite window_count_step in Hfuel by done. lia.
    + by rewrite window_count_done.
  - simpl. destruct (Z.ltb_spec t e) as [Hlt|Hge].
    + rewrite window_count_step in * by done.
      rewrite IH by lia. done.
    + by rewrite window_count_done.
Qed.

Lemma schedule_windows s e w :
  0 < w -> schedule s e w = Some (windows_from (window_count s e w) s w).
Proof. intros Hw. unfold schedule. by apply schedule_loop_windows. Qed.

Lemma windows_from_contiguous n t w : contiguous (windows_from n t w).
Proof.
  intros i a b Ha Hb.
  apply windows_from_lookup_inv in Ha as [_ ->].
  apply windows_from_lookup_inv in Hb as [_ ->]. simpl. lia.
Qed.

Lemma windows_from_non_overlapping n t w :
  0 < w -> non_overlapping (windows_from n t w).
Proof.
  intros Hw. split.
  - intros a Ha. apply list_elem_of_lookup in Ha as [i Hi].
    apply windows_from_lookup_inv in Hi as [_ ->]. simpl. lia.
  - intros i j a b Hij Ha Hb.
    apply windows_from_lookup_inv in Ha as [_ ->].
    apply windows_from_lookup_inv in Hb as [_ ->]. simpl. nia.
Qed.

(** ** The loop of [get_frequency] *)

Lemma gap_seconds_nil threshold : gap_seconds threshold [] = 0.
Proof. reflexivity. Qed.

Lemma frames_of_cons b bs :
  frames_of (b :: bs) =
  match b with
  | [] => frames_of bs
  | _ => frame_of b :: frames_of bs
  end.
Proof.
  unfold frames_of. rewrite filter_cons.
  destruct b; case_decide; try done.
Qed.

Lemma gap_total_cons threshold b bs :
  gap_total threshold (b :: bs) =
  Timedelta_seconds (gap_seconds threshold (epoch_of <$> b)) + gap_total threshold bs.
Proof. reflexivity. Qed.

Section EngineFacts.

Variable cfg : Config.
Variable client : Client.
Variables vehicle_id measurement : string.
Variable final_end_time : Z.
Variable batch_size : Z.

Local Notation "'body'" := (loop_body cfg client vehicle_id measurement batch_size).
Local Notation "'iterate'" := (iterate_body cfg client vehicle_id measurement batch_size).
Local Notation "'while'" :=
  (while_windows cfg client vehicle_id measurement final_end_time batch_size).
Local Notation "'wquery'" := (window_query cfg vehicle_id measurement batch_size).
Local Notation "'wqueries'" := (window_queries cfg vehicle_id measurement batch_size).
Local Notation "'wbatches'" := (batches cfg client vehicle_id measurement batch_size).
Local Notation "'next_st'" := (next_state cfg).

Lemma loop_body_answered st w0 pts :
  client (length (issued w0)) (wquery (current_time st)) = Points pts ->
  body st w0 = (Returns (next_st st pts), sent w0 [wquery (current_time st)]).
Proof.
  intros Hans. unfold loop_body, bind, client_query, window_query in *.
  rewrite Hans. unfold next_state, sent. destruct pts as [|p pts].
  - simpl. unfold ret. do 2 f_equal.
    rewrite app_nil_r. unfold Timedelta_seconds. simpl.
    rewrite gap_seconds_nil. destruct st; simpl; f_equal; lia.
  - reflexivity.
Qed.

Lemma loop_body_failed st w0 :
  client (length (issued w0)) (wquery (current_time st)) = QueryError ->
  body st w0 = (Raises InfluxError, sent w0 [wquery (current_time st)]).
Proof.
  intros Hans. unfold loop_body, bind, client_query, window_query in *.
  by rewrite Hans.
Qed.

Lemma loop_body_cases st w0 :
  body st w0 = (Raises InfluxError, sent w0 [wquery (current_time st)]) \/
  exists pts,
    client (length (issued w0)) (wquery (current_time st)) = Points pts /\
    body st w0 = (Returns (next_st st pts), sent w0 [wquery (current_time st)]).
Proof.
  destruct (client (length (issued w0)) (wquery (current_time st))) as [|pts] eqn:Hans.
  - left. by apply loop_body_failed.
  - right. exists pts. split; [done|]. by apply loop_body_answered.
Qed.

Lemma iterate_body_S n st w0 :
  iterate (S n) st w0 =
  match body st w0 with
  | (Returns st', w') => iterate n st' w'
  | (Raises e, w') => (Raises e, w')
  | (Diverges, w') => (Diverges, w')
  end.
Proof. reflexivity. Qed.

(** While the test of the loop passes, [while] runs the body as many times
    as there are windows left. *)
Lemma while_windows_iterate :
  0 < window_size cfg ->
  forall fuel st w0,
    (window_count (current_time st) final_end_time (window_size cfg) <= fuel)%nat ->
    while fuel st w0 =
    iterate (window_count (current_time st) final_end_time (window_size cfg)) st w0.
Proof.
  intros Hw. induction fuel as [|fuel IH]; intros st w0 Hfuel.
  - simpl. destruct (Z.ltb_spec (current_time st) final_end_time) as [Hlt|Hge].
    + rewrite window_count_step in Hfuel by done. lia.
    + by rewrite window_count_done.
  - simpl. destruct (Z.ltb_spec (current_time st) final_end_time) as [Hlt|Hge].
    + rewrite window_count_step in * by done. rewrite iterate_body_S.
      unfold bind. destruct (loop_body_cases st w0) as [Hf|[pts [_ Hr]]].
      * by rewrite Hf.
      * rewrite Hr. apply IH. simpl. lia.
    + by rewrite window_count_done.
Qed.

(** [n] answered iterations. *)
Lemma iterate_body_answered n :
  forall st w0,
    (forall i : nat, (i < n)%nat ->
       exists pts,
         client (length (issued w0) + i)%nat
           (wquery (current_time st + Z.of_nat i * window_size cfg)) = Points pts) ->
    iterate n st w0 =
    (Returns
       {| current_time := current_time st + Z.of_nat n * window_size cfg;
          total_gap_duration :=
            total_gap_duration st
            + gap_total (gap_threshold cfg)
                (wbatches n (length (issued w0)) (current_time st));
          all_data :=
            all_data st ++ frames_of (wbatches n (length (issued w0)) (current_time st)) |},
     sent w0 (wqueries n (current_time st))).
Proof.
  induction n as [|n IH]; intros st w0 Hans.
  - simpl. unfold ret, sent, gap_total. simpl. rewrite !app_nil_r.
    destruct st, w0; simpl. f_equal. f_equal. f_equal; lia.
  - rewrite iterate_body_S.
    destruct (Hans O ltac:(lia)) as [pts Hpts].
    rewrite Nat.add_0_r, Z.mul_0_l, Z.add_0_r in Hpts.
    rewrite (loop_body_answered _ _ _ Hpts).
    rewrite IH.
    + simpl. rewrite Hpts. simpl rows_of.
      rewrite gap_total_cons, frames_of_cons.
      unfold sent. simpl. rewrite length_app. simpl.
      rewrite Nat.add_1_r, <- !app_assoc. simpl.
      f_equal. f_equal. f_equal; [lia|lia|]. f_equal.
      destruct pts; reflexivity.
    + intros i Hi. destruct (Hans (S i) ltac:(lia)) as [pts' Hpts'].
      exists pts'. simpl. rewrite length_app. simpl.
      rewrite <- Hpts'. f_equal; [lia|]. f_equal. lia.
Qed.

(** The first unanswered query ends the iteration with its exception. *)
Lemma iterate_body_failed (j : nat) :
  forall n st w0,
    (j < n)%nat ->
    (forall i : nat, (i < j)%nat ->
       exists pts,
         client (length (issued w0) + i)%nat
           (wquery (current_time st + Z.of_nat i * window_size cfg)) = Points pts) ->
    client (length (issued w0) + j)%nat
      (wquery (current_time st + Z.of_nat j * window_size cfg)) = QueryError ->
    iterate n st w0 = (Raises InfluxError, sent w0 (wqueries (S j) (current_time st))).
Proof.
  induction j as [|j IH]; intros n st w0 Hjn Hans Hfail.
  - destruct n as [|n]; [lia|]. rewrite iterate_body_S.
    rewrite Nat.add_0_r, Z.mul_0_l, Z.add_0_r in Hfail.
    by rewrite (loop_body_failed _ _ Hfail).
  - destruct n as [|n]; [lia|]. rewrite iterate_body_S.
    destruct (Hans O ltac:(lia)) as [pts Hpts].
    rewrite Nat.add_0_r, Z.mul_0_l, Z.add_0_r in Hpts.
    rewrite (loop_body_answered _ _ _ Hpts).
    rewrite (IH n) ; [| lia | |].
    + unfold sent. simpl. by rewrite <- !app_assoc.
    + intros i Hi. destruct (Hans (S i) ltac:(lia)) as [pts' Hpts'].
      exists pts'. simpl. rewrite length_app. simpl.
      rewrite <- Hpts'. f_equal; [lia|]. f_equal. lia.
    + simpl. rewrite length_app. simpl.
      rewrite <- Hfail. f_equal; [lia|]. f_equal. lia.
Qed.

End EngineFacts.

(** ** [get_frequency] as a whole *)

Lemma set_count_world can_id field n fd w :
  (set_count can_id field n fd w).2 = w.
Proof. unfold set_count. by destruct (fd !! can_id). Qed.

Lemma count_fields_world df can_id fields :
  forall fd w, (count_fields df can_id fields fd w).2 = w.
Proof.
  induction fields as [|f fields IH]; intros fd w; [done|].
  simpl. unfold bind, df_getitem.
  destruct (decide (f ∈ df_columns df)); simpl; [|done].
  unfold set_count. destruct (fd !! can_id); simpl; [apply IH|done].
Qed.

Lemma count_channels_world df items :
  forall fd w, (count_channels df items fd w).2 = w.
Proof.
  induction items as [|[c fs] items IH]; intros fd w; [done|].
  simpl. unfold bind.
  pose proof (count_fields_world df c fs fd w) as Hw.
  destruct (count_fields df c fs fd w) as [[fd'| |] w']; simpl in Hw; subst w';
    [apply IH|done|done].
Qed.

Lemma window_queries_windows cfg vehicle_id measurement batch_size n t :
  window_queries cfg vehicle_id measurement batch_size n t =
  (fun win => SelectAll measurement vehicle_id win.1 win.2 batch_size)
    <$> windows_from n t (window_size cfg).
Proof.
  revert t. induction n as [|n IH]; intros t; [done|].
  simpl. by rewrite IH.
Qed.

(** The run of [get_frequency] when the loop's queries are answered. *)
Lemma get_frequency_answered cfg client vehicle_id t_start t_end measurement
    can_id_fields batch_size :
  0 < window_size cfg ->
  let n := window_count t_start t_end (window_size cfg) in
  let bs := batches cfg client vehicle_id measurement batch_size n O t_start in
  let w1 := sent world0 (window_queries cfg vehicle_id measurement batch_size n t_start) in
  let effective_time := (t_end - t_start) - gap_total (gap_threshold cfg) bs in
  (forall i : nat, (i < n)%nat ->
     exists pts,
       client i (window_query cfg vehicle_id measurement batch_size
                   (t_start + Z.of_nat i * window_size cfg)) = Points pts) ->
  get_frequency_with cfg client vehicle_id t_start t_end measurement
    can_id_fields batch_size world0 =
  match frames_of bs with
  | [] => (Returns (init_frequency can_id_fields, effective_time), w1)
  | _ =>
      match count_channels (concat_frames (frames_of bs)) can_id_fields
              (init_frequency can_id_fields) w1 with
      | (Returns tbl, w2) => (Returns (tbl, effective_time), w2)
      | (Raises e, w2) => (Raises e, w2)
      | (Diverges, w2) => (Diverges, w2)
      end
  end.
Proof.
  intros Hw n bs w1 eff Hans. unfold get_frequency_with, bind.
  rewrite while_windows_iterate by (simpl; done || lia).
  simpl current_time. fold n.
  rewrite iterate_body_answered by (simpl; exact Hans).
  simpl. fold bs. fold w1. fold eff.
  destruct (frames_of bs); reflexivity.
Qed.

(** ** C1: the window schedule *)

(** C1, amended.  For a range with [t_start < t_end] and a positive window
    length, the windows the loop of [get_frequency] queries are contiguous
    and non-overlapping, start at the range start and all have the nominal
    length: the last one is never shortened.  Its end is the first
    multiple of the window length at or after the range end, the
    durations add up to that end minus the range start, and the range is
    covered exactly (last end equal to the range end) precisely when the
    window length divides the range length. *)
Theorem schedule_covers_range cfg client vehicle_id measurement batch_size
    t_start t_end can_id_fields :
  t_start < t_end ->
  0 < window_size cfg ->
  (forall k q, exists pts, client k q = Points pts) ->
  exists ws last_end,
    schedule t_start t_end (window_size cfg) = Some ws /\
    issued (get_frequency_with cfg client vehicle_id t_start t_end measurement
              can_id_fields batch_size world0).2 =
      (fun win => SelectAll measurement vehicle_id win.1 win.2 batch_size) <$> ws /\
    contiguous ws /\
    non_overlapping ws /\
    (forall win, win ∈ ws -> duration win = window_size cfg) /\
    fst <$> head ws = Some t_start /\
    snd <$> last ws = Some last_end /\
    t_end <= last_end < t_end + window_size cfg /\
    total_duration ws = last_end - t_start /\
    (last_end = t_end <-> (t_end - t_start) mod window_size cfg = 0).
Proof.
  intros Hlt Hw Hans.
  set (w := window_size cfg) in *.
  set (n := window_count t_start t_end w).
  pose proof (window_count_bounds t_start t_end w Hw Hlt) as Hb. fold n in Hb.
  pose proof (window_count_exact t_start t_end w Hw Hlt) as Hex. fold n in Hex.
  assert (0 < n)%nat as Hn by (destruct n; [simpl in Hb; lia | lia]).
  exists (windows_from n t_start w), (t_start + Z.of_nat n * w).
  split; [by apply schedule_windows|].
  split.
  { unfold n, w. rewrite <- window_queries_windows.
    rewrite get_frequency_answered by (done || intros; apply Hans).
    destruct (frames_of _); [done|].
    match goal with |- context [count_channels ?df ?it ?fd ?w0] =>
      pose proof (count_channels_world df it fd w0) as Hcw;
      destruct (count_channels df it fd w0) as [[?| |] ?] end;
      simpl in Hcw; by subst. }
  split; [apply windows_from_contiguous|].
  split; [by apply windows_from_non_overlapping|].
  split.
  { intros win Hin. apply list_elem_of_lookup in Hin as [i Hi].
    apply windows_from_lookup_inv in Hi as [_ ->]. unfold duration. simpl. lia. }
  split.
  { rewrite head_lookup, windows_from_lookup by done. simpl. f_equal. lia. }
  split.
  { rewrite last_lookup, length_windows_from, windows_from_lookup by lia.
    replace (Z.of_nat (Nat.pred n) + 1) with (Z.of_nat n) by lia. done. }
  split; [nia|].
  split; [rewrite total_duration_windows_from; lia|].
  rewrite <- Hex. lia.
Qed.

(** A one-hour range is walked in two windows, and is covered exactly. *)
Lemma schedule_covers_range_witness :
  0 < 3600 * ns_per_s /\
  exists ws,
    schedule 0 (3600 * ns_per_s) (window_size source_config) = Some ws /\
    snd <$> last ws = Some (3600 * ns_per_s) /\
    total_duration ws = 3600 * ns_per_s - 0.
Proof.
  split; [reflexivity|].
  destruct (schedule_covers_range source_config (store_client (fun _ _ => []))
              "V1" "m" 100000 0 (3600 * ns_per_s) [])
    as (ws & last_end & Hs & _ & _ & _ & _ & _ & Hlast & _ & Htot & Hiff).
  - reflexivity.
  - reflexivity.
  - intros k q. eexists. reflexivity.
  - assert (last_end = 3600 * ns_per_s) as -> by (apply Hiff; reflexivity).
    exists ws. split; [exact Hs|]. split; [exact Hlast|exact Htot].
Defined.

(** C1 as stated fails: a range of ten seconds is walked in one window of
    thirty minutes, so the last window ends 1790 seconds after the range
    and the durations add up to 1800 seconds, not 10. *)
Lemma schedule_overshoots_range :
  schedule 0 (10 * ns_per_s) (window_size source_config)
    = Some [(0, 1800 * ns_per_s)] /\
  issued (get_frequency (store_client (fun _ _ => [])) "V1" 0 (10 * ns_per_s)
            "m" [] 100000 world0).2
    = [SelectAll "m" "V1" 0 (1800 * ns_per_s) 100000] /\
  snd <$> last [(0, 1800 * ns_per_s)] <> Some (10 * ns_per_s) /\
  total_duration [(0, 1800 * ns_per_s)] <> 10 * ns_per_s - 0 /\
  ~ exact_cover 0 (10 * ns_per_s) [(0, 1800 * ns_per_s)].
Proof.
  split; [reflexivity|]. split; [reflexivity|].
  split; [discriminate|]. split; [discriminate|].
  intros (_ & _ & _ & Hlast & _). discriminate Hlast.
Qed.

(** ** The gap detector *)

Lemma diff_from_deltas x xs : diff_from x xs = Some <$> deltas (x :: xs).
Proof.
  revert x. induction xs as [|y xs IH]; intros x; [done|].
  simpl. by rewrite IH.
Qed.

Lemma diff_deltas x xs : diff (x :: xs) = None :: (Some <$> deltas (x :: xs)).
Proof. simpl. by rewrite diff_from_deltas. Qed.

Lemma length_diff xs : length (diff xs) = length xs.
Proof.
  destruct xs as [|x xs]; [done|]. simpl. f_equal.
  revert x. induction xs as [|y xs IH]; intros x; [done|]. simpl. by rewrite IH.
Qed.

Lemma filter_exceeds_Some threshold (ds : list Z) :
  filter (fun d => exceeds threshold d) (Some <$> ds)
  = Some <$> filter (fun d => threshold < d) ds.
Proof.
  induction ds as [|d ds IH]; [done|].
  rewrite fmap_cons, !filter_cons, IH. simpl.
  destruct (Z.ltb_spec threshold d); repeat case_decide; try done; try lia.
Qed.

(** The rows flagged as gaps are exactly the successive differences of
    [epoch] that are strictly above the threshold. *)
Lemma gaps_of_deltas threshold epoch :
  gaps_of threshold epoch = Some <$> filter (fun d => threshold < d) (deltas epoch).
Proof.
  unfold gaps_of. destruct epoch as [|x xs]; [done|].
  rewrite diff_deltas, filter_cons. simpl exceeds.
  rewrite decide_False by (intros []). apply filter_exceeds_Some.
Qed.

Lemma series_sum_Some (ds : list Z) : series_sum (Some <$> ds) = sum_list ds.
Proof.
  induction ds as [|d ds IH]; [done|]. rewrite fmap_cons.
  change (series_sum (Some d :: (Some <$> ds))) with (d + series_sum (Some <$> ds)).
  by rewrite IH.
Qed.

Lemma sum_list_cons x xs : sum_list (x :: xs) = x + sum_list xs.
Proof. reflexivity. Qed.

Lemma sum_list_app xs ys : sum_list (xs ++ ys) = sum_list xs + sum_list ys.
Proof.
  induction xs as [|x xs IH]; [done|].
  rewrite <- app_comm_cons, !sum_list_cons, IH. lia.
Qed.

Lemma sum_list_sub_const threshold (ds : list Z) :
  sum_list ((fun d => d - threshold) <$> ds)
  = sum_list ds - threshold * Z.of_nat (length ds).
Proof.
  induction ds as [|d ds IH]; [simpl; lia|].
  rewrite fmap_cons, !sum_list_cons, IH. simpl length. lia.
Qed.

Lemma sum_excess_filter threshold (ds : list Z) :
  sum_list (excess threshold <$> ds)
  = sum_list ((fun d => d - threshold) <$> filter (fun d => threshold < d) ds).
Proof.
  induction ds as [|d ds IH]; [done|].
  rewrite filter_cons, fmap_cons, sum_list_cons, IH. unfold excess.
  destruct (Z.ltb_spec threshold d); case_decide; try lia.
  by rewrite fmap_cons, sum_list_cons.
Qed.

(** Each gap loses what it has above the threshold. *)
Lemma gap_seconds_excess threshold epoch :
  gap_seconds threshold epoch
  = sum_list ((fun d => d - threshold) <$> filter (fun d => threshold < d) (deltas epoch)).
Proof.
  unfold gap_seconds. rewrite gaps_of_deltas.
  destruct (filter (fun d => threshold < d) (deltas epoch)) as [|g gs] eqn:Hg; [done|].
  rewrite sum_list_sub_const. rewrite fmap_cons.
  rewrite <- fmap_cons, series_sum_Some, length_fmap. done.
Qed.

Lemma gap_seconds_sum_excess threshold epoch :
  gap_seconds threshold epoch = sum_list (excess threshold <$> deltas epoch).
Proof. by rewrite gap_seconds_excess, sum_excess_filter. Qed.

Lemma excess_nonneg threshold d : 0 <= excess threshold d.
Proof. unfold excess. destruct (Z.ltb_spec threshold d); lia. Qed.

Lemma gap_seconds_nonneg threshold epoch : 0 <= gap_seconds threshold epoch.
Proof.
  rewrite gap_seconds_sum_excess.
  induction (deltas epoch) as [|d ds IH]; [done|].
  rewrite fmap_cons, sum_list_cons.
  pose proof (excess_nonneg threshold d). lia.
Qed.

Lemma deltas_app (xs ys : list Z) x y :
  last xs = Some x -> head ys = Some y ->
  deltas (xs ++ ys) = deltas xs ++ (y - x) :: deltas ys.
Proof.
  revert x. induction xs as [|a xs IH]; intros x Hlast Hhead; [done|].
  destruct xs as [|b xs].
  - simpl in Hlast. injection Hlast as ->.
    destruct ys as [|c ys]; [done|]. simpl in Hhead. injection Hhead as ->. done.
  - change (deltas ((a :: b :: xs) ++ ys))
      with ((b - a) :: deltas ((b :: xs) ++ ys)).
    rewrite (IH x) by done. done.
Qed.

(** A pass over two batches put end to end sees what each batch shows on
    its own and, in addition, the interval between them. *)
Lemma gap_seconds_app threshold (b1 b2 : list Point) :
  gap_seconds threshold (epoch_of <$> (b1 ++ b2))
  = gap_seconds threshold (epoch_of <$> b1)
    + gap_seconds threshold (epoch_of <$> b2)
    + boundary_excess threshold b1 b2.
Proof.
  rewrite !gap_seconds_sum_excess. unfold boundary_excess.
  destruct (last b1) as [p|] eqn:Hl.
  - destruct (head b2) as [q|] eqn:Hh.
    + rewrite fmap_app.
      rewrite (deltas_app _ _ (epoch_of p) (epoch_of q)).
      * rewrite fmap_app, sum_list_app, fmap_cons, sum_list_cons. lia.
      * by rewrite fmap_last, Hl.
      * destruct b2; [done|]. simpl in *. congruence.
    + destruct b2; [|done]. rewrite app_nil_r. simpl. lia.
  - apply last_None in Hl. subst b1. simpl. lia.
Qed.

(** ** C3: what one batch adds to the accumulated gap duration *)

(** C3, amended.  For every batch and threshold, the gap detector works on
    the timestamps cut down to whole seconds ([epoch]): it flags exactly
    the successive differences of [epoch] that are strictly greater than
    the threshold, each flagged difference loses what it has above the
    threshold, and the sum of these losses is added to the accumulated gap
    duration; a batch with a single flagged difference [G] adds exactly
    [G - threshold] seconds. *)
Theorem gap_detector_whole_seconds cfg client vehicle_id measurement batch_size
    st w0 pts :
  client (length (issued w0))
    (window_query cfg vehicle_id measurement batch_size (current_time st)) = Points pts ->
  let threshold := gap_threshold cfg in
  let epoch := epoch_of <$> pts in
  let gaps := filter (fun d => threshold < d) (deltas epoch) in
  gaps_of threshold epoch = Some <$> gaps /\
  exists st' w',
    loop_body cfg client vehicle_id measurement batch_size st w0 = (Returns st', w') /\
    total_gap_duration st'
      = total_gap_duration st
        + Timedelta_seconds (sum_list ((fun d => d - threshold) <$> gaps)) /\
    (forall G, gaps = [G] ->
       total_gap_duration st' = total_gap_duration st + Timedelta_seconds (G - threshold)).
Proof.
  intros Hans threshold epoch gaps.
  split; [apply gaps_of_deltas|].
  eexists _, _. split; [by apply loop_body_answered|].
  simpl. fold threshold epoch. rewrite gap_seconds_excess. fold gaps.
  split; [done|].
  intros G ->. simpl. do 2 f_equal. unfold sum_list. simpl. lia.
Qed.

(** A batch with samples at seconds 0, 2 and 12: one gap of 10 seconds,
    6 seconds lost at the threshold of 4. *)
Lemma gap_detector_whole_seconds_witness :
  let pts := [ {| p_time := 0; p_cols := [] |};
               {| p_time := 2 * ns_per_s; p_cols := [] |};
               {| p_time := 12 * ns_per_s; p_cols := [] |} ] in
  exists st' w',
    loop_body source_config (fun _ _ => Points pts) "V1" "m" 100000
      (loop_start 0) world0 = (Returns st', w') /\
    total_gap_duration st' = 0 + Timedelta_seconds (10 - 4).
Proof.
  intros pts.
  destruct (gap_detector_whole_seconds source_config (fun _ _ => Points pts)
              "V1" "m" 100000 (loop_start 0) world0 pts eq_refl)
    as (_ & st' & w' & Hrun & _ & Hone).
  exists st', w'. split; [exact Hrun|]. apply Hone. reflexivity.
Defined.

(** C3 as stated fails below the second.  Two samples 4.8 seconds apart
    (0.1 s and 4.9 s) are more than the threshold of 4 seconds apart, yet
    no gap is flagged and nothing is added; two samples 4.2 seconds apart
    (0.9 s and 5.1 s) add a whole second, not 0.2 seconds. *)
Lemma gap_detector_truncates_timestamps :
  let early := [ {| p_time := 100000000; p_cols := [] |};
                 {| p_time := 4900000000; p_cols := [] |} ] in
  let late := [ {| p_time := 900000000; p_cols := [] |};
                {| p_time := 5100000000; p_cols := [] |} ] in
  contract_gap_duration 4 early = 800000000 /\
  total_gap_duration <$>
    (match loop_body source_config (fun _ _ => Points early) "V1" "m" 100000
             (loop_start 0) world0 with
     | (Returns st', _) => Some st'
     | _ => None
     end) = Some 0 /\
  gaps_of 4 (epoch_of <$> early) = [] /\
  contract_gap_duration 4 late = 200000000 /\
  total_gap_duration <$>
    (match loop_body source_config (fun _ _ => Points late) "V1" "m" 100000
             (loop_start 0) world0 with
     | (Returns st', _) => Some st'
     | _ => None
     end) = Some 1000000000.
Proof. repeat split; reflexivity. Qed.

(** ** C4: the reference point is lost at every window boundary *)

(** C4.  Over two consecutive windows answered with the batches [b1] and
    [b2], the accumulated gap duration grows by what each batch shows on
    its own.  Compared with one pass over the two batches put end to end,
    the interval between the last sample of [b1] and the first sample of
    [b2] is left out, whatever its length. *)
Theorem gap_detection_resets_per_window cfg client vehicle_id measurement batch_size
    st w0 b1 b2 :
  client (length (issued w0))
    (window_query cfg vehicle_id measurement batch_size (current_time st)) = Points b1 ->
  client (S (length (issued w0)))
    (window_query cfg vehicle_id measurement batch_size
       (current_time st + window_size cfg)) = Points b2 ->
  let threshold := gap_threshold cfg in
  exists st2 w2,
    iterate_body cfg client vehicle_id measurement batch_size 2 st w0
      = (Returns st2, w2) /\
    total_gap_duration st2
      = total_gap_duration st
        + Timedelta_seconds (gap_seconds threshold (epoch_of <$> b1))
        + Timedelta_seconds (gap_seconds threshold (epoch_of <$> b2)) /\
    total_gap_duration st2
      = total_gap_duration st
        + Timedelta_seconds
            (gap_seconds threshold (epoch_of <$> (b1 ++ b2))
             - boundary_excess threshold b1 b2).
Proof.
  intros H1 H2 threshold. eexists _, _. split.
  - rewrite iterate_body_S, (loop_body_answered _ _ _ _ _ _ _ _ H1).
    rewrite iterate_body_S, (loop_body_answered _ _ _ _ _ _ (sent w0 _) b2).
    + reflexivity.
    + simpl. rewrite length_app. simpl. rewrite Nat.add_1_r. exact H2.
  - simpl. fold threshold. split; [done|].
    rewrite gap_seconds_app. unfold Timedelta_seconds. lia.
Qed.

(** One sample at the start of the first window and one at the start of
    the second, thirty minutes later: the interval of 1800 seconds lies
    across the boundary and nothing is accumulated. *)
Lemma gap_detection_resets_per_window_witness :
  let b1 := [ {| p_time := 0; p_cols := [] |} ] in
  let b2 := [ {| p_time := 1800 * ns_per_s; p_cols := [] |} ] in
  let client : Client := fun k _ => match k with O => Points b1 | _ => Points b2 end in
  boundary_excess 4 b1 b2 = 1796 /\
  exists st2 w2,
    iterate_body source_config client "V1" "m" 100000 2 (loop_start 0) world0
      = (Returns st2, w2) /\
    total_gap_duration st2 = 0.
Proof.
  intros b1 b2 client. split; [reflexivity|].
  destruct (gap_detection_resets_per_window source_config client "V1" "m" 100000
              (loop_start 0) world0 b1 b2 eq_refl eq_refl)
    as (st2 & w2 & Hrun & Hsum & _).
  exists st2, w2. split; [exact Hrun|]. rewrite Hsum. reflexivity.
Defined.

(** ** C9: the accumulated gap duration never decreases *)

Lemma loop_body_gap_monotone cfg client vehicle_id measurement batch_size st w0 st' w' :
  loop_body cfg client vehicle_id measurement batch_size st w0 = (Returns st', w') ->
  total_gap_duration st <= total_gap_duration st'.
Proof.
  intros Hrun.
  destruct (loop_body_cases cfg client vehicle_id measurement batch_size st w0)
    as [Hf|[pts [_ Hr]]]; [congruence|].
  rewrite Hr in Hrun. injection Hrun as <- <-. simpl.
  pose proof (gap_seconds_nonneg (gap_threshold cfg) (epoch_of <$> pts)).
  unfold Timedelta_seconds, ns_per_s. lia.
Qed.

Lemma iterate_body_gap_monotone cfg client vehicle_id measurement batch_size n :
  forall st w0 st' w',
    iterate_body cfg client vehicle_id measurement batch_size n st w0 = (Returns st', w') ->
    total_gap_duration st <= total_gap_duration st'.
Proof.
  induction n as [|n IH]; intros st w0 st' w' Hrun.
  - injection Hrun as <- <-. lia.
  - rewrite iterate_body_S in Hrun.
    destruct (loop_body cfg client vehicle_id measurement batch_size st w0)
      as [[st1| |] w1] eqn:Hbody; try discriminate.
    apply loop_body_gap_monotone in Hbody. apply IH in Hrun. lia.
Qed.

Lemma while_windows_gap_monotone cfg client vehicle_id measurement t_end batch_size fuel :
  forall st w0 st' w',
    while_windows cfg client vehicle_id measurement t_end batch_size fuel st w0
      = (Returns st', w') ->
    total_gap_duration st <= total_gap_duration st'.
Proof.
  induction fuel as [|fuel IH]; intros st w0 st' w' Hrun; simpl in Hrun;
    destruct (current_time st <? t_end).
  - discriminate.
  - injection Hrun as <- <-. lia.
  - unfold bind in Hrun.
    destruct (loop_body cfg client vehicle_id measurement batch_size st w0)
      as [[st1| |] w1] eqn:Hbody; try discriminate.
    apply loop_body_gap_monotone in Hbody. apply IH in Hrun. lia.
  - injection Hrun as <- <-. lia.
Qed.

(** C9.  The accumulated gap duration starts at zero; after any number of
    iterations of the loop it is non-negative; one more iteration does not
    decrease it; it is non-negative when the loop ends; and every flagged
    gap is strictly above the threshold, so that what it contributes is
    positive. *)
Theorem accumulated_gap_nonneg_monotone cfg client vehicle_id measurement batch_size
    n t_start w0 st w1 :
  iterate_body cfg client vehicle_id measurement batch_size n (loop_start t_start) w0
    = (Returns st, w1) ->
  total_gap_duration (loop_start t_start) = 0 /\
  0 <= total_gap_duration st /\
  (forall st' w2,
     loop_body cfg client vehicle_id measurement batch_size st w1 = (Returns st', w2) ->
     total_gap_duration st <= total_gap_duration st') /\
  (forall fuel t_end st' w2,
     while_windows cfg client vehicle_id measurement t_end batch_size fuel
       (loop_start t_start) w0 = (Returns st', w2) ->
     0 <= total_gap_duration st') /\
  (forall epoch d, Some d ∈ gaps_of (gap_threshold cfg) epoch ->
     0 < d - gap_threshold cfg).
Proof.
  intros Hrun. split; [done|]. split.
  - apply iterate_body_gap_monotone in Hrun. simpl in Hrun. done.
  - split; [|split].
    + intros st' w2. apply loop_body_gap_monotone.
    + intros fuel t_end st' w2 Hwhile.
      apply while_windows_gap_monotone in Hwhile. simpl in Hwhile. done.
    + intros epoch d Hin. rewrite gaps_of_deltas in Hin.
      apply list_elem_of_fmap in Hin as (d' & [= ->] & Hin).
      apply list_elem_of_filter in Hin as [Hlt _]. lia.
Qed.

(** Two windows with a gap of ten seconds in the first. *)
Lemma accumulated_gap_nonneg_monotone_witness :
  let pts := [ {| p_time := 0; p_cols := [] |};
               {| p_time := 10 * ns_per_s; p_cols := [] |} ] in
  let client : Client := fun k _ => match k with O => Points pts | _ => Points [] end in
  exists st w1,
    iterate_body source_config client "V1" "m" 100000 2 (loop_start 0) world0
      = (Returns st, w1) /\
    0 <= total_gap_duration st.
Proof.
  intros pts client. eexists _, _. split; [reflexivity|].
  destruct (accumulated_gap_nonneg_monotone source_config client "V1" "m" 100000
              2 0 world0 _ _ eq_refl) as (_ & Hnonneg & _).
  exact Hnonneg.
Defined.

(** ** C5: the effective duration *)

(** C5.  When [get_frequency] returns, the effective duration is the
    range length minus the gap duration the loop has accumulated, as it
    is: when the accumulated duration exceeds the range length the result
    is negative. *)
Theorem effective_time_not_clamped cfg client vehicle_id t_start t_end measurement
    can_id_fields batch_size tbl effective_time w' :
  get_frequency_with cfg client vehicle_id t_start t_end measurement
    can_id_fields batch_size world0 = (Returns (tbl, effective_time), w') ->
  exists st w1,
    while_windows cfg client vehicle_id measurement t_end batch_size
      (window_count t_start t_end (window_size cfg)) (loop_start t_start) world0
      = (Returns st, w1) /\
    effective_time = (t_end - t_start) - total_gap_duration st /\
    (t_end - t_start < total_gap_duration st -> effective_time < 0).
Proof.
  unfold get_frequency_with, bind. intros Hrun.
  destruct (while_windows _ _ _ _ _ _ _ _ _) as [[st| |] w1]; try discriminate.
  exists st, w1. split; [done|].
  assert (effective_time = t_end - t_start - total_gap_duration st) as ->.
  { destruct (all_data st).
    - by injection Hrun as <- <- <-.
    - destruct (count_channels _ _ _ _) as [[?| |] ?]; try discriminate.
      by injection Hrun as <- <- <-. }
  split; [done|lia].
Qed.

(** A range of ten seconds whose only window holds samples at seconds 0
    and 1000: 996 seconds of gap are accumulated and the effective
    duration is minus 986 seconds. *)
Lemma effective_time_not_clamped_witness :
  let db : Store := fun _ _ =>
    [ {| p_time := 0; p_cols := [("temp", Some (VInt 1))] |};
      {| p_time := 1000 * ns_per_s; p_cols := [("temp", Some (VInt 2))] |} ] in
  exists st w1,
    while_windows source_config (store_client db) "V1" "m" (10 * ns_per_s) 100000
      (window_count 0 (10 * ns_per_s) (window_size source_config)) (loop_start 0) world0
      = (Returns st, w1) /\
    -986 * ns_per_s = (10 * ns_per_s - 0) - total_gap_duration st /\
    (10 * ns_per_s - 0 < total_gap_duration st -> -986 * ns_per_s < 0).
Proof.
  intros db.
  eapply (effective_time_not_clamped source_config (store_client db) "V1"
            0 (10 * ns_per_s) "m" [("c1", ["temp"])] 100000).
  vm_compute. reflexivity.
Defined.

(** ** The initial frequency table *)

Lemma zero_counts_fold_lookup (fields : list string) (m : gmap string Z) f :
  foldl (fun acc field => <[field := 0]> acc) m fields !! f
  = if decide (f ∈ fields) then Some 0 else m !! f.
Proof.
  revert m. induction fields as [|g fields IH]; intros m.
  - done.
  - cbn [foldl]. rewrite IH.
    destruct (decide (f ∈ fields)) as [H1|H1], (decide (f ∈ g :: fields)) as [H2|H2];
      try done.
    + exfalso. apply H2. by right.
    + apply elem_of_cons in H2 as [->|H2]; [apply lookup_insert_eq|done].
    + rewrite lookup_insert_ne; [done|]. intros ->. apply H2. by left.
Qed.

Lemma zero_counts_lookup fields f :
  zero_counts fields !! f = if decide (f ∈ fields) then Some 0 else None.
Proof. unfold zero_counts. by rewrite zero_counts_fold_lookup. Qed.

Lemma init_fold_lookup_notin (items : list (string * list string))
    (m : gmap string (gmap string Z)) c :
  c ∉ items.*1 ->
  foldl (fun acc item => <[item.1 := zero_counts item.2]> acc) m items !! c = m !! c.
Proof.
  revert m. induction items as [|[c' fs'] items IH]; intros m Hnin; [done|].
  simpl in *. apply not_elem_of_cons in Hnin as [Hne Hnin].
  rewrite IH by done. by rewrite lookup_insert_ne.
Qed.

Lemma init_fold_lookup_in (items : list (string * list string))
    (m : gmap string (gmap string Z)) c fs :
  NoDup items.*1 -> (c, fs) ∈ items ->
  foldl (fun acc item => <[item.1 := zero_counts item.2]> acc) m items !! c
  = Some (zero_counts fs).
Proof.
  revert m. induction items as [|[c' fs'] items IH]; intros m Hnd Hin.
  - by apply elem_of_nil in Hin.
  - simpl in *. apply NoDup_cons in Hnd as [Hnin Hnd].
    apply elem_of_cons in Hin as [[= <- <-]|Hin].
    + rewrite init_fold_lookup_notin by done. apply lookup_insert_eq.
    + by apply IH.
Qed.

Lemma init_fold_lookup_Some (items : list (string * list string))
    (m : gmap string (gmap string Z)) c counts :
  foldl (fun acc item => <[item.1 := zero_counts item.2]> acc) m items !! c = Some counts ->
  m !! c = Some counts \/ exists fs, (c, fs) ∈ items /\ counts = zero_counts fs.
Proof.
  revert m. induction items as [|[c' fs'] items IH]; intros m Hl; [by left|].
  simpl in Hl. apply IH in Hl as [Hl|(fs & Hin & ->)].
  - destruct (decide (c' = c)) as [->|Hne].
    + rewrite lookup_insert_eq in Hl. injection Hl as <-.
      right. exists fs'. split; [by left|done].
    + rewrite lookup_insert_ne in Hl by done. by left.
  - right. exists fs. split; [by right|done].
Qed.

(** Every count of the initial table is zero. *)
Lemma init_frequency_zero can_id_fields c f n :
  table_count (init_frequency can_id_fields) c f = Some n -> n = 0.
Proof.
  unfold table_count, init_frequency. intros Hl.
  destruct (foldl _ _ _ !! c) as [counts|] eqn:Hc; [|done]. simpl in Hl.
  apply init_fold_lookup_Some in Hc as [Hc|(fs & _ & ->)].
  - by rewrite lookup_empty in Hc.
  - rewrite zero_counts_lookup in Hl. case_decide; congruence.
Qed.

(** Every field of the channel map is in the initial table. *)
Lemma init_frequency_field can_id_fields c fs f :
  NoDup can_id_fields.*1 -> (c, fs) ∈ can_id_fields -> f ∈ fs ->
  table_count (init_frequency can_id_fields) c f = Some 0.
Proof.
  intros Hnd Hin Hf. unfold table_count, init_frequency.
  rewrite (init_fold_lookup_in _ _ c fs) by done. simpl.
  rewrite zero_counts_lookup. by rewrite decide_True.
Qed.

(** ** C6: a store without data *)

Lemma batches_silent cfg client vehicle_id measurement batch_size n :
  forall k t,
    (forall i : nat, (i < n)%nat ->
       client (k + i)%nat
         (window_query cfg vehicle_id measurement batch_size
            (t + Z.of_nat i * window_size cfg)) = Points []) ->
    frames_of (batches cfg client vehicle_id measurement batch_size n k t) = [] /\
    gap_total (gap_threshold cfg)
      (batches cfg client vehicle_id measurement batch_size n k t) = 0.
Proof.
  induction n as [|n IH]; intros k t Hsilent; [done|].
  cbn [batches].
  pose proof (Hsilent O ltac:(lia)) as H0.
  rewrite Nat.add_0_r, Z.mul_0_l, Z.add_0_r in H0. rewrite H0. simpl rows_of.
  destruct (IH (S k) (t + window_size cfg)) as [Hf Hg].
  { intros i Hi. rewrite <- (Hsilent (S i) ltac:(lia)). f_equal; [lia|]. f_equal. lia. }
  rewrite frames_of_cons, gap_total_cons, Hf, Hg. done.
Qed.

(** C6.  When the store answers every window of the range with no rows,
    [get_frequency] returns: every count of the table is 0, every field
    of the channel map is in it, and the effective duration is the full
    range length.  Only the answers to the window queries of the run
    count; what the store holds outside the range, or would answer to
    another query, does not.  The channel map is a dictionary: its keys
    are distinct. *)
Theorem no_data_full_coverage cfg client vehicle_id t_start t_end measurement
    can_id_fields batch_size :
  0 < window_size cfg ->
  NoDup can_id_fields.*1 ->
  (forall i : nat, (i < window_count t_start t_end (window_size cfg))%nat ->
     client i (window_query cfg vehicle_id measurement batch_size
                 (t_start + Z.of_nat i * window_size cfg)) = Points []) ->
  exists tbl w',
    get_frequency_with cfg client vehicle_id t_start t_end measurement
      can_id_fields batch_size world0 = (Returns (tbl, t_end - t_start), w') /\
    (forall c f n, table_count tbl c f = Some n -> n = 0) /\
    (forall c fs f, (c, fs) ∈ can_id_fields -> f ∈ fs -> table_count tbl c f = Some 0).
Proof.
  intros Hw Hnd Hsilent.
  exists (init_frequency can_id_fields). eexists. split.
  - rewrite get_frequency_answered by (done || intros; eexists; by apply Hsilent).
    destruct (batches_silent cfg client vehicle_id measurement batch_size
                (window_count t_start t_end (window_size cfg)) O t_start)
      as [-> ->]; [exact Hsilent|].
    do 3 f_equal. lia.
  - split.
    + apply init_frequency_zero.
    + intros c fs f. by apply init_frequency_field.
Qed.

(** The source's configuration and two channels, over a store whose only
    row lies two hours after the range: both windows of the range come
    back empty. *)
Lemma no_data_full_coverage_witness :
  let db : Store := fun _ _ =>
    [ {| p_time := 10800 * ns_per_s; p_cols := [("BMS_BatteryCurrent", Some (VInt 1))] |} ] in
  exists tbl w',
    get_frequency (store_client db) "V1" 0 (3600 * ns_per_s) "m"
      [("181", ["BatteryDischargeLimit"; "BatteryChargeLimit"]); ("182", ["BMS_BatteryCurrent"])]
      100000 world0 = (Returns (tbl, 3600 * ns_per_s - 0), w') /\
    (forall c f n, table_count tbl c f = Some n -> n = 0) /\
    (forall c fs f,
       (c, fs) ∈ [("181", ["BatteryDischargeLimit"; "BatteryChargeLimit"]);
                  ("182", ["BMS_BatteryCurrent"])] ->
       f ∈ fs -> table_count tbl c f = Some 0).
Proof.
  intros db.
  apply (no_data_full_coverage source_config).
  - reflexivity.
  - compute_done.
  - intros i Hi.
    assert (i = 0 \/ i = 1)%nat as [-> | ->]
      by (change (i < 2)%nat in Hi; lia); reflexivity.
Defined.

(** ** The columns of the frames *)

Lemma elem_of_point_keys f p :
  f ∈ point_keys p <-> f = "time" \/ f ∈ (p_cols p).*1.
Proof. unfold point_keys. set_solver. Qed.

Lemma elem_of_frame_columns f pts :
  f ∈ df_columns (frame_of pts) <->
  f = "time_diff" \/ f = "epoch" \/ exists p, p ∈ pts /\ f ∈ point_keys p.
Proof.
  unfold frame_of. simpl. rewrite !elem_of_union, !elem_of_singleton.
  rewrite elem_of_union_list. split.
  - intros [?|[?|(X & HX & Hf)]]; [by left|by right; left|].
    apply list_elem_of_fmap in HX as (p & -> & Hp). right. right. by exists p.
  - intros [?|[?|(p & Hp & Hf)]]; [by left|by right; left|].
    right. right. exists (point_keys p). split; [|done].
    apply list_elem_of_fmap. by exists p.
Qed.

Lemma elem_of_concat_columns f dfs :
  f ∈ df_columns (concat_frames dfs) <-> exists df, df ∈ dfs /\ f ∈ df_columns df.
Proof.
  unfold concat_frames. simpl. rewrite elem_of_union_list. split.
  - intros (X & HX & Hf). apply list_elem_of_fmap in HX as (df & -> & Hdf). by exists df.
  - intros (df & Hdf & Hf). exists (df_columns df). split; [|done].
    apply list_elem_of_fmap. by exists df.
Qed.

Lemma elem_of_frames_of df bs :
  df ∈ frames_of bs <-> exists b, b ∈ bs /\ b <> [] /\ df = frame_of b.
Proof.
  unfold frames_of. rewrite list_elem_of_fmap. split.
  - intros (b & -> & Hb). apply list_elem_of_filter in Hb as [Hne Hb]. by exists b.
  - intros (b & Hb & Hne & ->). exists b. split; [done|].
    by apply list_elem_of_filter.
Qed.

Lemma batches_lookup cfg client vehicle_id measurement batch_size n :
  forall k t (i : nat), (i < n)%nat ->
    batches cfg client vehicle_id measurement batch_size n k t !! i
    = Some (rows_of (client (k + i)%nat
                       (window_query cfg vehicle_id measurement batch_size
                          (t + Z.of_nat i * window_size cfg)))).
Proof.
  induction n as [|n IH]; intros k t i Hi; [lia|].
  destruct i as [|i].
  - replace (t + Z.of_nat 0 * window_size cfg) with t by lia.
    by rewrite Nat.add_0_r.
  - replace (t + Z.of_nat (S i) * window_size cfg)
      with (t + window_size cfg + Z.of_nat i * window_size cfg) by lia.
    replace (k + S i)%nat with (S k + i)%nat by lia.
    cbn [batches]. rewrite lookup_cons. by apply IH; lia.
Qed.

Lemma length_batches cfg client vehicle_id measurement batch_size n k t :
  length (batches cfg client vehicle_id measurement batch_size n k t) = n.
Proof. revert k t. induction n as [|n IH]; intros k t; simpl; [done|]. by rewrite IH. Qed.

Lemma elem_of_batches cfg client vehicle_id measurement batch_size n k t b :
  b ∈ batches cfg client vehicle_id measurement batch_size n k t ->
  exists (i : nat), (i < n)%nat /\
    b = rows_of (client (k + i)%nat
                   (window_query cfg vehicle_id measurement batch_size
                      (t + Z.of_nat i * window_size cfg))).
Proof.
  intros Hb. apply list_elem_of_lookup in Hb as [i Hi].
  assert (i < n)%nat as Hlt.
  { apply lookup_lt_Some in Hi. by rewrite length_batches in Hi. }
  rewrite batches_lookup in Hi by done. exists i. split; [done|]. congruence.
Qed.

(** ** The counting loops *)

Lemma table_count_set can_id field n (fd : gmap string (gmap string Z)) counts c f :
  fd !! can_id = Some counts ->
  table_count (<[can_id := <[field := n]> counts]> fd) c f
  = if decide (c = can_id /\ f = field) then Some n else table_count fd c f.
Proof.
  intros Hc. unfold table_count.
  destruct (decide (c = can_id)) as [->|Hne].
  - rewrite lookup_insert_eq, Hc. simpl.
    destruct (decide (f = field)) as [->|Hnf].
    + rewrite lookup_insert_eq. by rewrite decide_True.
    + rewrite lookup_insert_ne by done. rewrite decide_False; [done|]. by intros [_ ?].
  - rewrite lookup_insert_ne by done. rewrite decide_False; [done|]. by intros [? _].
Qed.

Lemma count_fields_present df can_id fields :
  forall (fd : gmap string (gmap string Z)) w,
    is_Some (fd !! can_id) ->
    Forall (fun f => f ∈ df_columns df) fields ->
    exists fd',
      count_fields df can_id fields fd w = (Returns fd', w) /\
      (forall c, is_Some (fd' !! c) <-> is_Some (fd !! c)) /\
      (forall c f, table_count fd' c f
                   = if decide (c = can_id /\ f ∈ fields)
                     then Some (column_count df f) else table_count fd c f).
Proof.
  induction fields as [|g fields IH]; intros fd w [counts Hc] Hall.
  - exists fd. split; [done|]. split; [done|]. intros c f.
    rewrite decide_False; [done|]. intros [_ Hin]. by apply elem_of_nil in Hin.
  - apply Forall_cons in Hall as [Hg Hall].
    cbn [count_fields]. unfold bind at 1. unfold df_getitem.
    rewrite decide_True by done. unfold ret at 1.
    unfold bind at 1. unfold set_count. rewrite Hc. unfold ret at 1.
    fold (column_count df g).
    destruct (IH (<[can_id := <[g := column_count df g]> counts]> fd) w) as (fd' & Hrun & Hdom & Htab).
    { rewrite lookup_insert_eq. by eexists. }
    { done. }
    exists fd'. split; [done|]. split.
    + intros c. rewrite Hdom. destruct (decide (c = can_id)) as [->|Hne].
      * rewrite lookup_insert_eq, Hc. split; by eexists.
      * by rewrite lookup_insert_ne.
    + intros c f. rewrite Htab. rewrite (table_count_set _ _ _ _ counts) by done.
      destruct (decide (c = can_id /\ f ∈ fields)) as [[-> Hin]|Hn1].
      * rewrite decide_True; [done|]. split; [done|by right].
      * destruct (decide (c = can_id /\ f = g)) as [[-> ->]|Hn2].
        -- rewrite decide_True; [done|]. split; [done|by left].
        -- rewrite decide_False; [done|]. intros [-> [->|Hin]%elem_of_cons]; tauto.
Qed.

Lemma count_fields_missing df can_id fields :
  forall (fd : gmap string (gmap string Z)) w,
    is_Some (fd !! can_id) ->
    Exists (fun f => f ∉ df_columns df) fields ->
    exists f',
      f' ∈ fields /\ (f' ∉ df_columns df) /\
      count_fields df can_id fields fd w = (Raises (KeyError f'), w).
Proof.
  induction fields as [|g fields IH]; intros fd w [counts Hc] Hex.
  - by apply Exists_nil in Hex.
  - cbn [count_fields]. unfold bind at 1. unfold df_getitem.
    destruct (decide (g ∈ df_columns df)) as [Hg|Hg].
    + unfold ret at 1. unfold bind at 1. unfold set_count. rewrite Hc. unfold ret at 1.
      apply Exists_cons in Hex as [Hex|Hex]; [done|].
      destruct (IH (<[can_id := <[g := series_count (cell g <$> df_rows df)]> counts]> fd) w)
        as (f' & Hin & Hnin & Hrun); [|done|].
      { rewrite lookup_insert_eq. by eexists. }
      exists f'. split; [by right|]. split; [done|]. exact Hrun.
    + exists g. split; [by left|]. split; [done|]. reflexivity.
Qed.

Lemma count_channels_present df items :
  forall (fd : gmap string (gmap string Z)) w,
    (forall c, c ∈ items.*1 -> is_Some (fd !! c)) ->
    (forall c fs f, (c, fs) ∈ items -> f ∈ fs -> f ∈ df_columns df) ->
    exists fd',
      count_channels df items fd w = (Returns fd', w) /\
      (forall c f, table_count fd' c f
                   = if decide ((c, f) ∈ field_pairs items)
                     then Some (column_count df f) else table_count fd c f).
Proof.
  induction items as [|[c0 fs0] items IH]; intros fd w Hdom Hall.
  - exists fd. split; [done|]. intros c f.
    rewrite decide_False; [done|]. unfold field_pairs. simpl. by intros ?%elem_of_nil.
  - cbn [count_channels]. unfold bind at 1.
    destruct (count_fields_present df c0 fs0 fd w) as (fd1 & Hrun1 & Hdom1 & Htab1).
    { apply Hdom. simpl. by left. }
    { apply Forall_forall. intros f Hf. apply (Hall c0 fs0); [by left|done]. }
    rewrite Hrun1.
    destruct (IH fd1 w) as (fd' & Hrun & Htab).
    { intros c Hc. apply Hdom1. apply Hdom. simpl. by right. }
    { intros c fs f Hin. apply (Hall c fs). by right. }
    exists fd'. split; [done|]. intros c f. rewrite Htab, Htab1.
    unfold field_pairs. cbn [mbind list_bind]. fold (field_pairs items).
    simpl fst. simpl snd.
    destruct (decide ((c, f) ∈ field_pairs items)) as [Hin|Hn1].
    + rewrite decide_True; [done|]. apply elem_of_app. by right.
    + destruct (decide (c = c0 /\ f ∈ fs0)) as [[-> Hf]|Hn2].
      * rewrite decide_True; [done|]. apply elem_of_app. left.
        apply list_elem_of_fmap. by exists f.
      * rewrite decide_False; [done|]. intros [Hl|Hr]%elem_of_app; [|done].
        apply list_elem_of_fmap in Hl as (f' & [= -> ->] & Hf'). tauto.
Qed.

Lemma count_channels_missing df items :
  forall (fd : gmap string (gmap string Z)) w c fs f,
    (forall c', c' ∈ items.*1 -> is_Some (fd !! c')) ->
    (c, fs) ∈ items -> f ∈ fs -> f ∉ df_columns df ->
    exists f',
      (f' ∉ df_columns df) /\
      (exists c' fs', (c', fs') ∈ items /\ f' ∈ fs') /\
      count_channels df items fd w = (Raises (KeyError f'), w).
Proof.
  induction items as [|[c0 fs0] items IH]; intros fd w c fs f Hdom Hin Hf Hnin.
  - by apply elem_of_nil in Hin.
  - cbn [count_channels]. unfold bind at 1.
    destruct (decide (Forall (fun f => f ∈ df_columns df) fs0)) as [Hall|Hnall].
    + destruct (count_fields_present df c0 fs0 fd w) as (fd1 & Hrun1 & Hdom1 & _);
        [apply Hdom; simpl; by left|done|].
      rewrite Hrun1.
      apply elem_of_cons in Hin as [[= -> ->]|Hin].
      { exfalso. apply Hnin. by apply (proj1 (Forall_forall _ _) Hall). }
      destruct (IH fd1 w c fs f) as (f' & Hn' & (c' & fs' & Hin' & Hf') & Hrun); try done.
      { intros c' Hc'. apply Hdom1. apply Hdom. simpl. by right. }
      exists f'. split; [done|]. split; [|done].
      exists c', fs'. split; [by right|done].
    + apply not_Forall_Exists in Hnall; [|apply _].
      destruct (count_fields_missing df c0 fs0 fd w) as (f' & Hf' & Hn' & Hrun);
        [apply Hdom; simpl; by left|done|].
      rewrite Hrun. exists f'. split; [done|]. split; [|done].
      exists c0, fs0. split; [by left|done].
Qed.

Lemma init_frequency_dom can_id_fields c :
  c ∈ can_id_fields.*1 -> is_Some (init_frequency can_id_fields !! c).
Proof.
  unfold init_frequency. generalize (∅ : gmap string (gmap string Z)).
  induction can_id_fields as [|[c0 fs0] items IH]; intros m Hc.
  - by apply elem_of_nil in Hc.
  - simpl in *. destruct (decide (c ∈ items.*1)) as [Hin|Hnin].
    + by apply IH.
    + apply elem_of_cons in Hc as [->|Hc]; [|done].
      rewrite init_fold_lookup_notin by done. rewrite lookup_insert_eq. by eexists.
Qed.

(** ** The rows the store returns *)

Lemma insert_by_time_perm p l : insert_by_time p l ≡ₚ p :: l.
Proof.
  induction l as [|q l IH]; [done|]. simpl.
  destruct (p_time p <? p_time q); [done|].
  rewrite IH. apply Permutation_swap.
Qed.

Lemma order_by_time_perm l : order_by_time l ≡ₚ l.
Proof.
  induction l as [|p l IH]; [done|]. simpl.
  by rewrite insert_by_time_perm, IH.
Qed.

Lemma limit_rows_all l :
  forall n, Z.of_nat (length l) <= n -> limit_rows n l = l.
Proof.
  induction l as [|p l IH]; intros n Hn; [done|]. simpl in *.
  destruct (Z.ltb_spec 0 n); [|lia]. rewrite IH by lia. done.
Qed.

Lemma limit_rows_subset l p :
  forall n, p ∈ limit_rows n l -> p ∈ l.
Proof.
  induction l as [|q l IH]; intros n Hp; [done|]. simpl in Hp.
  destruct (0 <? n); [|by apply elem_of_nil in Hp].
  apply elem_of_cons in Hp as [->|Hp]; [by left|]. right. by apply (IH (n - 1)).
Qed.

(** A point the store returns is a stored point, or the single point of a
    count whose only key is [count]. *)
Lemma store_answer_rows db q p :
  p ∈ store_answer db q ->
  (exists m v, p ∈ db m v) \/ (p_cols p).*1 = ["count"].
Proof.
  destruct q as [m v a b lim|g m v a b]; simpl; intros Hp.
  - left. exists m, v. apply limit_rows_subset in Hp.
    rewrite order_by_time_perm in Hp.
    by apply list_elem_of_filter in Hp as [_ Hp].
  - right. destruct (count_non_null _ _); [by apply elem_of_nil in Hp|].
    by apply list_elem_of_singleton in Hp as ->.
Qed.

(** ** C7: a field of the channel map that no returned row has *)

(** A frame of the engine only has the labels of its own and the keys of
    the points it was built from. *)
Lemma frames_of_nil_concat bs : frames_of bs = [] -> concat bs = [].
Proof.
  induction bs as [|b bs IH]; [done|]. rewrite frames_of_cons.
  destruct b; [|done]. exact IH.
Qed.

Lemma elem_of_concat_batch (p : Point) b bs : b ∈ bs -> p ∈ b -> p ∈ concat bs.
Proof.
  induction bs as [|b' bs IH]; [by intros ?%elem_of_nil|].
  intros [-> | Hb]%elem_of_cons Hp; cbn [concat]; apply elem_of_app; [by left|].
  right. by apply IH.
Qed.

Lemma run_columns_from_rows (bs : list (list Point)) f :
  f ∈ df_columns (concat_frames (frames_of bs)) ->
  own_label f \/ exists p, p ∈ concat bs /\ f ∈ (p_cols p).*1.
Proof.
  intros Hf. apply elem_of_concat_columns in Hf as (df & Hdf & Hf).
  apply elem_of_frames_of in Hdf as (b & Hb & _ & ->).
  apply elem_of_frame_columns in Hf as [->|[->|(p & Hp & Hf)]].
  - left. unfold own_label. tauto.
  - left. unfold own_label. tauto.
  - apply elem_of_point_keys in Hf as [->|Hf].
    + left. unfold own_label. tauto.
    + right. exists p. split; [|done]. by apply (elem_of_concat_batch p b).
Qed.

(** C7, amended.  When the window queries of the run were all answered
    and at least one of them returned rows, a field that is named in the
    channel map but is a key of no row the run returned (and is not one of
    the labels [time], [epoch], [time_diff] the frame has of its own) does
    not get the count 0: [get_frequency] raises [KeyError] for a field of
    the channel map and returns no table.  Only the rows returned to the
    window queries of the run count; the field may well be a key of rows
    the store holds elsewhere. *)
Theorem absent_field_raises_KeyError cfg client vehicle_id t_start t_end measurement
    can_id_fields batch_size c fs f :
  0 < window_size cfg ->
  (forall i : nat, (i < window_count t_start t_end (window_size cfg))%nat ->
     exists pts,
       client i (window_query cfg vehicle_id measurement batch_size
                   (t_start + Z.of_nat i * window_size cfg)) = Points pts) ->
  concat (batches cfg client vehicle_id measurement batch_size
            (window_count t_start t_end (window_size cfg)) O t_start) <> [] ->
  (c, fs) ∈ can_id_fields -> f ∈ fs -> ~ own_label f ->
  (forall p,
     p ∈ concat (batches cfg client vehicle_id measurement batch_size
                   (window_count t_start t_end (window_size cfg)) O t_start) ->
     f ∉ (p_cols p).*1) ->
  exists f' w',
    get_frequency_with cfg client vehicle_id t_start t_end measurement
      can_id_fields batch_size world0 = (Raises (KeyError f'), w') /\
    exists c' fs', (c', fs') ∈ can_id_fields /\ f' ∈ fs'.
Proof.
  intros Hw Hans Hrows Hin Hf Hown Habsent.
  rewrite get_frequency_answered by done.
  set (bs := batches cfg client vehicle_id measurement batch_size
               (window_count t_start t_end (window_size cfg)) O t_start) in *.
  assert (frames_of bs <> []) as Hne.
  { intros Hnil. by apply Hrows, frames_of_nil_concat. }
  assert (f ∉ df_columns (concat_frames (frames_of bs))) as Hnin.
  { intros Hcol. apply run_columns_from_rows in Hcol as [?|(p & Hp & Hk)]; [done|].
    by apply (Habsent p). }
  destruct (count_channels_missing (concat_frames (frames_of bs)) can_id_fields
              (init_frequency can_id_fields)
              (sent world0 (window_queries cfg vehicle_id measurement batch_size
                 (window_count t_start t_end (window_size cfg)) t_start))
              c fs f) as (f' & _ & Hmap & Hrun); try done.
  { intros c'. apply init_frequency_dom. }
  exists f'. eexists. split; [|exact Hmap].
  destruct (frames_of bs) as [|d l] eqn:E; [done|]. by rewrite Hrun.
Qed.

(** The measurement [m] has one row with the field [temp]; the channel map
    also names [pressure], which only the rows of another measurement
    have. *)
Lemma absent_field_raises_KeyError_witness :
  let db : Store := fun measurement _ =>
    if String.eqb measurement "m"
    then [ {| p_time := 5 * ns_per_s; p_cols := [("temp", Some (VInt 1))] |} ]
    else [ {| p_time := 5 * ns_per_s; p_cols := [("pressure", Some (VInt 2))] |} ] in
  exists f' w',
    get_frequency (store_client db) "V1" 0 (1800 * ns_per_s) "m"
      [("c1", ["temp"; "pressure"])] 100000 world0 = (Raises (KeyError f'), w') /\
    exists c' fs', (c', fs') ∈ [("c1", ["temp"; "pressure"])] /\ f' ∈ fs'.
Proof.
  intros db.
  apply (absent_field_raises_KeyError source_config (store_client db) "V1"
           0 (1800 * ns_per_s) "m" [("c1", ["temp"; "pressure"])] 100000
           "c1" ["temp"; "pressure"] "pressure").
  - reflexivity.
  - intros i Hi. eexists. reflexivity.
  - vm_compute. discriminate.
  - compute_done.
  - compute_done.
  - unfold own_label. intros [H|[H|H]]; discriminate H.
  - intros p Hp. vm_compute in Hp.
    apply list_elem_of_singleton in Hp as ->. compute_done.
Defined.

(** C7 as stated fails: with one returned row that has the field [temp],
    the field [pressure] of the channel map does not get the count 0; the
    run ends with [KeyError]. *)
Lemma absent_field_fails_run :
  let db : Store := fun _ _ =>
    [ {| p_time := 5 * ns_per_s; p_cols := [("temp", Some (VInt 1))] |} ] in
  (get_frequency (store_client db) "V1" 0 (1800 * ns_per_s) "m"
     [("c1", ["temp"; "pressure"])] 100000 world0).1
  = Raises (KeyError "pressure").
Proof. reflexivity. Qed.

(** ** C8: queries that fail *)

(** [get_count_for_field] always returns, after exactly one query; when
    that query fails the failure is logged and the count is 0. *)
Lemma get_count_for_field_spec client measurement field vehicle_id start_dt end_dt w0 :
  let q := SelectCount field measurement vehicle_id start_dt end_dt in
  exists count_val w',
    get_count_for_field client measurement field vehicle_id start_dt end_dt w0
      = (Returns count_val, w') /\
    issued w' = issued w0 ++ [q] /\
    (exists l, log w' = log w0 ++ l) /\
    (client (length (issued w0)) q = QueryError ->
     count_val = Some (VInt 0) /\ MsgQueryError measurement field ∈ log w').
Proof.
  intros q. unfold get_count_for_field, bind, output_func, try_except, client_query.
  simpl. fold q. destruct (client (length (issued w0)) q) as [|pts] eqn:Hans.
  - simpl. eexists _, _. split; [reflexivity|]. simpl. split; [done|].
    split; [exists [MsgExecuting q; MsgQueryError measurement field];
            by rewrite <- app_assoc|].
    intros _. split; [done|]. apply elem_of_app. right. by left.
  - simpl. destruct pts as [|point0 pts].
    + eexists _, _. split; [reflexivity|]. simpl. split; [done|].
      split; [by exists [MsgExecuting q]|]. done.
    + match goal with
      | |- context [List.find ?g ?l] => destruct (List.find g l) as [[key count_val]|]
      end.
      * eexists _, _. split; [reflexivity|]. simpl. split; [done|].
        split; [|done].
        exists [MsgExecuting q; MsgCount measurement field count_val].
        by rewrite <- app_assoc.
      * eexists _, _. split; [reflexivity|]. simpl. split; [done|].
        split; [by exists [MsgExecuting q]|]. done.
Qed.

Section RunFacts.

Variable client : Client.
Variable vehicle_id : string.
Variables start_dt end_dt : Z.

Lemma query_fields_spec measurement fields :
  forall results_list w0,
    exists rows w',
      query_fields client vehicle_id start_dt end_dt measurement fields results_list w0
        = (Returns (results_list ++ rows), w') /\
      issued w' = issued w0
                  ++ (pair_query vehicle_id start_dt end_dt
                        <$> ((fun f => (measurement, f)) <$> fields)) /\
      (exists l, log w' = log w0 ++ l) /\
      Measurement_Field <$> rows = pair_key <$> ((fun f => (measurement, f)) <$> fields) /\
      (forall (j : nat) f,
         fields !! j = Some f ->
         client (length (issued w0) + j)%nat
           (pair_query vehicle_id start_dt end_dt (measurement, f)) = QueryError ->
         Count <$> rows !! j = Some (Some (VInt 0)) /\
         MsgQueryError measurement f ∈ log w').
Proof.
  induction fields as [|f0 fields IH]; intros results_list w0.
  - exists [], w0. simpl. rewrite !app_nil_r. split; [done|]. split; [done|].
    split; [by exists []; rewrite app_nil_r|]. split; [done|].
    intros j f Hj. by rewrite lookup_nil in Hj.
  - cbn [query_fields]. unfold bind at 1.
    destruct (get_count_for_field_spec client measurement f0 vehicle_id start_dt end_dt w0)
      as (cv & w1 & Hrun1 & Hiss1 & [l1 Hlog1] & Hfail1).
    rewrite Hrun1.
    set (row0 := {| Measurement_Field := (measurement ++ ".count_" ++ f0)%string;
                    Count := cv |}).
    destruct (IH (results_list ++ [row0]) w1)
      as (rows & w' & Hrun & Hiss & [l Hlog] & Hkeys & Hfail).
    exists (row0 :: rows), w'. split.
    { rewrite Hrun. by rewrite <- app_assoc. }
    split. { rewrite Hiss, Hiss1. by rewrite <- app_assoc. }
    split. { exists (l1 ++ l). by rewrite Hlog, Hlog1, <- app_assoc. }
    split. { rewrite !fmap_cons. by rewrite Hkeys. }
    intros j f Hj Hq. destruct j as [|j].
    + simpl in Hj. injection Hj as <-. rewrite Nat.add_0_r in Hq.
      destruct (Hfail1 Hq) as [-> Hin]. split; [done|].
      rewrite Hlog. apply elem_of_app. by left.
    + simpl in Hj. apply (Hfail j f Hj).
      rewrite Hiss1, length_app. simpl.
      by replace (length (issued w0) + 1 + j)%nat with (length (issued w0) + S j)%nat by lia.
Qed.

Lemma field_pairs_cons measurement (fields : list string) items :
  field_pairs ((measurement, fields) :: items)
  = ((fun f => (measurement, f)) <$> fields) ++ field_pairs items.
Proof. reflexivity. Qed.

(** The result loop of [run_queries] always returns: one row per
    measurement and field, one query each, a failed query giving the
    count 0 and a line in the log. *)
Lemma query_measurements_spec items :
  forall results_list w0,
    exists rows w',
      query_measurements client vehicle_id start_dt end_dt items results_list w0
        = (Returns (results_list ++ rows), w') /\
      issued w' = issued w0
                  ++ (pair_query vehicle_id start_dt end_dt <$> field_pairs items) /\
      (exists l, log w' = log w0 ++ l) /\
      Measurement_Field <$> rows = pair_key <$> field_pairs items /\
      (forall (j : nat) pair,
         field_pairs items !! j = Some pair ->
         client (length (issued w0) + j)%nat
           (pair_query vehicle_id start_dt end_dt pair) = QueryError ->
         Count <$> rows !! j = Some (Some (VInt 0)) /\
         MsgQueryError pair.1 pair.2 ∈ log w').
Proof.
  induction items as [|[m fs] items IH]; intros results_list w0.
  - exists [], w0. simpl. rewrite !app_nil_r. split; [done|]. split; [done|].
    split; [by exists []; rewrite app_nil_r|]. split; [done|].
    intros j pair Hj. by rewrite lookup_nil in Hj.
  - cbn [query_measurements]. unfold bind at 1. unfold output_func at 1.
    set (w1 := {| issued := issued w0; log := log w0 ++ [MsgProcessing m] |}).
    rewrite field_pairs_cons.
    destruct (query_fields_spec m fs results_list w1)
      as (rows1 & w2 & Hrun1 & Hiss1 & [l1 Hlog1] & Hkeys1 & Hfail1).
    assert (exists w2',
              (match fs with
               | [] => let* _ := output_func MsgNoFields in
                       query_measurements client vehicle_id start_dt end_dt items results_list
               | _ => let* results_list' :=
                        query_fields client vehicle_id start_dt end_dt m fs results_list in
                      query_measurements client vehicle_id start_dt end_dt items results_list'
               end) w1
              = query_measurements client vehicle_id start_dt end_dt items
                  (results_list ++ rows1) w2' /\
              issued w2' = issued w2 /\ exists l, log w2' = log w2 ++ l) as (w2' & -> & Hiss2 & [l2 Hlog2]).
    { destruct fs as [|f0 fs'].
      - simpl in Hrun1. injection Hrun1 as Hr <-.
        apply (f_equal length) in Hkeys1. rewrite length_fmap in Hkeys1. simpl in Hkeys1.
        destruct rows1; [|done]. rewrite app_nil_r.
        eexists. split; [reflexivity|]. split; [done|]. by eexists.
      - exists w2. unfold bind. rewrite Hrun1. split; [done|]. split; [done|].
        exists []. by rewrite app_nil_r. }
    destruct (IH (results_list ++ rows1) w2')
      as (rows2 & w' & Hrun & Hiss & [l Hlog] & Hkeys & Hfail).
    exists (rows1 ++ rows2), w'.
    split. { rewrite Hrun. by rewrite <- app_assoc. }
    split. { rewrite Hiss, Hiss2, Hiss1, fmap_app. by rewrite <- app_assoc. }
    split. { exists ([MsgProcessing m] ++ l1 ++ l2 ++ l).
             rewrite Hlog, Hlog2, Hlog1. simpl. by rewrite <- !app_assoc. }
    split. { by rewrite !fmap_app, Hkeys1, Hkeys. }
    assert (length rows1 = length fs) as Hlen.
    { apply (f_equal length) in Hkeys1. by rewrite !length_fmap in Hkeys1. }
    intros j pair Hj Hq.
    destruct (decide (j < length fs)%nat) as [Hlt|Hge].
    + rewrite lookup_app_l in Hj by (by rewrite length_fmap).
      apply list_lookup_fmap_Some in Hj as (f & -> & Hf).
      destruct (Hfail1 j f Hf Hq) as [Hc Hin].
      rewrite lookup_app_l by lia. split; [done|].
      rewrite Hlog, Hlog2. apply elem_of_app. left. apply elem_of_app. by left.
    + rewrite lookup_app_r in Hj by (rewrite length_fmap; lia).
      rewrite length_fmap in Hj.
      rewrite lookup_app_r by lia. rewrite Hlen.
      apply (Hfail _ pair Hj).
      rewrite Hiss2, Hiss1, length_app, !length_fmap.
      by replace (length (issued w1) + length fs + (j - length fs))%nat
        with (length (issued w0) + j)%nat by (simpl; lia).
Qed.

End RunFacts.

(** C8, amended.  The two modes treat a failed query differently.  In
    [get_frequency] nothing catches the exception of a window query: when
    the query of a window fails, the ones before it having been answered,
    no further query is sent (no retry, no next window) and
    [get_frequency] ends with that exception instead of a result.  In the
    aggregate mode the result loop of [run_queries] always runs to its
    end: it sends exactly one query per measurement and field and returns
    one row for each, and a query that fails is logged and gives the
    count 0. *)
Theorem query_failure_handling cfg client vehicle_id t_start t_end measurement
    can_id_fields batch_size (j : nat)
    (agg_client : Client) start_dt end_dt measurements_fields w0 :
  0 < window_size cfg ->
  (j < window_count t_start t_end (window_size cfg))%nat ->
  (forall i : nat, (i < j)%nat ->
     exists pts,
       client i (window_query cfg vehicle_id measurement batch_size
                   (t_start + Z.of_nat i * window_size cfg)) = Points pts) ->
  client j (window_query cfg vehicle_id measurement batch_size
              (t_start + Z.of_nat j * window_size cfg)) = QueryError ->
  get_frequency_with cfg client vehicle_id t_start t_end measurement
    can_id_fields batch_size world0
  = (Raises InfluxError,
     sent world0 (window_queries cfg vehicle_id measurement batch_size (S j) t_start))
  /\
  exists rows w',
    query_measurements agg_client vehicle_id start_dt end_dt measurements_fields [] w0
      = (Returns rows, w') /\
    issued w' = issued w0
                ++ (pair_query vehicle_id start_dt end_dt <$> field_pairs measurements_fields) /\
    Measurement_Field <$> rows = pair_key <$> field_pairs measurements_fields /\
    (forall (k : nat) pair,
       field_pairs measurements_fields !! k = Some pair ->
       agg_client (length (issued w0) + k)%nat
         (pair_query vehicle_id start_dt end_dt pair) = QueryError ->
       Count <$> rows !! k = Some (Some (VInt 0)) /\
       MsgQueryError pair.1 pair.2 ∈ log w').
Proof.
  intros Hw Hj Hans Hfail. split.
  - unfold get_frequency_with, bind.
    rewrite while_windows_iterate by (simpl; done || lia).
    simpl current_time.
    by rewrite (iterate_body_failed cfg client vehicle_id measurement batch_size j).
  - destruct (query_measurements_spec agg_client vehicle_id start_dt end_dt
                measurements_fields [] w0)
      as (rows & w' & Hrun & Hiss & _ & Hkeys & Hrec).
    exists rows, w'. done.
Qed.

(** A store that answers the first window and fails on the second one, and
    an aggregate run against a store that fails on every query. *)
Lemma query_failure_handling_witness :
  let row := {| p_time := 5 * ns_per_s; p_cols := [("temp", Some (VInt 1))] |} in
  let client : Client := fun k _ => match k with O => Points [row] | _ => QueryError end in
  let failing : Client := fun _ _ => QueryError in
  get_frequency client "V1" 0 (3600 * ns_per_s) "m" [("c1", ["temp"])] 100000 world0
  = (Raises InfluxError,
     sent world0 [SelectAll "m" "V1" 0 (1800 * ns_per_s) 100000;
                  SelectAll "m" "V1" (1800 * ns_per_s) (3600 * ns_per_s) 100000])
  /\
  exists rows w',
    query_measurements failing "V1" 0 (3600 * ns_per_s) [("m", ["temp"; "rpm"])] [] world0
      = (Returns rows, w') /\
    Count <$> rows = [Some (VInt 0); Some (VInt 0)].
Proof.
  intros row client failing.
  destruct (query_failure_handling source_config client "V1" 0 (3600 * ns_per_s) "m"
              [("c1", ["temp"])] 100000 1%nat
              failing 0 (3600 * ns_per_s) [("m", ["temp"; "rpm"])] world0)
    as [Hwin (rows & w' & Hrun & _)].
  - reflexivity.
  - vm_compute. lia.
  - intros i Hi. assert (i = O) as -> by lia. eexists. reflexivity.
  - reflexivity.
  - split; [exact Hwin|]. exists rows, w'. split; [exact Hrun|].
    vm_compute in Hrun. injection Hrun as <- _. reflexivity.
Defined.

(** C8 as stated fails for the window queries: with a store that fails on
    the second of two windows the run does not continue to a result, and
    the rows of the first window are lost with it. *)
Lemma window_query_failure_aborts :
  let row := {| p_time := 5 * ns_per_s; p_cols := [("temp", Some (VInt 1))] |} in
  let client : Client := fun k _ => match k with O => Points [row] | _ => QueryError end in
  get_frequency client "V1" 0 (3600 * ns_per_s) "m" [("c1", ["temp"])] 100000 world0
  = (Raises InfluxError,
     {| issued := [SelectAll "m" "V1" 0 (1800 * ns_per_s) 100000;
                   SelectAll "m" "V1" (1800 * ns_per_s) (3600 * ns_per_s) 100000];
        log := [] |}).
Proof. reflexivity. Qed.

(** ** C10: the channel map file *)

Lemma rstrip_nonempty c s : is_space c = false -> rstrip (String c s) <> EmptyString.
Proof. intros Hc. simpl. rewrite Hc. by destruct (rstrip s). Qed.

Lemma has_tab_rstrip s : has_tab s = false -> has_tab (rstrip s) = false.
Proof.
  induction s as [|c s IH]; [done|]. simpl. intros [Hc Hs]%orb_false_elim.
  specialize (IH Hs). destruct (rstrip s) as [|c' r].
  - destruct (is_space c); [done|]. simpl. by rewrite Hc.
  - simpl in *. by rewrite Hc, IH.
Qed.

Lemma has_tab_lstrip s : has_tab s = false -> has_tab (lstrip s) = false.
Proof.
  induction s as [|c s IH]; [done|]. simpl. intros Ht.
  destruct (is_space c); [|done].
  apply orb_false_elim in Ht as [_ Hs]. by apply IH.
Qed.

Lemma split_tab_no_tab s : has_tab s = false -> split_tab s = [s].
Proof.
  induction s as [|c s IH]; [done|]. simpl. intros [Hc Hs]%orb_false_elim.
  by rewrite Hc, IH.
Qed.

Lemma split_tab_nonempty s : exists part0 parts, split_tab s = part0 :: parts.
Proof.
  induction s as [|c s (p & ps & IH)]; simpl; [by eexists _, _|].
  destruct (Ascii.eqb c tab); [by eexists _, _|]. rewrite IH. by eexists _, _.
Qed.

Lemma dict_get_set_eq {V} k (v : V) d : dict_get k (dict_set k v d) = Some v.
Proof.
  induction d as [|[k' v'] d IH]; simpl.
  - by rewrite String.eqb_refl.
  - destruct (String.eqb k' k) eqn:E; simpl.
    + by rewrite String.eqb_refl.
    + by rewrite E.
Qed.

Lemma dict_get_set_ne {V} k k' (v : V) d :
  k' <> k -> dict_get k' (dict_set k v d) = dict_get k' d.
Proof.
  intros Hne. induction d as [|[k0 v0] d IH]; simpl.
  - destruct (String.eqb_spec k k'); [congruence|done].
  - destruct (String.eqb_spec k0 k) as [->|Hn0]; simpl.
    + destruct (String.eqb_spec k k'); [congruence|].
      destruct (String.eqb_spec k k'); [congruence|done].
    + destruct (String.eqb_spec k0 k'); [done|]. exact IH.
Qed.

(** C10.  In [load_measurements_fields] a line that is not indented and has
    no tab gives its measurement an empty list of fields, without an
    error; in the result loop of [run_queries] a measurement with an empty
    list adds no row and sends no query, the two diagnostics being all it
    leaves; and after a blank line an indented line starts a block of its
    own, whatever the measurement before the blank line was, whose entry is
    left as it is. *)
Theorem channel_map_loader_edge_cases :
  (forall measurements_fields current_measurement c0 rest,
     is_space c0 = false ->
     has_tab (String c0 rest) = false ->
     let name := strip (String c0 rest) in
     load_line (measurements_fields, current_measurement) (String c0 rest)
       = Returns (dict_set name [] measurements_fields, Some name) /\
     dict_get name (dict_set name [] measurements_fields) = Some []) /\
  (forall client vehicle_id start_dt end_dt measurement rest results_list w0,
     query_measurements client vehicle_id start_dt end_dt
       ((measurement, []) :: rest) results_list w0
     = query_measurements client vehicle_id start_dt end_dt rest results_list
         {| issued := issued w0;
            log := log w0 ++ [MsgProcessing measurement; MsgNoFields] |}) /\
  (forall measurements_fields current_measurement blank c0 rest,
     strip blank = EmptyString ->
     is_space c0 = true ->
     strip (String c0 rest) <> EmptyString ->
     exists part0 parts,
       split_tab (strip (String c0 rest)) = part0 :: parts /\
       load_lines (measurements_fields, current_measurement) [blank; String c0 rest]
         = Returns (dict_set part0 (take 1 parts) measurements_fields, Some part0) /\
       (forall m, m <> part0 ->
          dict_get m (dict_set part0 (take 1 parts) measurements_fields)
          = dict_get m measurements_fields)).
Proof.
  split; [|split].
  - intros mf cur c0 rest Hc0 Htab name. split; [|apply dict_get_set_eq].
    assert (name = rstrip (String c0 rest)) as Hname.
    { unfold name, strip. cbn [lstrip]. by rewrite Hc0. }
    assert (split_tab name = [name]) as Hsplit.
    { apply split_tab_no_tab. rewrite Hname. by apply has_tab_rstrip. }
    assert (name <> EmptyString) as Hne.
    { rewrite Hname. by apply rstrip_nonempty. }
    unfold load_line. fold name. rewrite Hc0, Hsplit. simpl.
    by destruct name.
  - intros client vehicle_id start_dt end_dt measurement rest results_list w0.
    cbn [query_measurements]. unfold bind, output_func. simpl.
    by rewrite <- app_assoc.
  - intros mf cur blank c0 rest Hblank Hc0 Hne.
    destruct (split_tab_nonempty (strip (String c0 rest))) as (part0 & parts & Hsplit).
    exists part0, parts. split; [done|]. split.
    + cbn [load_lines]. unfold load_line at 1. rewrite Hblank.
      unfold load_line. rewrite Hsplit, Hc0. simpl.
      destruct (strip (String c0 rest)); [done|]. by destruct parts.
    + intros m Hm. by apply dict_get_set_ne.
Qed.

(** A file with the block [A<TAB>f1], a blank line, an indented line [f2]
    and a last line [B] without a tab: [f2] becomes a measurement of its
    own, [f2] and [B] have no fields and contribute no rows. *)
Lemma channel_map_loader_edge_cases_witness :
  let nl := String (ascii_of_nat 10) EmptyString in
  let lines := [ String "A" (String tab ("f1" ++ nl)); nl;
                 String " " (String " " ("f2" ++ nl)); String "B" nl ]%string in
  load_line ([("A", ["f1"]); ("f2", [])], Some "f2") (String "B" nl)
    = Returns ([("A", ["f1"]); ("f2", []); ("B", [])], Some "B") /\
  file_lines (file_text lines) = lines /\
  load_measurements_fields (Content (file_text lines))
    = Returns [("A", ["f1"]); ("f2", []); ("B", [])] /\
  Measurement_Field <$>
    (match run_queries (fun _ _ => Points []) "V1" 0 (3600 * ns_per_s)
             (Content (file_text lines)) world0 with
     | (Returns (Some rows), _) => rows
     | _ => []
     end) = ["A.count_f1"].
Proof.
  intros nl lines.
  destruct channel_map_loader_edge_cases as (Hline & _ & _).
  split; [|split; [|split]; reflexivity].
  destruct (Hline [("A", ["f1"]); ("f2", [])] (Some "f2") "B"%char nl eq_refl eq_refl)
    as [Hrun _].
  exact Hrun.
Defined.

(** ** C2: counting window by window against one aggregate count *)

(** *** Rows of the frames *)

Lemma cell_zip_with_insert name f (rows : list (gmap string (option value))) :
  f <> name ->
  forall cells, length cells = length rows ->
    cell f <$> zip_with (fun row c => <[name := c]> row) rows cells = cell f <$> rows.
Proof.
  intros Hne. induction rows as [|row rows IH]; intros cells Hlen; [done|].
  destruct cells as [|c cells]; [done|]. simpl in *.
  rewrite IH by lia. f_equal. unfold cell. by rewrite lookup_insert_ne.
Qed.

Lemma cell_point_row f p : f <> "time" -> cell f (point_row p) = point_get f p.
Proof. intros Hne. unfold cell, point_row, point_get. by rewrite lookup_insert_ne. Qed.

(** Apart from the labels of its own, a frame holds the cells of the
    points it was built from. *)
Lemma cells_frame_of f pts :
  ~ own_label f -> cell f <$> df_rows (frame_of pts) = point_get f <$> pts.
Proof.
  intros Hown. unfold own_label in Hown. unfold frame_of. simpl.
  rewrite cell_zip_with_insert; [|tauto|].
  - rewrite cell_zip_with_insert; [|tauto|by rewrite !length_fmap].
    rewrite <- list_fmap_compose. apply list_fmap_ext. intros i p _. simpl.
    apply cell_point_row. tauto.
  - rewrite length_zip_with, !length_fmap, length_diff, !length_fmap. lia.
Qed.

Lemma frames_of_app bs1 bs2 : frames_of (bs1 ++ bs2) = frames_of bs1 ++ frames_of bs2.
Proof. unfold frames_of. by rewrite filter_app, fmap_app. Qed.

Lemma cells_concat_frames f bs :
  ~ own_label f ->
  cell f <$> df_rows (concat_frames (frames_of bs)) = point_get f <$> concat bs.
Proof.
  intros Hown. unfold concat_frames. simpl.
  induction bs as [|b bs IH]; [done|].
  rewrite frames_of_cons. destruct b as [|p b]; [exact IH|].
  rewrite fmap_cons. cbn [concat]. rewrite !fmap_app, IH.
  by rewrite cells_frame_of.
Qed.

Lemma series_count_point_get f pts :
  series_count (point_get f <$> pts) = Z.of_nat (count_non_null f pts).
Proof.
  unfold series_count, count_non_null. f_equal.
  induction pts as [|p pts IH]; [done|].
  rewrite fmap_cons, !filter_cons. simpl.
  destruct (decide (is_Some (point_get f p))); simpl; by rewrite IH.
Qed.

Lemma column_count_run f bs :
  ~ own_label f ->
  column_count (concat_frames (frames_of bs)) f = Z.of_nat (count_non_null f (concat bs)).
Proof.
  intros Hown. unfold column_count.
  by rewrite cells_concat_frames, series_count_point_get.
Qed.

Lemma elem_of_concat_frames_of (p : Point) bs :
  p ∈ concat bs -> exists b, b ∈ bs /\ b <> [] /\ p ∈ b.
Proof.
  induction bs as [|b bs IH]; simpl; [by intros ?%elem_of_nil|].
  intros [Hp|Hp]%elem_of_app.
  - exists b. split; [by left|]. split; [|done]. intros ->. by apply elem_of_nil in Hp.
  - destruct (IH Hp) as (b' & Hb' & Hne & Hin). exists b'. split; [by right|done].
Qed.

(** *** Windows against the whole range *)

Lemma in_window_spec a b p : in_window a b p <-> a <= p_time p < b.
Proof.
  unfold in_window. rewrite andb_True, !Is_true_true, Z.leb_le, Z.ltb_lt. done.
Qed.

Lemma filter_window_split (l : list Point) a b c :
  a <= b -> b <= c ->
  filter (fun p => in_window a c p) l
  ≡ₚ filter (fun p => in_window a b p) l ++ filter (fun p => in_window b c p) l.
Proof.
  intros Hab Hbc. induction l as [|p l IH]; [done|].
  rewrite !filter_cons.
  destruct (decide (in_window a c p)) as [H1|H1],
           (decide (in_window a b p)) as [H2|H2],
           (decide (in_window b c p)) as [H3|H3];
    rewrite in_window_spec in H1, H2, H3; try lia; rewrite ?IH; try done.
  by rewrite <- Permutation_middle.
Qed.

Lemma filter_window_empty (l : list Point) a :
  filter (fun p => in_window a a p) l = [].
Proof.
  induction l as [|p l IH]; [done|]. rewrite filter_cons.
  destruct (decide (in_window a a p)) as [H1|H1]; [|done].
  rewrite in_window_spec in H1. lia.
Qed.

(** Without truncation the batches of a run hold, together, the stored
    rows of the stretch they cover. *)
Lemma batches_store_perm cfg db vehicle_id measurement batch_size n :
  0 <= window_size cfg ->
  forall k t,
    (forall i : nat, (i < n)%nat ->
       Z.of_nat (length (filter (fun p => in_window (t + Z.of_nat i * window_size cfg)
                                            (t + (Z.of_nat i + 1) * window_size cfg) p)
                           (db measurement vehicle_id))) <= batch_size) ->
    concat (batches cfg (store_client db) vehicle_id measurement batch_size n k t)
    ≡ₚ filter (fun p => in_window t (t + Z.of_nat n * window_size cfg) p)
         (db measurement vehicle_id).
Proof.
  intros Hw. induction n as [|n IH]; intros k t Hcap.
  - cbn [batches concat].
    replace (t + Z.of_nat 0 * window_size cfg) with t by lia.
    by rewrite filter_window_empty.
  - cbn [batches concat]. unfold store_client at 1. unfold rows_of, window_query.
    cbn [store_answer].
    etrans; [|symmetry; apply (filter_window_split _ t (t + window_size cfg)); nia].
    apply Permutation_app.
    + rewrite limit_rows_all.
      * apply order_by_time_perm.
      * rewrite order_by_time_perm.
        pose proof (Hcap O ltac:(lia)) as H0.
        replace (t + Z.of_nat 0 * window_size cfg) with t in H0 by lia.
        replace (t + (Z.of_nat 0 + 1) * window_size cfg) with (t + window_size cfg) in H0 by lia.
        exact H0.
    + rewrite IH.
      * replace (t + window_size cfg + Z.of_nat n * window_size cfg)
          with (t + Z.of_nat (S n) * window_size cfg) by lia. done.
      * intros i Hi. pose proof (Hcap (S i) ltac:(lia)) as Hi'.
        replace (t + window_size cfg + Z.of_nat i * window_size cfg)
          with (t + Z.of_nat (S i) * window_size cfg) by lia.
        replace (t + window_size cfg + (Z.of_nat i + 1) * window_size cfg)
          with (t + (Z.of_nat (S i) + 1) * window_size cfg) by lia.
        exact Hi'.
Qed.

Lemma count_non_null_perm f (l1 l2 : list Point) :
  l1 ≡ₚ l2 -> count_non_null f l1 = count_non_null f l2.
Proof. intros Hp. unfold count_non_null. by rewrite Hp. Qed.

(** The aggregate count over the store. *)
Lemma get_count_for_field_store db measurement field vehicle_id start_dt end_dt w0 :
  exists w',
    get_count_for_field (store_client db) measurement field vehicle_id start_dt end_dt w0
    = (Returns (Some (VInt (Z.of_nat
         (count_non_null field
            (filter (fun p => in_window start_dt end_dt p) (db measurement vehicle_id)))))),
       w').
Proof.
  unfold get_count_for_field, bind, output_func, try_except, client_query, store_client.
  cbn [store_answer].
  destruct (count_non_null _ _) as [|n']; eexists; reflexivity.
Qed.

Lemma concat_nil_frames_of bs : concat bs = [] -> frames_of bs = [].
Proof.
  induction bs as [|b bs IH]; [done|]. simpl. intros [-> Hbs]%app_eq_nil.
  rewrite frames_of_cons. by apply IH.
Qed.

Lemma row_key_column (p : Point) f bs :
  p ∈ concat bs -> f ∈ point_keys p ->
  f ∈ df_columns (concat_frames (frames_of bs)).
Proof.
  intros Hp Hf. apply elem_of_concat_frames_of in Hp as (b & Hb & Hne & Hp).
  apply elem_of_concat_columns. exists (frame_of b). split.
  - apply elem_of_frames_of. by exists b.
  - apply elem_of_frame_columns. right. right. by exists p.
Qed.

Lemma own_label_column f bs :
  frames_of bs <> [] -> own_label f ->
  f ∈ df_columns (concat_frames (frames_of bs)).
Proof.
  intros Hne Hown.
  destruct (concat bs) as [|p l] eqn:E; [by apply concat_nil_frames_of in E|].
  assert (p ∈ concat bs) as Hp by (rewrite E; by left).
  destruct Hown as [-> | [-> | ->]].
  - apply (row_key_column p); [done|]. apply elem_of_point_keys. by left.
  - apply elem_of_concat_frames_of in Hp as (b & Hb & Hnb & _).
    apply elem_of_concat_columns. exists (frame_of b). split.
    + apply elem_of_frames_of. by exists b.
    + apply elem_of_frame_columns. right. by left.
  - apply elem_of_concat_frames_of in Hp as (b & Hb & Hnb & _).
    apply elem_of_concat_columns. exists (frame_of b). split.
    + apply elem_of_frames_of. by exists b.
    + apply elem_of_frame_columns. by left.
Qed.

Lemma elem_of_field_pairs items c fs f :
  (c, fs) ∈ items -> f ∈ fs -> (c, f) ∈ field_pairs items.
Proof.
  intros Hin Hf. unfold field_pairs. apply list_elem_of_bind.
  exists (c, fs). split; [|done]. apply list_elem_of_fmap. by exists f.
Qed.

(** C2, amended.  Over a store, the count [get_frequency] gives a field
    of the channel map equals the count [get_count_for_field] gives for
    the whole range, provided that the window length divides the range
    length (so that the windows of the loop cover the range and nothing
    else), that no window holds more rows than the row cap, that the
    field is not one of the labels [time], [epoch], [time_diff] of the
    frame, and that every field of the channel map is a key of some row
    of the range or the range has no rows (so that the run returns). *)
Theorem windowed_count_equals_aggregate cfg db vehicle_id t_start t_end measurement
    can_id_fields batch_size c fs f w0 :
  0 < window_size cfg ->
  t_start < t_end ->
  (t_end - t_start) mod window_size cfg = 0 ->
  (forall i : nat, (i < window_count t_start t_end (window_size cfg))%nat ->
     Z.of_nat (length (filter (fun p => in_window
                                  (t_start + Z.of_nat i * window_size cfg)
                                  (t_start + (Z.of_nat i + 1) * window_size cfg) p)
                         (db measurement vehicle_id))) <= batch_size) ->
  NoDup can_id_fields.*1 ->
  (c, fs) ∈ can_id_fields -> f ∈ fs -> ~ own_label f ->
  (filter (fun p => in_window t_start t_end p) (db measurement vehicle_id) = [] \/
   forall c' fs' f', (c', fs') ∈ can_id_fields -> f' ∈ fs' ->
     own_label f' \/
     exists p, p ∈ db measurement vehicle_id /\ in_window t_start t_end p /\
               f' ∈ (p_cols p).*1) ->
  exists tbl effective_time w' count w'',
    get_frequency_with cfg (store_client db) vehicle_id t_start t_end measurement
      can_id_fields batch_size world0 = (Returns (tbl, effective_time), w') /\
    get_count_for_field (store_client db) measurement f vehicle_id t_start t_end w0
      = (Returns (Some (VInt count)), w'') /\
    table_count tbl c f = Some count.
Proof.
  intros Hw Hlt Hmod Hcap Hnd Hin Hf Hown Hpresent.
  pose proof (proj2 (window_count_exact t_start t_end _ Hw Hlt) Hmod) as Hn.
  rewrite get_frequency_answered by (done || intros; eexists; reflexivity).
  set (n := window_count t_start t_end (window_size cfg)) in *.
  set (bs := batches cfg (store_client db) vehicle_id measurement batch_size n O t_start).
  assert (concat bs ≡ₚ filter (fun p => in_window t_start t_end p)
                         (db measurement vehicle_id)) as Hperm.
  { unfold bs. rewrite batches_store_perm by (lia || done).
    by replace (t_start + Z.of_nat n * window_size cfg) with t_end by lia. }
  destruct (get_count_for_field_store db measurement f vehicle_id t_start t_end w0)
    as [w'' Hagg].
  rewrite <- (count_non_null_perm f _ _ Hperm) in Hagg.
  destruct (frames_of bs) as [|d l] eqn:E.
  - eexists _, _, _, _, w''. split; [reflexivity|]. split; [exact Hagg|].
    rewrite (frames_of_nil_concat _ E). by apply (init_frequency_field _ c fs).
  - rewrite <- E. assert (frames_of bs <> []) as Hne by (by rewrite E).
    destruct (count_channels_present (concat_frames (frames_of bs)) can_id_fields
                (init_frequency can_id_fields)
                (sent world0 (window_queries cfg vehicle_id measurement batch_size n t_start)))
      as (tbl & Hrun & Htab).
    { intros c'. apply init_frequency_dom. }
    { intros c' fs' f' Hin' Hf'. destruct Hpresent as [Hnil|Hall].
      - rewrite Hnil in Hperm. apply Permutation_nil_r in Hperm.
        by apply concat_nil_frames_of in Hperm.
      - destruct (Hall c' fs' f' Hin' Hf') as [Hl|(p & Hp & Hwin & Hkey)].
        + by apply own_label_column.
        + apply (row_key_column p).
          * rewrite Hperm. by apply list_elem_of_filter.
          * apply elem_of_point_keys. by right. }
    rewrite Hrun. eexists _, _, _, _, w''. split; [reflexivity|]. split; [exact Hagg|].
    rewrite Htab, decide_True by (by apply (elem_of_field_pairs _ c fs)).
    by rewrite column_count_run.
Qed.

(** One hour in two windows, with rows in both and a null cell. *)
Lemma windowed_count_equals_aggregate_witness :
  let db : Store := fun _ _ =>
    [ {| p_time := 5 * ns_per_s; p_cols := [("temp", Some (VInt 20))] |};
      {| p_time := 10 * ns_per_s; p_cols := [("temp", None)] |};
      {| p_time := 2000 * ns_per_s; p_cols := [("temp", Some (VInt 21))] |} ] in
  exists tbl effective_time w' count w'',
    get_frequency (store_client db) "V1" 0 (3600 * ns_per_s) "m"
      [("c1", ["temp"])] 100000 world0 = (Returns (tbl, effective_time), w') /\
    get_count_for_field (store_client db) "m" "temp" "V1" 0 (3600 * ns_per_s) world0
      = (Returns (Some (VInt count)), w'') /\
    table_count tbl "c1" "temp" = Some count.
Proof.
  intros db.
  apply (windowed_count_equals_aggregate source_config db "V1" 0 (3600 * ns_per_s) "m"
           [("c1", ["temp"])] 100000 "c1" ["temp"] "temp" world0).
  - reflexivity.
  - reflexivity.
  - reflexivity.
  - intros i Hi. assert (i = 0 \/ i = 1)%nat as [-> | ->] by (vm_compute in Hi; lia);
      vm_compute; discriminate.
  - compute_done.
  - compute_done.
  - compute_done.
  - unfold own_label. intros [H|[H|H]]; discriminate H.
  - right. intros c' fs' f' Hin Hf'.
    apply list_elem_of_singleton in Hin. injection Hin as -> ->.
    apply list_elem_of_singleton in Hf' as ->.
    right. exists {| p_time := 5 * ns_per_s; p_cols := [("temp", Some (VInt 20))] |}.
    split; [unfold db; by left|]. split; compute_done.
Defined.

(** C2 as stated fails.  With a row cap of 1, a window with two rows
    counts 1 where the aggregate count is 2.  With a range of ten seconds
    the only window reaches thirty minutes, and a row after the range end
    is counted: 2 against 1.  The label [epoch] of the frame counts the
    rows, 2, where the store has no such field, 0.  A field of the channel
    map that no row has ends the run with [KeyError], where the aggregate
    count is 0. *)
Lemma windowed_count_differs_from_aggregate :
  let db : Store := fun _ _ =>
    [ {| p_time := 1 * ns_per_s; p_cols := [("temp", Some (VInt 20))] |};
      {| p_time := 20 * ns_per_s; p_cols := [("temp", Some (VInt 21))] |} ] in
  let windowed t_end field batch_size :=
    match get_frequency (store_client db) "V1" 0 t_end "m" [("c1", [field])]
            batch_size world0 with
    | (Returns (tbl, _), _) => Returns (table_count tbl "c1" field)
    | (Raises e, _) => Raises e
    | (Diverges, _) => Diverges
    end in
  let aggregate t_end field :=
    (get_count_for_field (store_client db) "m" field "V1" 0 t_end world0).1 in
  windowed (1800 * ns_per_s) "temp" 1 = Returns (Some 1) /\
  aggregate (1800 * ns_per_s) "temp" = Returns (Some (VInt 2)) /\
  windowed (10 * ns_per_s) "temp" 100000 = Returns (Some 2) /\
  aggregate (10 * ns_per_s) "temp" = Returns (Some (VInt 1)) /\
  windowed (1800 * ns_per_s) "epoch" 100000 = Returns (Some 2) /\
  aggregate (1800 * ns_per_s) "epoch" = Returns (Some (VInt 0)) /\
  windowed (1800 * ns_per_s) "pressure" 100000 = Raises (KeyError "pressure") /\
  aggregate (1800 * ns_per_s) "pressure" = Returns (Some (VInt 0)).
Proof. repeat split; reflexivity. Qed.

(** * Further properties of [get_frequency] *)

(** ** A range that is empty or inverted *)

(** X1.  When the end of the range is not after its start the loop does
    not run: no query is sent, every count stays 0 and the effective
    duration is [t_end - t_start], which is negative for an inverted
    range.  (What the function prints is not part of the model; the
    statement is about the result and the queries.) *)
Theorem empty_range_sends_no_query cfg client vehicle_id t_start t_end measurement
    can_id_fields batch_size w0 :
  t_end <= t_start ->
  (get_frequency_with cfg client vehicle_id t_start t_end measurement
     can_id_fields batch_size w0).1
  = Returns (init_frequency can_id_fields, t_end - t_start) /\
  issued (get_frequency_with cfg client vehicle_id t_start t_end measurement
            can_id_fields batch_size w0).2 = issued w0 /\
  t_end - t_start <= 0 /\
  (forall c f n, table_count (init_frequency can_id_fields) c f = Some n -> n = 0).
Proof.
  intros Hle.
  assert (get_frequency_with cfg client vehicle_id t_start t_end measurement
            can_id_fields batch_size w0
          = (Returns (init_frequency can_id_fields, t_end - t_start), w0)) as ->.
  { unfold get_frequency_with, bind.
    assert (forall fuel,
              while_windows cfg client vehicle_id measurement t_end batch_size fuel
                (loop_start t_start) w0 = (Returns (loop_start t_start), w0)) as ->.
    { intros fuel. destruct fuel; simpl;
        destruct (Z.ltb_spec t_start t_end); (lia || done). }
    simpl. unfold ret. do 3 f_equal. lia. }
  split; [done|]. split; [done|]. split; [lia|apply init_frequency_zero].
Qed.

(** A range that ends one hour before it starts, over a store that fails
    every query. *)
Lemma empty_range_sends_no_query_witness :
  (get_frequency (fun _ _ => QueryError) "V1" (3600 * ns_per_s) 0 "m"
     [("c1", ["temp"])] 100000 world0).1
  = Returns (init_frequency [("c1", ["temp"])], 0 - 3600 * ns_per_s) /\
  issued (get_frequency (fun _ _ => QueryError) "V1" (3600 * ns_per_s) 0 "m"
            [("c1", ["temp"])] 100000 world0).2 = [].
Proof.
  destruct (empty_range_sends_no_query source_config (fun _ _ => QueryError) "V1"
              (3600 * ns_per_s) 0 "m" [("c1", ["temp"])] 100000 world0)
    as (Hres & Hsent & _).
  - vm_compute. discriminate.
  - split; [exact Hres | exact Hsent].
Defined.

(** ** Batches without a gap *)

Lemma count_fields_outcome df can_id fields :
  forall fd w,
    (exists fd', count_fields df can_id fields fd w = (Returns fd', w)) \/
    (exists k, count_fields df can_id fields fd w = (Raises (KeyError k), w)).
Proof.
  induction fields as [|f fields IH]; intros fd w; [left; by eexists|].
  cbn [count_fields]. unfold bind, df_getitem.
  destruct (decide (f ∈ df_columns df)); [|right; by eexists].
  simpl. unfold set_count. destruct (fd !! can_id); [|right; by eexists].
  simpl. apply IH.
Qed.

(** The counting loops end with a table or with [KeyError], and leave the
    world as it is. *)
Lemma count_channels_outcome df items :
  forall fd w,
    (exists fd', count_channels df items fd w = (Returns fd', w)) \/
    (exists k, count_channels df items fd w = (Raises (KeyError k), w)).
Proof.
  induction items as [|[c fs] items IH]; intros fd w; [left; by eexists|].
  cbn [count_channels]. unfold bind.
  destruct (count_fields_outcome df c fs fd w) as [[fd' ->]|[k ->]].
  - apply IH.
  - right. by eexists.
Qed.

Lemma gap_total_zero threshold (bs : list (list Point)) :
  (forall b d, b ∈ bs -> d ∈ deltas (epoch_of <$> b) -> d <= threshold) ->
  gap_total threshold bs = 0.
Proof.
  induction bs as [|b bs IH]; intros Hsmall; [done|].
  rewrite gap_total_cons, IH by (intros b' d Hb'; apply Hsmall; by right).
  assert (gap_seconds threshold (epoch_of <$> b) = 0) as ->; [|done].
  rewrite gap_seconds_excess, <- sum_excess_filter.
  assert (forall ds : list Z,
            (forall d, d ∈ ds -> d <= threshold) ->
            sum_list (excess threshold <$> ds) = 0) as Hzero.
  { induction ds as [|d ds IHds]; intros Hds; [done|].
    rewrite fmap_cons, sum_list_cons, IHds by (intros; apply Hds; by right).
    unfold excess. pose proof (Hds d ltac:(by left)).
    destruct (Z.ltb_spec threshold d); lia. }
  apply Hzero. intros d Hd. apply (Hsmall b d); [by left | done].
Qed.

(** X2.  When the window queries of the run are answered and no batch the
    run received has two successive samples more than the threshold apart
    (in whole seconds), nothing is deducted: the run ends with the full
    range length as effective duration, or with [KeyError] from the
    counting.  Only the batches of the run count, not what the store holds
    outside the range.  In particular windows with at most one sample each
    never show a gap. *)
Theorem no_gap_full_duration cfg client vehicle_id t_start t_end measurement
    can_id_fields batch_size :
  0 < window_size cfg ->
  (forall i : nat, (i < window_count t_start t_end (window_size cfg))%nat ->
     exists pts,
       client i (window_query cfg vehicle_id measurement batch_size
                   (t_start + Z.of_nat i * window_size cfg)) = Points pts) ->
  (forall b d,
     b ∈ batches cfg client vehicle_id measurement batch_size
           (window_count t_start t_end (window_size cfg)) O t_start ->
     d ∈ deltas (epoch_of <$> b) -> d <= gap_threshold cfg) ->
  (exists tbl w',
     get_frequency_with cfg client vehicle_id t_start t_end measurement
       can_id_fields batch_size world0 = (Returns (tbl, t_end - t_start), w')) \/
  (exists k w',
     get_frequency_with cfg client vehicle_id t_start t_end measurement
       can_id_fields batch_size world0 = (Raises (KeyError k), w')).
Proof.
  intros Hw Hans Hsmall.
  rewrite get_frequency_answered by done.
  rewrite (gap_total_zero _ _ Hsmall).
  replace (t_end - t_start - 0) with (t_end - t_start) by lia.
  destruct (frames_of _) as [|d l] eqn:E; [left; by eexists _, _|]. rewrite <- E.
  match goal with |- context [count_channels ?df ?it ?fd ?w] =>
    destruct (count_channels_outcome df it fd w) as [[fd' ->]|[k ->]] end.
  - left. by eexists _, _.
  - right. by eexists _, _.
Qed.

(** A store with one sample every two seconds at the start of the range,
    a single sample in the second window, and two samples an hour apart
    after the range: the gap outside the range deducts nothing. *)
Lemma no_gap_full_duration_witness :
  let db : Store := fun _ _ =>
    [ {| p_time := 0; p_cols := [("temp", Some (VInt 1))] |};
      {| p_time := 2 * ns_per_s; p_cols := [("temp", Some (VInt 2))] |};
      {| p_time := 4 * ns_per_s; p_cols := [("temp", None)] |};
      {| p_time := 3000 * ns_per_s; p_cols := [("temp", Some (VInt 3))] |};
      {| p_time := 7200 * ns_per_s; p_cols := [("temp", Some (VInt 4))] |};
      {| p_time := 10800 * ns_per_s; p_cols := [("temp", Some (VInt 5))] |} ] in
  exists tbl w',
    get_frequency (store_client db) "V1" 0 (3600 * ns_per_s) "m"
      [("c1", ["temp"])] 100000 world0 = (Returns (tbl, 3600 * ns_per_s - 0), w').
Proof.
  intros db.
  destruct (no_gap_full_duration source_config (store_client db) "V1"
              0 (3600 * ns_per_s) "m" [("c1", ["temp"])] 100000)
    as [Hret|(k & w' & Hraise)].
  - reflexivity.
  - intros i Hi. eexists. reflexivity.
  - intros b d Hb Hd. vm_compute in Hb.
    apply elem_of_cons in Hb as [-> | Hb].
    + vm_compute in Hd.
      repeat (apply elem_of_cons in Hd as [->|Hd]; [vm_compute; discriminate|]).
      by apply elem_of_nil in Hd.
    + apply list_elem_of_singleton in Hb as ->. vm_compute in Hd.
      by apply elem_of_nil in Hd.
  - exact Hret.
  - vm_compute in Hraise. discriminate.
Defined.

(** ** What the counts are *)



(** ** How much a batch can lose *)

Lemma epoch_of_mono p q : p_time p <= p_time q -> epoch_of p <= epoch_of q.
Proof. intros Hle. unfold epoch_of. apply Z.div_le_mono; [done|exact Hle]. Qed.

Lemma time_ordered_deltas pts :
  time_ordered pts -> Forall (fun d => 0 <= d) (deltas (epoch_of <$> pts)).
Proof.
  unfold time_ordered. induction 1 as [|p pts Hs IH Hhd]; [constructor|].
  destruct Hhd as [|q pts' Hpq]; [constructor|].
  rewrite !fmap_cons. cbn [deltas]. constructor.
  - apply epoch_of_mono in Hpq. lia.
  - by rewrite !fmap_cons in IH.
Qed.

Lemma sum_deltas_telescope (xs : list Z) :
  forall x z, last (x :: xs) = Some z -> sum_list (deltas (x :: xs)) = z - x.
Proof.
  induction xs as [|y xs IH]; intros x z Hlast.
  - simpl in Hlast. injection Hlast as <-. unfold sum_list. simpl. lia.
  - rewrite last_cons_cons in Hlast.
    change (deltas (x :: y :: xs)) with ((y - x) :: deltas (y :: xs)).
    rewrite sum_list_cons, (IH y z Hlast). lia.
Qed.

Lemma sum_deltas_span pts :
  sum_list (deltas (epoch_of <$> pts)) = epoch_span pts.
Proof.
  unfold epoch_span. destruct pts as [|p pts]; [done|]. cbn [head].
  destruct (last (p :: pts)) as [q|] eqn:E; [|by apply last_None in E].
  rewrite fmap_cons. apply sum_deltas_telescope.
  by rewrite <- fmap_cons, fmap_last, E.
Qed.

Lemma sum_excess_le threshold (ds : list Z) :
  0 <= threshold -> Forall (fun d => 0 <= d) ds ->
  sum_list (excess threshold <$> ds) <= sum_list ds.
Proof.
  intros Hthr. induction 1 as [|d ds Hd _ IH]; [done|].
  rewrite fmap_cons, !sum_list_cons. unfold excess at 1.
  destruct (Z.ltb_spec threshold d); lia.
Qed.

(** X4.  For a batch in time order and a threshold that is not negative,
    what one iteration of the loop adds to the accumulated gap duration
    lies between zero and the whole seconds from the first to the last
    sample of the batch. *)
Theorem gap_within_batch_span cfg client vehicle_id measurement batch_size st w0 pts :
  client (length (issued w0))
    (window_query cfg vehicle_id measurement batch_size (current_time st)) = Points pts ->
  0 <= gap_threshold cfg ->
  time_ordered pts ->
  exists st' w',
    loop_body cfg client vehicle_id measurement batch_size st w0 = (Returns st', w') /\
    total_gap_duration st <= total_gap_duration st' /\
    total_gap_duration st' <= total_gap_duration st + Timedelta_seconds (epoch_span pts).
Proof.
  intros Hans Hthr Hord. eexists _, _. split; [by apply loop_body_answered|].
  simpl. pose proof (gap_seconds_nonneg (gap_threshold cfg) (epoch_of <$> pts)) as H0.
  assert (gap_seconds (gap_threshold cfg) (epoch_of <$> pts) <= epoch_span pts) as H1.
  { rewrite gap_seconds_sum_excess, <- sum_deltas_span.
    apply sum_excess_le; [done|]. by apply time_ordered_deltas. }
  unfold Timedelta_seconds, ns_per_s. lia.
Qed.

(** Samples at seconds 0, 10 and 20: two gaps of 10 seconds lose 12
    seconds of the 20. *)
Lemma gap_within_batch_span_witness :
  let pts := [ {| p_time := 0; p_cols := [] |};
               {| p_time := 10 * ns_per_s; p_cols := [] |};
               {| p_time := 20 * ns_per_s; p_cols := [] |} ] in
  exists st' w',
    loop_body source_config (fun _ _ => Points pts) "V1" "m" 100000
      (loop_start 0) world0 = (Returns st', w') /\
    0 <= total_gap_duration st' /\
    total_gap_duration st' <= 0 + Timedelta_seconds 20.
Proof.
  intros pts.
  apply (gap_within_batch_span source_config (fun _ _ => Points pts) "V1" "m" 100000
           (loop_start 0) world0 pts).
  - reflexivity.
  - vm_compute. discriminate.
  - unfold time_ordered, pts. repeat constructor; vm_compute; discriminate.
Defined.

(** ** Rows of a window of the store *)

Lemma insert_by_time_sorted p l :
  time_ordered l -> time_ordered (insert_by_time p l).
Proof.
  unfold time_ordered. induction 1 as [|q l Hs IH Hhd]; simpl.
  - repeat constructor.
  - destruct (Z.ltb_spec (p_time p) (p_time q)).
    + constructor; [by constructor|]. constructor. lia.
    + constructor; [exact IH|].
      destruct Hhd as [|r l' Hqr]; simpl.
      * constructor. lia.
      * destruct (Z.ltb_spec (p_time p) (p_time r)); constructor; lia.
Qed.

Lemma order_by_time_sorted l : time_ordered (order_by_time l).
Proof.
  induction l as [|p l IH]; simpl; [constructor|]. by apply insert_by_time_sorted.
Qed.

Lemma limit_rows_sorted l :
  forall n, time_ordered l -> time_ordered (limit_rows n l).
Proof.
  unfold time_ordered. induction l as [|p l IH]; intros n Hs; [constructor|].
  simpl. destruct (0 <? n); [|constructor].
  apply Sorted_inv in Hs as [Hs Hhd]. constructor; [by apply IH|].
  destruct Hhd as [|q l' Hpq]; simpl; [constructor|].
  destruct (0 <? n - 1); constructor. exact Hpq.
Qed.

(** The rows of a window come back in time order and lie in the window. *)
Lemma store_window_rows db m v a b limit :
  time_ordered (store_answer db (SelectAll m v a b limit)) /\
  forall p, p ∈ store_answer db (SelectAll m v a b limit) -> a <= p_time p < b.
Proof.
  split.
  - simpl. apply limit_rows_sorted, order_by_time_sorted.
  - intros p Hp. simpl in Hp. apply limit_rows_subset in Hp.
    rewrite order_by_time_perm in Hp.
    apply list_elem_of_filter in Hp as [Hp _]. by apply in_window_spec.
Qed.

(** ** Windows that tile the range *)

Lemma head_last_elem_of (pts : list Point) p q :
  head pts = Some p -> last pts = Some q -> p ∈ pts /\ q ∈ pts.
Proof.
  intros Hh Hl. split.
  - destruct pts; [done|]. injection Hh as ->. by left.
  - rewrite last_lookup in Hl. by apply list_elem_of_lookup_2 in Hl.
Qed.

Lemma window_gap_bound cfg db vehicle_id measurement batch_size a :
  0 <= gap_threshold cfg ->
  0 < window_size cfg ->
  window_size cfg mod ns_per_s = 0 ->
  a mod ns_per_s = 0 ->
  Timedelta_seconds
    (gap_seconds (gap_threshold cfg)
       (epoch_of <$> store_answer db
                       (window_query cfg vehicle_id measurement batch_size a)))
  <= window_size cfg - ns_per_s.
Proof.
  intros Hthr Hw Hwmod Hamod. unfold window_query.
  destruct (store_window_rows db measurement vehicle_id a (a + window_size cfg) batch_size)
    as [Hord Hin].
  set (pts := store_answer db _) in *.
  assert (gap_seconds (gap_threshold cfg) (epoch_of <$> pts) <= epoch_span pts) as Hspan.
  { rewrite gap_seconds_sum_excess, <- sum_deltas_span.
    apply sum_excess_le; [done|]. by apply time_ordered_deltas. }
  apply Z.mod_divide in Hwmod as [i Hi]; [|done].
  apply Z.mod_divide in Hamod as [j Hj]; [|done].
  assert (epoch_span pts <= i - 1) as Hi1.
  { unfold epoch_span.
    destruct (head pts) as [p|] eqn:Hh; [|unfold ns_per_s in *; lia].
    destruct (last pts) as [q|] eqn:Hl; [|unfold ns_per_s in *; lia].
    destruct (head_last_elem_of pts p q Hh Hl) as [Hp Hq].
    apply Hin in Hp, Hq. unfold epoch_of.
    assert (p_time q / ns_per_s < j + i).
    { apply Z.div_lt_upper_bound; [done|]. unfold ns_per_s in *. lia. }
    assert (j <= p_time p / ns_per_s).
    { apply Z.div_le_lower_bound; [done|]. unfold ns_per_s in *. lia. }
    lia. }
  unfold Timedelta_seconds, ns_per_s in *. lia.
Qed.

Lemma gap_total_store_bound cfg db vehicle_id measurement batch_size n :
  0 <= gap_threshold cfg ->
  0 < window_size cfg ->
  window_size cfg mod ns_per_s = 0 ->
  forall k t, t mod ns_per_s = 0 ->
    gap_total (gap_threshold cfg)
      (batches cfg (store_client db) vehicle_id measurement batch_size n k t)
    <= Z.of_nat n * (window_size cfg - ns_per_s).
Proof.
  intros Hthr Hw Hwmod. induction n as [|n IH]; intros k t Ht; [done|].
  cbn [batches]. rewrite gap_total_cons. unfold store_client at 1. cbn [rows_of].
  pose proof (window_gap_bound cfg db vehicle_id measurement batch_size t
                Hthr Hw Hwmod Ht) as H1.
  assert ((t + window_size cfg) mod ns_per_s = 0) as Ht'.
  { rewrite Z.add_mod, Ht, Hwmod by done. done. }
  pose proof (IH (S k) (t + window_size cfg) Ht') as H2. lia.
Qed.

Lemma gap_total_nonneg threshold bs : 0 <= gap_total threshold bs.
Proof.
  induction bs as [|b bs IH]; [done|]. rewrite gap_total_cons.
  pose proof (gap_seconds_nonneg threshold (epoch_of <$> b)).
  unfold Timedelta_seconds, ns_per_s. lia.
Qed.

(** X5.  Over a store, when the threshold is not negative, the range
    starts on a whole second, the window length is a whole number of
    seconds and divides the range length, the effective duration can not
    go to zero or below: every window keeps at least one second, and the
    run ends with an effective duration in [(0, t_end - t_start]] or with
    [KeyError] from the counting. *)
Theorem effective_time_positive_on_tiled_range cfg db vehicle_id t_start t_end
    measurement can_id_fields batch_size :
  0 <= gap_threshold cfg ->
  0 < window_size cfg ->
  window_size cfg mod ns_per_s = 0 ->
  t_start mod ns_per_s = 0 ->
  t_start < t_end ->
  (t_end - t_start) mod window_size cfg = 0 ->
  (exists tbl effective_time w',
     get_frequency_with cfg (store_client db) vehicle_id t_start t_end measurement
       can_id_fields batch_size world0 = (Returns (tbl, effective_time), w') /\
     Z.of_nat (window_count t_start t_end (window_size cfg)) * ns_per_s <= effective_time /\
     0 < effective_time <= t_end - t_start) \/
  (exists k w',
     get_frequency_with cfg (store_client db) vehicle_id t_start t_end measurement
       can_id_fields batch_size world0 = (Raises (KeyError k), w')).
Proof.
  intros Hthr Hw Hwmod Hsmod Hlt Hdiv.
  pose proof (proj2 (window_count_exact t_start t_end _ Hw Hlt) Hdiv) as Hn.
  pose proof (window_count_bounds t_start t_end _ Hw Hlt) as Hb.
  rewrite get_frequency_answered by (done || intros; eexists; reflexivity).
  set (n := window_count t_start t_end (window_size cfg)) in *.
  set (bs := batches cfg (store_client db) vehicle_id measurement batch_size n O t_start).
  pose proof (gap_total_store_bound cfg db vehicle_id measurement batch_size n
                Hthr Hw Hwmod O t_start Hsmod) as Hup. fold bs in Hup.
  pose proof (gap_total_nonneg (gap_threshold cfg) bs) as Hlow.
  assert (0 < Z.of_nat n) as Hnpos by (unfold ns_per_s in *; nia).
  assert (Z.of_nat n * ns_per_s <= t_end - t_start - gap_total (gap_threshold cfg) bs
          /\ 0 < t_end - t_start - gap_total (gap_threshold cfg) bs <= t_end - t_start)
    as Heff by (unfold ns_per_s in *; nia).
  destruct (frames_of bs) as [|d l] eqn:E; [left; by eexists _, _, _|]. rewrite <- E.
  match goal with |- context [count_channels ?df ?it ?fd ?w] =>
    destruct (count_channels_outcome df it fd w) as [[fd' ->]|[k ->]] end.
  - left. by eexists _, _, _.
  - right. by eexists _, _.
Qed.

(** An hour in two windows, the first with samples at its two ends, 1799
    seconds apart: the effective duration stays positive. *)
Lemma effective_time_positive_on_tiled_range_witness :
  let db : Store := fun _ _ =>
    [ {| p_time := 0; p_cols := [("temp", Some (VInt 1))] |};
      {| p_time := 1799 * ns_per_s; p_cols := [("temp", Some (VInt 2))] |};
      {| p_time := 3599 * ns_per_s; p_cols := [("temp", Some (VInt 3))] |} ] in
  exists tbl effective_time w',
    get_frequency (store_client db) "V1" 0 (3600 * ns_per_s) "m"
      [("c1", ["temp"])] 100000 world0 = (Returns (tbl, effective_time), w') /\
    0 < effective_time <= 3600 * ns_per_s - 0.
Proof.
  intros db.
  destruct (effective_time_positive_on_tiled_range source_config db "V1"
              0 (3600 * ns_per_s) "m" [("c1", ["temp"])] 100000)
    as [(tbl & eff & w' & Hrun & _ & Hpos)|(k & w' & Hraise)].
  - vm_compute. discriminate.
  - reflexivity.
  - reflexivity.
  - reflexivity.
  - reflexivity.
  - reflexivity.
  - exists tbl, eff, w'. split; [exact Hrun|exact Hpos].
  - vm_compute in Hraise. discriminate.
Defined.

(** * Further properties of the aggregate mode *)

(** ** The channel map file is never refused *)

Lemma strip_empty : strip EmptyString = EmptyString.
Proof. reflexivity. Qed.

Lemma dict_get_set_is_Some {V} k k' (v : V) d :
  is_Some (dict_get k' d) -> is_Some (dict_get k' (dict_set k v d)).
Proof.
  intros Hs. destruct (decide (k' = k)) as [->|Hne].
  - rewrite dict_get_set_eq. by eexists.
  - by rewrite dict_get_set_ne.
Qed.

Lemma load_line_tracked st line :
  tracked st -> exists st', load_line st line = Returns st' /\ tracked st'.
Proof.
  destruct st as [mf cur]. intros Htr. unfold load_line.
  destruct (strip line) as [|a stripped] eqn:Hstrip.
  - eexists. split; [done|]. intros m Hm. discriminate Hm.
  - destruct line as [|c0 rest]; [by rewrite strip_empty in Hstrip|].
    destruct (is_space c0 && truthy cur) eqn:Hcond.
    + apply andb_true_iff in Hcond as [_ Htruthy].
      destruct cur as [m|]; [|done].
      destruct (Htr m eq_refl) as [fields Hfields]. simpl in Hfields. rewrite Hfields.
      eexists. split; [done|]. intros m' [= <-]. simpl.
      rewrite dict_get_set_eq. by eexists.
    + destruct (split_tab_nonempty (String a stripped)) as (part0 & parts & ->).
      destruct parts as [|part1 parts]; eexists; (split; [done|]);
        intros m' [= <-]; simpl; rewrite dict_get_set_eq; by eexists.
Qed.

Lemma load_lines_tracked lines :
  forall st, tracked st -> exists st', load_lines st lines = Returns st' /\ tracked st'.
Proof.
  induction lines as [|line lines IH]; intros st Htr; [by exists st|].
  cbn [load_lines]. destruct (load_line_tracked st line Htr) as (st1 & -> & Htr1).
  by apply IH.
Qed.

(** X6.  [load_measurements_fields] fails only on a file that can not be
    read.  A file that was opened and decoded is loaded into a map whatever
    its text: no content makes the loader raise, and a run over the file
    gets past the loading and ends with a table, possibly an empty one,
    however the store answers.  On a file that can not be opened or decoded
    the loader raises the error of reading; the run reports it and ends
    without a table and without a query. *)
Theorem channel_map_refused_only_when_unreadable client vehicle_id start_dt end_dt w0 :
  (forall text,
     (exists measurements_fields,
        load_measurements_fields (Content text) = Returns measurements_fields) /\
     (exists rows w',
        run_queries client vehicle_id start_dt end_dt (Content text) w0
        = (Returns (Some rows), w'))) /\
  load_measurements_fields Unreadable = Raises (ReadError FileError) /\
  run_queries client vehicle_id start_dt end_dt Unreadable w0
  = (Returns None, {| issued := issued w0; log := log w0 ++ [MsgLoadError] |}).
Proof.
  split; [|split; reflexivity]. intros text.
  assert (exists mf, load_measurements_fields (Content text) = Returns mf) as [mf Hload].
  { unfold load_measurements_fields.
    destruct (load_lines_tracked (file_lines text) ([], None)) as ([mf cur] & -> & _);
      [by intros m Hm|]. by exists mf. }
  split; [by exists mf|].
  unfold run_queries. rewrite Hload. unfold bind, output_func.
  set (w1 := {| issued := issued w0; log := log w0 ++ [MsgLoaded] |}).
  destruct (query_measurements_spec client vehicle_id start_dt end_dt mf [] w1)
    as (rows & w' & Hrun & _). rewrite Hrun. by exists rows, w'.
Qed.

(** ** A measurement that is declared again *)

Lemma dict_set_keys {V} k (v v0 : V) d :
  dict_get k d = Some v0 -> (dict_set k v d).*1 = d.*1.
Proof.
  induction d as [|[k' v'] d IH]; [done|]. simpl.
  destruct (String.eqb_spec k' k) as [->|Hne]; [done|].
  intros Hget. simpl. f_equal. by apply IH.
Qed.

(** X7.  A line that starts a block for a measurement the map already has
    replaces that measurement's fields by the one field of the line: the
    fields loaded before are lost, the measurement keeps its place, the
    other measurements are not touched, and tab-separated parts after the
    second are not read. *)
Theorem redeclared_measurement_loses_fields measurements_fields current_measurement
    c0 rest part0 part1 parts old_fields :
  is_space c0 && truthy current_measurement = false ->
  split_tab (strip (String c0 rest)) = part0 :: part1 :: parts ->
  dict_get part0 measurements_fields = Some old_fields ->
  exists measurements_fields',
    load_line (measurements_fields, current_measurement) (String c0 rest)
      = Returns (measurements_fields', Some part0) /\
    dict_get part0 measurements_fields' = Some [part1] /\
    measurements_fields'.*1 = measurements_fields.*1 /\
    (forall m, m <> part0 ->
       dict_get m measurements_fields' = dict_get m measurements_fields).
Proof.
  intros Hcond Hsplit Hold.
  exists (dict_set part0 [part1] measurements_fields). split.
  - unfold load_line. rewrite Hcond, Hsplit.
    destruct (strip (String c0 rest)) eqn:E; [|done].
    simpl in Hsplit. discriminate Hsplit.
  - split; [apply dict_get_set_eq|]. split.
    + by apply (dict_set_keys _ _ old_fields).
    + intros m Hm. by apply dict_get_set_ne.
Qed.

(** The line [A<TAB>g<TAB>h] after [A] was loaded with the fields [f1]
    and [f2]. *)
Lemma redeclared_measurement_loses_fields_witness :
  let line := String "A" (String tab (String "g" (String tab (String "h" newline)))) in
  let before := [("A", ["f1"; "f2"]); ("B", ["x"])] in
  exists after,
    load_line (before, None) line = Returns (after, Some "A") /\
    dict_get "A" after = Some ["g"] /\
    after.*1 = before.*1 /\
    (forall m, m <> "A" -> dict_get m after = dict_get m before).
Proof.
  intros line before.
  apply (redeclared_measurement_loses_fields before None
           "A"%char (String tab (String "g" (String tab (String "h" newline))))
           "A" "g" ["h"] ["f1"; "f2"]); reflexivity.
Defined.

(** ** Writing a channel map out and loading it again *)

Lemma append_String c a b : (String c a ++ b)%string = String c (a ++ b)%string.
Proof. reflexivity. Qed.

Lemma rstrip_app_space s ws :
  rstrip ws = EmptyString -> rstrip (s ++ ws)%string = rstrip s.
Proof.
  intros Hws. induction s as [|c s IH]; simpl; [done|]. by rewrite IH.
Qed.

Lemma rstrip_app_keep a b :
  rstrip b <> EmptyString -> rstrip (a ++ b)%string = (a ++ rstrip b)%string.
Proof.
  intros Hb. induction a as [|c a IH]; [done|].
  rewrite !append_String. cbn [rstrip]. rewrite IH.
  destruct (a ++ rstrip b)%string eqn:E; [|done].
  destruct a; simpl in E; [done|discriminate E].
Qed.

Lemma starts_with_text_inv s :
  starts_with_text s = true -> exists c s', s = String c s' /\ is_space c = false.
Proof.
  destruct s as [|c s']; [done|]. simpl. intros Hc%negb_true_iff. by exists c, s'.
Qed.

Lemma split_tab_app a b :
  has_tab a = false -> split_tab (a ++ String tab b)%string = a :: split_tab b.
Proof.
  induction a as [|c a IH]; simpl; [done|].
  intros [Hc Ha]%orb_false_elim. by rewrite Hc, IH.
Qed.

(** A name read back from the end of a line. *)
Lemma rstrip_name_newline f :
  clean_name f -> rstrip (f ++ newline)%string = f.
Proof.
  intros (_ & Hr & _). by rewrite rstrip_app_space.
Qed.

Lemma clean_name_nonempty f : clean_name f -> f <> EmptyString.
Proof. intros (Hs & _ & _) ->. discriminate Hs. Qed.

Lemma strip_header_line m f :
  clean_name m -> clean_name f ->
  strip (m ++ String tab (f ++ newline))%string = (m ++ String tab f)%string.
Proof.
  intros Hm Hf. destruct (starts_with_text_inv m (proj1 Hm)) as (c & m' & -> & Hc).
  unfold strip. rewrite append_String. cbn [lstrip]. rewrite Hc, <- append_String.
  assert (rstrip (String tab (f ++ newline)) = String tab f) as Htab.
  { cbn [rstrip]. rewrite (rstrip_name_newline f Hf).
    pose proof (clean_name_nonempty f Hf). by destruct f. }
  rewrite rstrip_app_keep; rewrite Htab; done.
Qed.

Lemma strip_name_line m :
  clean_name m -> strip (m ++ newline)%string = m.
Proof.
  intros Hm. destruct (starts_with_text_inv m (proj1 Hm)) as (c & m' & -> & Hc).
  unfold strip. rewrite append_String. cbn [lstrip]. rewrite Hc, <- append_String.
  by apply rstrip_name_newline.
Qed.

Lemma strip_indented_line f :
  clean_name f -> strip (String " " (String " " (f ++ newline)))%string = f.
Proof.
  intros Hf. destruct (starts_with_text_inv f (proj1 Hf)) as (c & f' & -> & Hc).
  unfold strip. rewrite append_String. cbn [lstrip]. simpl is_space. cbn [lstrip].
  rewrite Hc, <- append_String.
  by apply rstrip_name_newline.
Qed.

Lemma dict_get_notin {V} k (d : list (string * V)) : k ∉ d.*1 -> dict_get k d = None.
Proof.
  induction d as [|[k' v'] d IH]; [done|]. simpl. intros Hnin.
  apply not_elem_of_cons in Hnin as [Hne Hnin].
  destruct (String.eqb_spec k' k); [congruence|]. by apply IH.
Qed.

Lemma dict_set_notin {V} k (v : V) d : k ∉ d.*1 -> dict_set k v d = d ++ [(k, v)].
Proof.
  induction d as [|[k' v'] d IH]; [done|]. simpl. intros Hnin.
  apply not_elem_of_cons in Hnin as [Hne Hnin].
  destruct (String.eqb_spec k' k); [congruence|]. by rewrite IH.
Qed.

Lemma dict_get_last {V} k (v : V) d : k ∉ d.*1 -> dict_get k (d ++ [(k, v)]) = Some v.
Proof.
  intros Hnin. rewrite <- (dict_set_notin k v d Hnin). apply dict_get_set_eq.
Qed.

Lemma dict_set_last {V} k (v v' : V) d :
  k ∉ d.*1 -> dict_set k v' (d ++ [(k, v)]) = d ++ [(k, v')].
Proof.
  induction d as [|[k0 v0] d IH]; simpl.
  - by rewrite String.eqb_refl.
  - intros Hnin. apply not_elem_of_cons in Hnin as [Hne Hnin].
    destruct (String.eqb_spec k0 k); [congruence|]. by rewrite IH.
Qed.

Lemma truthy_clean m : clean_name m -> truthy (Some m) = true.
Proof. intros Hm. pose proof (clean_name_nonempty m Hm). by destruct m. Qed.

Lemma load_line_unindented mf cur c rest :
  is_space c = false -> strip (String c rest) <> EmptyString ->
  load_line (mf, cur) (String c rest)
  = match split_tab (strip (String c rest)) with
    | part0 :: part1 :: _ => Returns (dict_set part0 [part1] mf, Some part0)
    | [part0] => Returns (dict_set part0 [] mf, Some part0)
    | [] => Raises IndexError
    end.
Proof.
  intros Hc Hne. unfold load_line.
  destruct (strip (String c rest)) eqn:E; [done|]. by rewrite Hc.
Qed.

Lemma load_line_indented mf m c rest fields :
  is_space c = true -> truthy (Some m) = true ->
  strip (String c rest) <> EmptyString ->
  dict_get m mf = Some fields ->
  load_line (mf, Some m) (String c rest)
  = Returns (dict_set m (fields ++ [strip (String c rest)]) mf, Some m).
Proof.
  intros Hc Hm Hne Hget. unfold load_line.
  destruct (strip (String c rest)) eqn:E; [done|]. by rewrite Hc, Hm, Hget.
Qed.

Lemma load_line_blank mf cur : load_line (mf, cur) newline = Returns (mf, None).
Proof. reflexivity. Qed.

(** The indented lines of a block, one after the other. *)
Lemma load_indented_lines acc m more :
  m ∉ acc.*1 -> clean_name m -> Forall clean_name more ->
  forall fields rest,
    load_lines (acc ++ [(m, fields)], Some m)
      (((fun f => String " " (String " " (f ++ newline))%string) <$> more) ++ rest)
    = load_lines (acc ++ [(m, fields ++ more)], Some m) rest.
Proof.
  intros Hnin Hm. induction 1 as [|f more Hf _ IH]; intros fields rest.
  - by rewrite app_nil_r.
  - rewrite fmap_cons. cbn [app load_lines].
    rewrite (load_line_indented _ m _ _ fields);
      [|done|by apply truthy_clean
        |rewrite (strip_indented_line f Hf); by apply clean_name_nonempty
        |by apply dict_get_last].
    rewrite (strip_indented_line f Hf), dict_set_last by done.
    rewrite IH. by rewrite <- app_assoc.
Qed.

(** One block of the file. *)
Lemma load_block acc cur m fields rest :
  m ∉ acc.*1 -> clean_name m -> Forall clean_name fields ->
  load_lines (acc, cur) (render_block (m, fields) ++ rest)
  = load_lines (acc ++ [(m, fields)], None) rest.
Proof.
  intros Hnin Hm Hfields.
  pose proof (clean_name_nonempty m Hm) as Hmne.
  assert (forall st, load_lines st (newline :: rest) = load_lines (st.1, None) rest) as Hblank.
  { intros [mf cur']. reflexivity. }
  unfold render_block. cbn [fst snd]. destruct fields as [|first more].
  - cbn [app load_lines].
    pose proof (strip_name_line m Hm) as Hstrip.
    assert (split_tab m = [m]) as Hsplit by (apply split_tab_no_tab; apply Hm).
    destruct (starts_with_text_inv m (proj1 Hm)) as (c & m' & -> & Hc).
    rewrite append_String in Hstrip |- *.
    rewrite load_line_unindented, Hstrip, Hsplit by (done || by rewrite Hstrip).
    rewrite load_line_blank. by rewrite dict_set_notin.
  - apply Forall_cons in Hfields as [Hfirst Hmore].
    rewrite <- app_assoc. cbn [app load_lines].
    pose proof (strip_header_line m first Hm Hfirst) as Hstrip.
    assert ((m ++ String tab first)%string <> EmptyString) as Hne.
    { destruct m; [done|]. by rewrite append_String. }
    pose proof (split_tab_app m first (proj1 (proj2 (proj2 Hm)))) as Hsplit.
    rewrite (split_tab_no_tab first) in Hsplit by apply Hfirst.
    pose proof (load_indented_lines acc m more Hnin Hm Hmore [first] (newline :: rest))
      as Hmore'.
    destruct (starts_with_text_inv m (proj1 Hm)) as (c & m' & -> & Hc).
    rewrite append_String in Hstrip |- *.
    rewrite load_line_unindented, Hstrip, Hsplit by (done || by rewrite Hstrip).
    rewrite dict_set_notin by done. rewrite Hmore'.
    by rewrite Hblank.
Qed.

Lemma load_rendered blocks :
  forall acc,
    NoDup (acc.*1 ++ blocks.*1) ->
    Forall (fun block => clean_name block.1 /\ Forall clean_name block.2) blocks ->
    load_lines (acc, None) (render_measurements_fields blocks)
    = Returns (acc ++ blocks, None).
Proof.
  induction blocks as [|[m fields] blocks IH]; intros acc Hnd Hclean.
  - simpl. by rewrite app_nil_r.
  - apply Forall_cons in Hclean as [[Hm Hfields] Hclean].
    unfold render_measurements_fields. rewrite fmap_cons. cbn [concat].
    fold (render_measurements_fields blocks).
    rewrite load_block; [| |done|done].
    + rewrite IH; [by rewrite <- app_assoc| |done].
      rewrite fmap_app. simpl in *. by rewrite <- app_assoc.
    + simpl in Hnd. apply NoDup_app in Hnd as (_ & Hdisj & _).
      intros Hin. apply (Hdisj m Hin). by left.
Qed.

Lemma append_assoc_String a b c : ((a ++ b) ++ c)%string = (a ++ (b ++ c))%string.
Proof.
  induction a as [|x a IH]; [done|]. by rewrite !append_String, IH.
Qed.

Lemma single_line_app a b :
  single_line (a ++ b)%string = single_line a && single_line b.
Proof.
  induction a as [|x a IH]; [done|].
  rewrite append_String. cbn [single_line]. rewrite IH. by rewrite andb_assoc.
Qed.

(** The file iterator cuts the text after the line feed of a whole line. *)
Lemma file_lines_whole_line body rest :
  single_line body = true ->
  file_lines ((body ++ newline) ++ rest)%string = (body ++ newline)%string :: file_lines rest.
Proof.
  induction body as [|x body IH]; intros Hs; [done|].
  cbn [single_line] in Hs.
  apply andb_true_iff in Hs as [[Hlf Hcr]%andb_true_iff Hs].
  apply negb_true_iff in Hlf, Hcr.
  rewrite !append_String. cbn [file_lines]. rewrite Hlf, Hcr.
  by rewrite (IH Hs).
Qed.

Lemma file_lines_file_text lines :
  Forall whole_line lines -> file_lines (file_text lines) = lines.
Proof.
  induction 1 as [|line lines (body & -> & Hbody) _ IH]; [done|].
  cbn [file_text foldr]. fold (file_text lines).
  by rewrite (file_lines_whole_line body _ Hbody), IH.
Qed.

Lemma clean_name_whole_line prefix f :
  single_line prefix = true -> clean_name f -> whole_line (prefix ++ (f ++ newline))%string.
Proof.
  intros Hp (_ & _ & _ & Hf). exists (prefix ++ f)%string. split.
  - by rewrite append_assoc_String.
  - by rewrite single_line_app, Hp, Hf.
Qed.

Lemma render_block_whole_lines m fields :
  clean_name m -> Forall clean_name fields ->
  Forall whole_line (render_block (m, fields)).
Proof.
  intros Hm Hfields. unfold render_block. cbn [fst snd].
  apply Forall_app. split; [|repeat constructor; by exists EmptyString].
  destruct Hfields as [|first more Hfirst Hmore].
  - repeat constructor. by apply (clean_name_whole_line EmptyString m).
  - constructor.
    + destruct (clean_name_whole_line (m ++ String tab EmptyString) first)
        as (body & Hbody & Hsingle); [|done|].
      { rewrite single_line_app. destruct Hm as (_ & _ & _ & ->). done. }
      exists body. split; [|done]. rewrite <- Hbody.
      by rewrite append_assoc_String.
    + apply Forall_fmap. eapply Forall_impl; [exact Hmore|]. intros f Hf.
      by apply (clean_name_whole_line "  " f).
Qed.

(** The file laid out for a channel map has the lines of the layout. *)
Lemma file_lines_rendered blocks :
  Forall (fun block => clean_name block.1 /\ Forall clean_name block.2) blocks ->
  file_lines (file_text (render_measurements_fields blocks))
  = render_measurements_fields blocks.
Proof.
  intros Hclean. apply file_lines_file_text.
  unfold render_measurements_fields.
  induction Hclean as [|[m fields] blocks [Hm Hfields] _ IH]; [constructor|].
  rewrite fmap_cons. cbn [concat]. apply Forall_app. split; [|exact IH].
  by apply render_block_whole_lines.
Qed.

(** X8.  A channel map whose measurements are distinct and whose names are
    clean (they begin and end with a character that is not white space and
    have no tab and no line end) is loaded back unchanged, in the same
    order, from the file whose text lays it out as the docstring says. *)
Theorem channel_map_round_trip blocks :
  NoDup blocks.*1 ->
  Forall (fun block => clean_name block.1 /\ Forall clean_name block.2) blocks ->
  load_measurements_fields (Content (file_text (render_measurements_fields blocks)))
  = Returns blocks.
Proof.
  intros Hnd Hclean. unfold load_measurements_fields.
  rewrite (file_lines_rendered blocks Hclean).
  by rewrite (load_rendered blocks []).
Qed.

(** Two blocks and a measurement without fields. *)
Lemma channel_map_round_trip_witness :
  let blocks := [ ("Zekrom_BMS_02", ["BMS_BatteryCurrent"; "BMS_BatteryVoltage"]);
                  ("Zekrom_MC_06", ["mcRear_Status"]);
                  ("spare", []) ] in
  load_measurements_fields (Content (file_text (render_measurements_fields blocks)))
  = Returns blocks.
Proof.
  intros blocks. apply channel_map_round_trip.
  - compute_done.
  - unfold clean_name. repeat constructor; vm_compute; reflexivity.
Defined.

(** * Properties of the data processor *)

(** ** Result keys read back *)

Lemma split_first_dot_no_dot m r :
  has_dot m = false -> split_first_dot (m ++ String "." r)%string = (m, Some r).
Proof.
  induction m as [|c m IH]; [done|]. simpl has_dot.
  intros [Hc Hm]%orb_false_elim. rewrite append_String. cbn [split_first_dot].
  by rewrite Hc, IH.
Qed.

Lemma split_first_dot_shorter m x :
  has_dot m = true ->
  exists before after,
    split_first_dot (m ++ x)%string = (before, after) /\
    (String.length before < String.length m)%nat.
Proof.
  induction m as [|c m IH]; [done|]. simpl has_dot. rewrite append_String.
  cbn [split_first_dot]. destruct (Ascii.eqb c ".") eqn:Hc.
  - intros _. eexists _, _. split; [done|]. simpl. lia.
  - simpl. intros Hm. destruct (IH Hm) as (before & after & -> & Hlen).
    eexists _, _. split; [done|]. simpl. lia.
Qed.

Lemma length_remove_from old s :
  forall k, (String.length (remove_from old k s) <= String.length s)%nat.
Proof.
  induction s as [|c s IH]; intros k; [done|]. cbn [remove_from].
  destruct k as [|k].
  - destruct (String.prefix old (String c s)).
    + specialize (IH (String.length old - 1)%nat). simpl. lia.
    + specialize (IH O). simpl. lia.
  - specialize (IH k). simpl. lia.
Qed.

Lemma remove_from_no_occurrence old s :
  occurs old s = false -> remove_from old 0 s = s.
Proof.
  induction s as [|c s IH]; [done|]. cbn [occurs remove_from].
  intros [Hp Hs]%orb_false_elim. rewrite Hp. by rewrite IH.
Qed.

Lemma remove_from_occurrence old s :
  old <> EmptyString -> occurs old s = true ->
  (String.length (remove_from old 0 s) < String.length s)%nat.
Proof.
  intros Hold. induction s as [|c s IH].
  - simpl. destruct old; [done|]. discriminate.
  - cbn [occurs remove_from]. destruct (String.prefix old (String c s)) eqn:Hp.
    + intros _. pose proof (length_remove_from old s (String.length old - 1)). simpl. lia.
    + simpl. intros Hs. specialize (IH Hs). lia.
Qed.

Lemma remove_count_prefix field :
  remove_count_ ("count_" ++ field)%string = remove_count_ field.
Proof. unfold remove_count_. destruct field; reflexivity. Qed.

(** X9.  The key [run_queries] writes for a measurement and a field,
    [measurement.count_field], is read back by [process_file] as that
    measurement and field exactly when the measurement has no dot and the
    field has no [count_] in it.  When the measurement has no dot the
    measurement is read back as it is and the field with every [count_]
    taken out. *)
Theorem result_key_read_back measurement field :
  (has_dot measurement = false ->
   metric_columns (pair_key (measurement, field))
   = Some (measurement, remove_count_ field)) /\
  (metric_columns (pair_key (measurement, field)) = Some (measurement, field)
   <-> has_dot measurement = false /\ occurs "count_" field = false).
Proof.
  assert (pair_key (measurement, field)
          = (measurement ++ String "." ("count_" ++ field))%string) as Hkey by reflexivity.
  assert (has_dot measurement = false ->
          metric_columns (pair_key (measurement, field))
          = Some (measurement, remove_count_ field)) as Hplain.
  { intros Hm. unfold metric_columns. rewrite Hkey, split_first_dot_no_dot by done.
    do 2 f_equal. apply remove_count_prefix. }
  split; [exact Hplain|]. split.
  - intros Hparse. destruct (has_dot measurement) eqn:Hm.
    + exfalso. unfold metric_columns in Hparse. rewrite Hkey in Hparse.
      destruct (split_first_dot_shorter measurement (String "." ("count_" ++ field)) Hm)
        as (before & after & Heq & Hlen).
      rewrite Heq in Hparse. destruct after; [|done].
      injection Hparse as -> _. lia.
    + split; [done|]. rewrite (Hplain eq_refl) in Hparse. injection Hparse as Hrem.
      destruct (occurs "count_" field) eqn:Hocc; [|done].
      apply (remove_from_occurrence "count_") in Hocc; [|done].
      unfold remove_count_ in Hrem. rewrite Hrem in Hocc. lia.
  - intros [Hm Hocc]. rewrite (Hplain Hm). unfold remove_count_.
    by rewrite remove_from_no_occurrence.
Qed.

(** A field of the channel map is read back; a field with [count_] in its
    name and a measurement with a dot are not. *)
Lemma result_key_read_back_witness :
  metric_columns (pair_key ("Zekrom_BMS_02", "BMS_BatteryVoltage"))
    = Some ("Zekrom_BMS_02", "BMS_BatteryVoltage") /\
  metric_columns (pair_key ("trip", "cycle_count_total")) = Some ("trip", "cycle_total") /\
  metric_columns (pair_key ("db.trip", "speed")) = Some ("db", "trip.speed").
Proof.
  split; [|split; reflexivity].
  apply (result_key_read_back "Zekrom_BMS_02" "BMS_BatteryVoltage"). split; reflexivity.
Defined.

(** ** The check list *)

Lemma elem_of_unique_from seen l x :
  x ∈ unique_from seen l <-> x ∈ l /\ x ∉ seen.
Proof.
  revert seen. induction l as [|y l IH]; intros seen; cbn [unique_from].
  - rewrite elem_of_nil. naive_solver.
  - case_decide as Hy.
    + rewrite IH, elem_of_cons. naive_solver.
    + rewrite !elem_of_cons, IH, elem_of_cons. split.
      * intros [-> | (Hx & Hn)]; [naive_solver|]. split; [by right|]. naive_solver.
      * intros ([-> | Hx] & Hn); [by left|].
        destruct (decide (x = y)) as [-> | Hne]; [by left|]. right. naive_solver.
Qed.

Lemma NoDup_unique_from seen l : NoDup (unique_from seen l).
Proof.
  revert seen. induction l as [|y l IH]; intros seen; cbn [unique_from]; [constructor|].
  case_decide; [apply IH|]. constructor; [|apply IH].
  rewrite elem_of_unique_from, elem_of_cons. naive_solver.
Qed.

Lemma drop_duplicates_from_keys seen label rows :
  cell label <$> drop_duplicates_from seen label rows
  = unique_from seen (cell label <$> rows).
Proof.
  revert seen. induction rows as [|row rows IH]; intros seen; [done|].
  rewrite fmap_cons. cbn [drop_duplicates_from unique_from].
  case_decide; [apply IH|]. by rewrite fmap_cons, IH.
Qed.

Lemma drop_duplicates_from_sublist seen label rows :
  sublist (drop_duplicates_from seen label rows) rows.
Proof.
  revert seen. induction rows as [|row rows IH]; intros seen;
    cbn [drop_duplicates_from]; [constructor|].
  case_decide; [apply sublist_cons | apply sublist_skip]; apply IH.
Qed.

Lemma first_row_drop_duplicates_from seen label k rows :
  first_row label k (drop_duplicates_from seen label rows)
  = if decide (k ∈ seen) then None else first_row label k rows.
Proof.
  unfold first_row. revert seen.
  induction rows as [|row rows IH]; intros seen; cbn [drop_duplicates_from List.find].
  - by case_decide.
  - case_decide as Hs.
    + rewrite IH. case_bool_decide as Hk; [|done]. subst k. by case_decide.
    + cbn [List.find]. case_bool_decide as Hk.
      * subst k. by case_decide.
      * rewrite IH. repeat case_decide; try done.
        -- exfalso. set_solver.
        -- exfalso. set_solver.
Qed.

Lemma drop_duplicates_from_unique seen label rows :
  NoDup (cell label <$> rows) ->
  (forall k, k ∈ (cell label <$> rows) -> k ∉ seen) ->
  drop_duplicates_from seen label rows = rows.
Proof.
  revert seen. induction rows as [|row rows IH]; intros seen Hnd Hseen; [done|].
  rewrite fmap_cons in Hnd, Hseen. apply NoDup_cons in Hnd as [Hrow Hnd].
  cbn [drop_duplicates_from]. rewrite decide_False by (apply Hseen; by left).
  f_equal. apply IH; [done|]. intros k Hk. rewrite elem_of_cons.
  intros [-> | Hin]; [done|]. revert Hin. apply Hseen. by right.
Qed.

Lemma find_key_unique (d : list (option value * option value)) kv :
  NoDup d.*1 -> kv ∈ d ->
  List.find (fun x => bool_decide (x.1 = kv.1)) d = Some kv.
Proof.
  induction d as [|x d IH]; intros Hnd Hin; [by apply elem_of_nil in Hin|].
  rewrite fmap_cons in Hnd. apply NoDup_cons in Hnd as [Hx Hnd]. cbn [List.find].
  apply elem_of_cons in Hin as [-> | Hin]; [by rewrite bool_decide_true|].
  rewrite bool_decide_false; [by apply IH|].
  intros Heq. apply Hx. rewrite Heq. by apply list_elem_of_fmap_2.
Qed.

Lemma find_key_none (d : list (option value * option value)) k :
  k ∉ d.*1 -> List.find (fun x => bool_decide (x.1 = k)) d = None.
Proof.
  induction d as [|x d IH]; intros Hk; [done|].
  rewrite fmap_cons, not_elem_of_cons in Hk. destruct Hk as [Hne Hk].
  cbn [List.find]. rewrite bool_decide_false by done. by apply IH.
Qed.

Lemma dict_lookup_unique d k :
  NoDup d.*1 ->
  dict_lookup d k = snd <$> List.find (fun x => bool_decide (x.1 = k)) d.
Proof.
  intros Hnd. unfold dict_lookup. destruct (decide (k ∈ d.*1)) as [Hin | Hin].
  - apply list_elem_of_fmap in Hin as (kv & -> & Hkv).
    rewrite (find_key_unique d kv) by done.
    rewrite (find_key_unique (reverse d) kv); [done| |by apply elem_of_reverse].
    rewrite fmap_reverse. by rewrite reverse_Permutation.
  - rewrite (find_key_none d) by done.
    rewrite (find_key_none (reverse d)); [done|].
    rewrite fmap_reverse, elem_of_reverse. done.
Qed.

Lemma find_to_dict index column k rows :
  List.find (fun x : option value * option value => bool_decide (x.1 = k))
    ((fun row => (cell index row, cell column row)) <$> rows)
  = (fun row => (cell index row, cell column row)) <$> first_row index k rows.
Proof.
  unfold first_row. induction rows as [|row rows IH]; [done|].
  rewrite fmap_cons. cbn [List.find fst]. case_bool_decide; [done|]. apply IH.
Qed.

Lemma map_dict_unique index column df k :
  NoDup (cell index <$> df_rows df) ->
  map_dict (to_dict index column df) k
  = first_row index k (df_rows df) ≫= cell column.
Proof.
  intros Hnd. unfold map_dict, to_dict. rewrite dict_lookup_unique.
  - rewrite find_to_dict. by destruct (first_row index k (df_rows df)).
  - by rewrite <- list_fmap_compose.
Qed.

Lemma validate_files_Ok input_data v v' :
  validate_files input_data v = Ok v' ->
  Forall (fun column => column ∈ df_columns v) required_columns
  /\ v' = drop_duplicates name_column v.
Proof. unfold validate_files. case_decide; [|done]. intros [= <-]. done. Qed.

(** X10.  [validate_files] refuses a check list exactly when one of the
    three required columns is missing, and then names the missing ones.
    Otherwise it returns the check list with the same columns and, of the
    rows for one field name, the first only: the rows kept are in the
    order they had, no field name occurs twice, every field name still
    has its first row, and validating the result again changes nothing. *)
Theorem validate_files_keeps_first_rows input_data v :
  (Forall (fun column => column ∈ df_columns v) required_columns
   /\ exists v',
        validate_files input_data v = Ok v'
        /\ df_columns v' = df_columns v
        /\ sublist (df_rows v') (df_rows v)
        /\ NoDup (cell name_column <$> df_rows v')
        /\ (forall k, first_row name_column k (df_rows v')
                     = first_row name_column k (df_rows v))
        /\ validate_files input_data v' = Ok v')
  \/ (exists missing,
        validate_files input_data v = Failed (MissingColumns missing)
        /\ (exists column, column ∈ missing)
        /\ forall column,
             column ∈ missing <-> column ∈ required_columns /\ column ∉ df_columns v).
Proof.
  unfold validate_files. case_decide as Hreq.
  - left. split; [done|]. eexists. split; [done|].
    assert (Hnd : NoDup (cell name_column <$> df_rows (drop_duplicates name_column v))).
    { cbn [drop_duplicates df_rows]. rewrite drop_duplicates_from_keys.
      apply NoDup_unique_from. }
    repeat split.
    + apply drop_duplicates_from_sublist.
    + done.
    + intros k. cbn [drop_duplicates df_rows].
      rewrite first_row_drop_duplicates_from. rewrite decide_False; [done|].
      apply not_elem_of_nil.
    + rewrite decide_True by done. f_equal. unfold drop_duplicates at 1.
      cbn [df_columns]. unfold drop_duplicates at 3. f_equal.
      apply drop_duplicates_from_unique; [done|]. intros k _. apply not_elem_of_nil.
  - right. eexists. split; [done|]. split.
    + apply not_Forall_Exists in Hreq; [|intros x; apply _].
      apply Exists_exists in Hreq as (column & Hin & Hno). exists column.
      apply elem_of_difference. split; [|done]. by apply elem_of_list_to_set.
    + intros column. by rewrite elem_of_difference, elem_of_list_to_set.
Qed.

Lemma zip_with_insert_fmap name (g : gmap string (option value) -> option value) rows :
  zip_with (fun row c => <[name := c]> row) rows (g <$> rows)
  = (fun row => <[name := g row]> row) <$> rows.
Proof.
  induction rows as [|row rows IH]; [done|].
  rewrite !fmap_cons. cbn [zip_with]. by rewrite IH.
Qed.

Lemma map_dict_validated column v k :
  map_dict (to_dict name_column column (drop_duplicates name_column v)) k
  = first_value column k (df_rows v).
Proof.
  rewrite map_dict_unique.
  - unfold first_value. cbn [drop_duplicates df_rows].
    rewrite first_row_drop_duplicates_from. rewrite decide_False; [done|].
    apply not_elem_of_nil.
  - cbn [drop_duplicates df_rows]. rewrite drop_duplicates_from_keys.
    apply NoDup_unique_from.
Qed.

(** X11.  For a check list that [validate_files] accepted, [map_values]
    gives every row of the input data the CAN map and the time of the
    first row the original check list has for the row's field name, and
    NA where the check list has no such row; it changes no other cell and
    neither adds nor drops a row. *)
Theorem mapped_values_come_from_first_row input_data v v' :
  validate_files input_data v = Ok v' ->
  name_column ∈ df_columns input_data ->
  map_values input_data v'
  = Ok {| df_columns := {[time_column]} ∪ ({[can_column]} ∪ df_columns input_data);
          df_rows :=
            (fun row =>
               <[time_column := first_value time_column (cell name_column row) (df_rows v)]>
                 (<[can_column := first_value can_column (cell name_column row) (df_rows v)]>
                    row))
              <$> df_rows input_data |}.
Proof.
  intros Hv Hname. apply validate_files_Ok in Hv as (Hreq & ->).
  assert (Hcols : forall c, c ∈ required_columns ->
                            c ∈ df_columns (drop_duplicates name_column v)).
  { intros c Hc. cbn [drop_duplicates df_columns].
    by apply (proj1 (Forall_forall _ _) Hreq). }
  unfold map_values.
  destruct (decide (name_column ∈ df_columns (drop_duplicates name_column v)))
    as [_ | []]; [|apply Hcols; compute_done].
  destruct (decide (can_column ∈ df_columns (drop_duplicates name_column v)))
    as [_ | []]; [|apply Hcols; compute_done].
  destruct (decide (time_column ∈ df_columns (drop_duplicates name_column v)))
    as [_ | []]; [|apply Hcols; compute_done].
  rewrite decide_True by done. f_equal.
  unfold set_column. cbn [df_columns df_rows]. f_equal.
  rewrite <- !list_fmap_compose. rewrite !zip_with_insert_fmap.
  rewrite <- list_fmap_compose. apply list_fmap_ext. intros _ row _. unfold compose.
  assert (Hcell : forall c, cell name_column (<[can_column := c]> row)
                            = cell name_column row).
  { intros c. unfold cell. by rewrite lookup_insert_ne. }
  by rewrite Hcell, !map_dict_validated.
Qed.

Lemma mapped_values_come_from_first_row_witness :
  let named (name can : string) (t : Z) : gmap string (option value) :=
    {[ name_column := Some (VStr name); can_column := Some (VStr can);
       time_column := Some (VInt t) ]} in
  let v := {| df_columns := {[ name_column; can_column; time_column ]};
              df_rows := [named "speed" "0x10" 100; named "speed" "0x20" 500] |} in
  let input_data :=
    {| df_columns := {[ name_column ]};
       df_rows := [ {[ name_column := Some (VStr "speed") ]};
                    {[ name_column := Some (VStr "rpm") ]} ] |} in
  exists out,
    map_values input_data (drop_duplicates name_column v) = Ok out
    /\ (cell can_column <$> df_rows out) = [Some (VStr "0x10"); None]
    /\ (cell time_column <$> df_rows out) = [Some (VInt 100); None].
Proof.
  intros named v input_data. eexists. split.
  - apply (mapped_values_come_from_first_row input_data v); [reflexivity | compute_done].
  - split; reflexivity.
Defined.

Lemma apply_check_Ok columns rows v available :
  apply_check columns rows v = Ok available ->
  Forall2 (fun row answer => check_valid_file columns row v = Ok answer) rows available.
Proof.
  revert available. induction rows as [|row rows IH]; intros available;
    cbn [apply_check].
  - intros [= <-]. constructor.
  - destruct (check_valid_file columns row v) as [answer|] eqn:Hc; [|done].
    destruct (apply_check columns rows v) as [answers|] eqn:Ha; [|done].
    intros [= <-]. constructor; [done|]. by apply IH.
Qed.

Lemma check_valid_file_No columns row v answer :
  check_valid_file columns row v = Ok answer ->
  answer = "No"
  <-> (~ in_values (cell name_column row) (cell name_column <$> df_rows v)
       \/ cell value_column row = None).
Proof.
  unfold check_valid_file. repeat case_decide; try done.
  - destruct (cell value_column row); intros [= <-]; split; try done.
    + intros [Hno | ?]; done.
    + by right.
  - intros [= <-]. split; [by left | done].
Qed.

Lemma elem_of_unavailable columns rows v available k :
  Forall2 (fun row answer => check_valid_file columns row v = Ok answer) rows available ->
  k ∈ ((fun ra : gmap string (option value) * string => cell name_column ra.1)
         <$> filter (fun ra => ra.2 = "No") (zip rows available))
  <-> exists row, row ∈ rows /\ cell name_column row = k
        /\ (~ in_values k (cell name_column <$> df_rows v)
            \/ cell value_column row = None).
Proof.
  induction 1 as [|row answer rows available Hc _ IH].
  - cbn. rewrite elem_of_nil. split; [done|]. intros (row & Hin & _).
    by apply elem_of_nil in Hin.
  - cbn [zip_with]. apply check_valid_file_No in Hc. rewrite filter_cons. cbn [snd].
    case_decide as Hno.
    + rewrite fmap_cons, elem_of_cons, IH. cbn [fst]. split.
      * intros [-> | (r & Hin & Hk & Hr)].
        -- exists row. split; [by left|]. split; [done|]. by apply Hc.
        -- exists r. split; [by right | done].
      * intros (r & Hin & Hk & Hr). apply elem_of_cons in Hin as [-> | Hin].
        -- by left.
        -- right. by exists r.
    + rewrite IH. split.
      * intros (r & Hin & Hk & Hr). exists r. split; [by right | done].
      * intros (r & Hin & Hk & Hr). apply elem_of_cons in Hin as [-> | Hin].
        -- exfalso. apply Hno, Hc. by rewrite Hk.
        -- by exists r.
Qed.

(** X12.  When the availability check of [process_file] goes through, the
    two lists of missing fields it shows hold no value twice.  The first
    holds the field names of the input rows that are not among the field
    names of the check list or whose Value is NA, so a field of the check
    list is listed as missing there when one of its rows has no Value.
    The second holds the field names of the check list that no input row
    has.  No field name is in both lists. *)
Theorem missing_field_lists input_data v available :
  apply_check (df_columns input_data) (df_rows input_data) v = Ok available ->
  NoDup (missing_in_valid_file input_data available)
  /\ NoDup (missing_in_input_data input_data v)
  /\ (forall k,
        k ∈ missing_in_valid_file input_data available
        <-> exists row, row ∈ df_rows input_data /\ cell name_column row = k
              /\ (~ in_values k (cell name_column <$> df_rows v)
                  \/ cell value_column row = None))
  /\ (forall k,
        k ∈ missing_in_input_data input_data v
        <-> k ∈ (cell name_column <$> df_rows v)
            /\ k ∉ (cell name_column <$> df_rows input_data))
  /\ (forall k,
        k ∈ missing_in_valid_file input_data available ->
        k ∉ missing_in_input_data input_data v).
Proof.
  intros Hav. apply apply_check_Ok in Hav.
  assert (Hfirst : forall k,
            k ∈ missing_in_valid_file input_data available
            <-> exists row, row ∈ df_rows input_data /\ cell name_column row = k
                  /\ (~ in_values k (cell name_column <$> df_rows v)
                      \/ cell value_column row = None)).
  { intros k. unfold missing_in_valid_file, unique.
    rewrite elem_of_unique_from, (elem_of_unavailable _ _ _ _ _ Hav).
    split; [by intros [? _] | intros ?; split; [done | apply not_elem_of_nil]]. }
  assert (Hsecond : forall k,
            k ∈ missing_in_input_data input_data v
            <-> k ∈ (cell name_column <$> df_rows v)
                /\ k ∉ (cell name_column <$> df_rows input_data)).
  { intros k. unfold missing_in_input_data, unique.
    rewrite elem_of_unique_from. split.
    - intros (Hk & _). apply list_elem_of_fmap in Hk as (row & -> & Hrow).
      apply list_elem_of_filter in Hrow as [Hno Hrow].
      split; [by apply list_elem_of_fmap_2 | done].
    - intros (Hk & Hno). apply list_elem_of_fmap in Hk as (row & -> & Hrow).
      split; [|apply not_elem_of_nil].
      apply list_elem_of_fmap_2. by apply list_elem_of_filter. }
  split; [apply NoDup_unique_from|]. split; [apply NoDup_unique_from|].
  split; [exact Hfirst|]. split; [exact Hsecond|].
  intros k Hk Hk2. apply Hfirst in Hk as (row & Hin & Hrow & _).
  apply Hsecond in Hk2 as [_ Hno]. apply Hno. rewrite <- Hrow.
  by apply list_elem_of_fmap_2.
Qed.

Lemma missing_field_lists_witness :
  let named (name : string) (count : option value) : gmap string (option value) :=
    {[ name_column := Some (VStr name); value_column := count ]} in
  let input_data :=
    {| df_columns := {[ name_column; value_column ]};
       df_rows := [named "speed" (Some (VInt 7)); named "speed" None;
                   named "rpm" (Some (VInt 3)); named "temp" (Some (VInt 1))] |} in
  let v := {| df_columns := {[ name_column ]};
              df_rows := [ {[ name_column := Some (VStr "speed") ]};
                           {[ name_column := Some (VStr "temp") ]};
                           {[ name_column := Some (VStr "soc") ]} ] |} in
  apply_check (df_columns input_data) (df_rows input_data) v
    = Ok ["Yes"; "No"; "No"; "Yes"]
  /\ missing_in_valid_file input_data ["Yes"; "No"; "No"; "Yes"]
     = [Some (VStr "speed"); Some (VStr "rpm")]
  /\ missing_in_input_data input_data v = [Some (VStr "soc")]
  /\ NoDup (missing_in_valid_file input_data ["Yes"; "No"; "No"; "Yes"]).
Proof.
  intros named input_data v.
  split; [reflexivity|]. split; [reflexivity|]. split; [reflexivity|].
  apply (missing_field_lists input_data v ["Yes"; "No"; "No"; "Yes"]). reflexivity.
Defined.

(** X13.  The availability check reads the Value of a row only when the
    row's field name is in the check list.  So on an input with the field
    name column it goes through, with one answer a row, when the input has
    a Value column or none of its fields is in the check list; on an input
    without a Value column of which some field is in the check list it
    fails for the missing column. *)
Theorem availability_needs_value_column columns rows v :
  name_column ∈ columns ->
  ((value_column ∈ columns
    \/ Forall (fun row => ~ in_values (cell name_column row)
                             (cell name_column <$> df_rows v)) rows)
   /\ exists available,
        apply_check columns rows v = Ok available
        /\ length available = length rows
        /\ Forall (fun answer => answer = "Yes" \/ answer = "No") available)
  \/ ((value_column ∉ columns)
      /\ Exists (fun row => in_values (cell name_column row)
                              (cell name_column <$> df_rows v)) rows
      /\ apply_check columns rows v = Failed (NoColumn value_column)).
Proof.
  intros Hname. induction rows as [|row rows IH].
  - left. split; [right; constructor|]. exists []. repeat split. constructor.
  - cbn [apply_check]. unfold check_valid_file.
    rewrite !(decide_True (P := name_column ∈ columns)) by done.
    destruct IH as [(Hok & available & -> & Hlen & Hans) | (Hno & Hex & ->)].
    + destruct (decide (in_values (cell name_column row)
                          (cell name_column <$> df_rows v))) as [Hrow | Hrow].
      * destruct (decide (value_column ∈ columns)) as [Hval | Hval].
        -- left. split; [by left|].
           destruct (cell value_column row); eexists; (split; [done|]);
             (split; [cbn; by rewrite Hlen|]); constructor; auto.
        -- right. split; [done|]. split; [by constructor|done].
      * left. split.
        -- destruct Hok as [Hval | Hall]; [by left|]. right. by constructor.
        -- eexists. split; [done|]. split; [cbn; by rewrite Hlen|]. constructor; auto.
    + right. split; [done|]. split; [by apply Exists_cons_tl|].
      destruct (decide (in_values (cell name_column row)
                          (cell name_column <$> df_rows v))) as [Hrow | Hrow]; [|done].
      by rewrite decide_False.
Qed.

Lemma availability_needs_value_column_witness :
  let columns : gset string := {[ name_column ]} in
  let rows : list (gmap string (option value)) :=
    [ {[ name_column := Some (VStr "rpm") ]}; {[ name_column := Some (VStr "speed") ]} ] in
  let v := {| df_columns := {[ name_column ]};
              df_rows := [ {[ name_column := Some (VStr "speed") ]} ] |} in
  apply_check columns rows v = Failed (NoColumn value_column).
Proof.
  intros columns rows v.
  destruct (availability_needs_value_column columns rows v) as
    [(_ & available & Hok & _) | (_ & _ & Hfail)].
  - compute_done.
  - discriminate Hok.
  - exact Hfail.
Defined.

(** * Properties of the schema queries *)

Lemma dict_get_NoDup {V} k (v : V) d :
  NoDup d.*1 -> (k, v) ∈ d -> dict_get k d = Some v.
Proof.
  induction d as [|[k' v'] d IH]; intros Hnd Hin; [by apply elem_of_nil in Hin|].
  rewrite fmap_cons in Hnd. apply NoDup_cons in Hnd as [Hk Hnd]. cbn [dict_get].
  apply elem_of_cons in Hin as [[= -> ->] | Hin]; [by rewrite String.eqb_refl|].
  destruct (String.eqb_spec k' k) as [-> | Hne]; [|by apply IH].
  exfalso. apply Hk. by apply (list_elem_of_fmap_2 fst _ (k, v)).
Qed.

Lemma field_keys_typed keys :
  field_keys ((fun key => [("fieldKey", key); ("fieldType", "float")]) <$> keys)
  = Returns keys.
Proof.
  induction keys as [|key keys IH]; [done|].
  rewrite fmap_cons. cbn [field_keys]. by rewrite IH.
Qed.

Lemma fetch_loop_schema schema done todo sent :
  NoDup schema.*1 -> schema = done ++ todo ->
  fetch_loop (schema_client schema) ((fun mf => [("name", mf.1)]) <$> todo) done sent
  = (Returns schema, sent ++ (ShowFieldKeys <$> todo.*1)).
Proof.
  intros Hnd. revert done sent.
  induction todo as [|[m fs] todo IH]; intros done sent Heq.
  - rewrite app_nil_r in Heq. subst done. cbn. by rewrite app_nil_r.
  - rewrite !fmap_cons. cbn [fetch_loop fst].
    replace (dict_get "name" [("name", m)]) with (Some m) by reflexivity.
    unfold schema_query, schema_client.
    rewrite (dict_get_NoDup m fs schema Hnd)
      by (rewrite Heq, elem_of_app; right; by left).
    cbn [default]. rewrite field_keys_typed.
    assert (Hfresh : m ∉ done.*1).
    { rewrite Heq, fmap_app, fmap_cons in Hnd.
      apply NoDup_app in Hnd as (_ & Hdis & _). intros Hin.
      apply (Hdis m Hin). by left. }
    cbn [id]. fold (schema_client schema).
    rewrite (dict_set_notin m fs done Hfresh).
    rewrite IH by (by rewrite <- app_assoc).
    by rewrite <- app_assoc.
Qed.

(** X14.  Against a database that lists each of its measurements once,
    [fetch_measurements_and_fields] returns the measurements in the order
    the database lists them, each with its field keys in their order, the
    field types left out.  It asks for the measurements first and then for
    the field keys of each measurement, one query a measurement. *)
Theorem fetch_returns_schema schema :
  NoDup schema.*1 ->
  fetch_measurements_and_fields (schema_client schema) []
  = (Returns schema, ShowMeasurements :: (ShowFieldKeys <$> schema.*1)).
Proof.
  intros Hnd. unfold fetch_measurements_and_fields, schema_query.
  cbn [schema_client]. by rewrite (fetch_loop_schema schema [] schema).
Qed.

Lemma fetch_returns_schema_witness :
  fetch_measurements_and_fields
    (schema_client [("bms", ["voltage"; "current"]); ("trip", [])]) []
  = (Returns [("bms", ["voltage"; "current"]); ("trip", [])],
     [ShowMeasurements; ShowFieldKeys "bms"; ShowFieldKeys "trip"]).
Proof.
  apply (fetch_returns_schema [("bms", ["voltage"; "current"]); ("trip", [])]).
  compute_done.
Defined.

Lemma fetch_loop_failure client measurements d sent :
  exists new,
    (fetch_loop client measurements d sent).2 = sent ++ new
    /\ forall j q, new !! j = Some q ->
         client (length sent + j)%nat q = SchemaFailure ->
         (fetch_loop client measurements d sent).1 = Raises InfluxError
         /\ S j = length new.
Proof.
  revert d sent. induction measurements as [|measurement rest IH]; intros d sent.
  - exists []. cbn. split; [by rewrite app_nil_r | done].
  - cbn [fetch_loop]. destruct (dict_get "name" measurement) as [m|].
    2:{ exists []. cbn. split; [by rewrite app_nil_r | done]. }
    unfold schema_query.
    destruct (client (length sent) (ShowFieldKeys m)) as [fields|] eqn:Hans.
    + destruct (field_keys fields) as [keys| |].
      * destruct (IH (dict_set m keys d) (sent ++ [ShowFieldKeys m])) as (new & Hsent & Hfail).
        exists (ShowFieldKeys m :: new). split; [by rewrite Hsent, <- app_assoc|].
        intros [|j] q Hq Hbad.
        -- injection Hq as <-. rewrite Nat.add_0_r in Hbad. congruence.
        -- cbn in Hq. destruct (Hfail j q Hq) as [Ho Hlen].
           { rewrite length_app. cbn [length].
             by replace (length sent + 1 + j)%nat with (length sent + S j)%nat by lia. }
           split; [done|]. cbn [length]. by rewrite Hlen.
      * exists [ShowFieldKeys m]. split; [done|]. intros [|j] q Hq Hbad; [|done].
        injection Hq as <-. rewrite Nat.add_0_r in Hbad. congruence.
      * exists [ShowFieldKeys m]. split; [done|]. intros [|j] q Hq Hbad; [|done].
        injection Hq as <-. rewrite Nat.add_0_r in Hbad. congruence.
    + exists [ShowFieldKeys m]. split; [done|]. intros [|j] q Hq Hbad; done.
Qed.

(** X15.  [fetch_measurements_and_fields] stops at the first schema query
    that fails: a query the database did not answer is the last one it
    sent, and the call raises the failure instead of returning the
    measurements found so far. *)
Theorem fetch_stops_at_failed_query client k q :
  (fetch_measurements_and_fields client []).2 !! k = Some q ->
  client k q = SchemaFailure ->
  (fetch_measurements_and_fields client []).1 = Raises InfluxError
  /\ S k = length (fetch_measurements_and_fields client []).2.
Proof.
  unfold fetch_measurements_and_fields, schema_query. cbn [length app].
  destruct (client 0%nat ShowMeasurements) as [measurements|] eqn:Hfirst.
  - destruct (fetch_loop_failure client measurements [] [ShowMeasurements])
      as (new & Hsent & Hfail).
    rewrite Hsent. intros Hq Hbad. destruct k as [|k].
    + injection Hq as <-. congruence.
    + cbn in Hq. destruct (Hfail k q Hq Hbad) as [Ho Hlen].
      split; [done|]. cbn [length app]. by rewrite Hlen.
  - cbn. intros Hq Hbad. destruct k as [|k]; [done|]. done.
Qed.

Lemma fetch_stops_at_failed_query_witness :
  let client : SchemaClient :=
    fun k q =>
      match q with
      | ShowMeasurements => SchemaPoints [[("name", "bms")]; [("name", "trip")]]
      | ShowFieldKeys _ => SchemaFailure
      end in
  fetch_measurements_and_fields client [] = (Raises InfluxError,
                                             [ShowMeasurements; ShowFieldKeys "bms"]).
Proof.
  intros client.
  destruct (fetch_stops_at_failed_query client 1 (ShowFieldKeys "bms")) as [Ho Hlen];
    reflexivity.
Defined.

